(** * Least-Squares Monte Carlo pricing (LSMC_with_TPyTorch.ipynb)

    A shallow embedding of the notebook's auxiliary functions
    ([chebyshev_basis], [ridge_regression], [first_one], [scale],
    [advance], [where]) and of its main cell, followed by the properties
    of the specification that were checked against them.

    Numbers.  Tensor entries are IEEE floats in the notebook.  In the
    first embedding an entry is an exact rational or one of the three
    special values [PInf], [NInf], [NaN], with the IEEE rules for the
    special values (division by zero, [inf - inf], [0 * inf], NaN
    propagation); rounding, overflow and the sign of zero are not
    modelled there: a zero divisor is the positive zero, which is what
    [xmax - xmin] is for a constant vector.  The statements over this
    embedding are those that do not depend on rounding: equalities
    between entries computed by the same operations in the same order,
    comparisons of entries, shapes, errors and the number of
    draws.  Rounding to the nearest number of a binary format is
    defined in [Float], and [Float32.scale] is [scale] with every
    operation rounded to binary32.

    Time.  The notebook keys its dictionaries by the rounded time
    labels [np.round(t, 6)].  In the first embedding a date is its
    index 0, 1, ..., m.  Two further embeddings of the main cell keep
    the labels, as whole numbers of millionths: [Labelled] computes
    the times exactly, [Float64] computes them in binary64 as Python
    and [numpy] do, and both are compared with the first.

    Errors.  The notebook has no error handling of its own; what can
    fail is a Python or tensor-library operation, and a computation
    returns a [result]. *)

From Stdlib Require Import QArith Qround Qminmax Qabs ZArith List Lia Lqa Bool.
From stdpp Require Import base option list gmap.
Import ListNotations.

Local Open Scope Q_scope.

(** ** Numbers *)

Inductive num : Type :=
| Fin (q : Q)
| PInf
| NInf
| NaN.

Module Num.

Definition zero : num := Fin 0.
Definition one : num := Fin 1.

Definition of_Z (z : Z) : num := Fin (inject_Z z).

Definition of_bool (b : bool) : num := if b then one else zero.

Definition is_finite (a : num) : bool :=
  match a with Fin _ => true | _ => false end.

Definition opp (a : num) : num :=
  match a with
  | Fin q => Fin (- q)
  | PInf => NInf
  | NInf => PInf
  | NaN => NaN
  end.

Definition add (a b : num) : num :=
  match a, b with
  | NaN, _ | _, NaN => NaN
  | Fin p, Fin q => Fin (p + q)
  | PInf, NInf | NInf, PInf => NaN
  | PInf, _ | _, PInf => PInf
  | NInf, _ | _, NInf => NInf
  end.

Definition sub (a b : num) : num :=
  match a, b with
  | NaN, _ | _, NaN => NaN
  | Fin p, Fin q => Fin (p - q)
  | PInf, PInf | NInf, NInf => NaN
  | PInf, _ | _, NInf => PInf
  | NInf, _ | _, PInf => NInf
  end.

(** An infinity times a finite [q]: the sign of [q] decides, and
    [inf * 0] is NaN. *)
Definition inf_times (pos : bool) (q : Q) : num :=
  match q ?= 0 with
  | Eq => NaN
  | Gt => if pos then PInf else NInf
  | Lt => if pos then NInf else PInf
  end.

Definition mul (a b : num) : num :=
  match a, b with
  | NaN, _ | _, NaN => NaN
  | Fin p, Fin q => Fin (p * q)
  | PInf, Fin q | Fin q, PInf => inf_times true q
  | NInf, Fin q | Fin q, NInf => inf_times false q
  | PInf, PInf | NInf, NInf => PInf
  | PInf, NInf | NInf, PInf => NInf
  end.

Definition div (a b : num) : num :=
  match a, b with
  | NaN, _ | _, NaN => NaN
  | Fin p, Fin q =>
      match q ?= 0 with
      | Eq => match p ?= 0 with Eq => NaN | Gt => PInf | Lt => NInf end
      | _ => Fin (p / q)
      end
  | Fin _, _ => zero
  | PInf, Fin q => match q ?= 0 with Lt => NInf | _ => PInf end
  | NInf, Fin q => match q ?= 0 with Lt => PInf | _ => NInf end
  | _, _ => NaN
  end.

(** [a > b]; every comparison with NaN is false. *)
Definition gtb (a b : num) : bool :=
  match a, b with
  | NaN, _ | _, NaN => false
  | Fin p, Fin q => match p ?= q with Gt => true | _ => false end
  | PInf, PInf | NInf, _ => false
  | PInf, _ => true
  | Fin _, NInf => true
  | Fin _, PInf => false
  end.

(** [torch.max] and [torch.min] of two entries, NaN propagating. *)
Definition max (a b : num) : num :=
  match a, b with
  | NaN, _ | _, NaN => NaN
  | _, _ => if gtb b a then b else a
  end.

Definition min (a b : num) : num :=
  match a, b with
  | NaN, _ | _, NaN => NaN
  | _, _ => if gtb a b then b else a
  end.

(** Equality of entries as values: rationals up to [Qeq]. *)
Definition eq (a b : num) : Prop :=
  match a, b with
  | Fin p, Fin q => p == q
  | PInf, PInf | NInf, NInf | NaN, NaN => True
  | _, _ => False
  end.

Definition eqb (a b : num) : bool :=
  match a, b with
  | Fin p, Fin q => Qeq_bool p q
  | PInf, PInf | NInf, NInf | NaN, NaN => true
  | _, _ => false
  end.

End Num.

Declare Scope num_scope.
Delimit Scope num_scope with num.
Bind Scope num_scope with num.
Infix "+" := Num.add : num_scope.
Infix "-" := Num.sub : num_scope.
Infix "*" := Num.mul : num_scope.
Infix "/" := Num.div : num_scope.
Infix ">?" := Num.gtb (at level 70) : num_scope.
Infix "==" := Num.eq (at level 70, no associativity) : num_scope.

(** ** Exceptions and results

    The exceptions the notebook can raise: Python's [ZeroDivisionError]
    (the division [T / m] of two Python numbers), Python's [KeyError]
    (a dictionary read at an absent key) and the tensor library's
    [RuntimeError] (negative size, reduction of an empty tensor,
    incompatible shapes, singular system). *)

Inductive error : Type :=
| ZeroDivisionError
| KeyError
| RuntimeError.

Inductive result (A : Type) : Type :=
| Ok (a : A)
| Raise (e : error).

Arguments Ok {A} a.
Arguments Raise {A} e.

#[global] Instance result_ret : MRet result := fun A a => Ok a.

#[global] Instance result_bind : MBind result := fun A B k c =>
  match c with
  | Ok a => k a
  | Raise e => Raise e
  end.

(** ** Tensors

    A 1-d tensor is the list of its entries; a 2-d tensor is the list of
    its rows.  A 2-d tensor with no row carries no column count here and
    is taken to have none. *)

Abbreviation vec := (list num).
Abbreviation matrix := (list (list num)).

Module Tensor.

Local Open Scope num_scope.

(** [torch.ones(n)], [torch.zeros(n)]: a negative size is refused. *)
Definition ones (n : Z) : result vec :=
  if (n <? 0)%Z then Raise RuntimeError
  else Ok (repeat Num.one (Z.to_nat n)).

Definition zeros (n : Z) : result vec :=
  if (n <? 0)%Z then Raise RuntimeError
  else Ok (repeat Num.zero (Z.to_nat n)).

Definition ones_like (x : vec) : vec := map (fun _ => Num.one) x.

(** Entrywise operations on tensors of one shape, and a scalar against
    a tensor. *)
Definition vadd (x y : vec) : vec := zip_with Num.add x y.
Definition vsub (x y : vec) : vec := zip_with Num.sub x y.
Definition vmul (x y : vec) : vec := zip_with Num.mul x y.
Definition vgt (x y : vec) : list bool := zip_with Num.gtb x y.
Definition smul (s : num) (x : vec) : vec := map (Num.mul s) x.
Definition sadd (x : vec) (s : num) : vec := map (fun a => a + s) x.
Definition ssub (s : num) (x : vec) : vec := map (Num.sub s) x.

(** [torch.clamp(x, min=lo)] and [torch.clamp(x, max=hi)]. *)
Definition clamp_min (lo : num) (x : vec) : vec :=
  map (fun a => Num.max a lo) x.
Definition clamp_max (hi : num) (x : vec) : vec :=
  map (fun a => Num.min a hi) x.

(** [torch.min(x)], [torch.max(x)] over all entries; an empty tensor
    has neither. *)
Definition vmin (x : vec) : result num :=
  match x with
  | [] => Raise RuntimeError
  | a :: x' => Ok (fold_left Num.min x' a)
  end.

Definition vmax (x : vec) : result num :=
  match x with
  | [] => Raise RuntimeError
  | a :: x' => Ok (fold_left Num.max x' a)
  end.

(** [torch.cumprod(x, dim=1)] on one row. *)
Fixpoint cumprod_from (acc : num) (x : vec) : vec :=
  match x with
  | [] => []
  | a :: x' => (acc * a) :: cumprod_from (acc * a) x'
  end.

Definition cumprod (x : vec) : vec :=
  match x with
  | [] => []
  | a :: x' => a :: cumprod_from a x'
  end.

(** [torch.sum] of all entries. *)
Definition vsum (x : vec) : num := fold_left Num.add x Num.zero.
Definition msum (X : matrix) : num := vsum (concat X).

Definition width (X : matrix) : nat :=
  match X with
  | [] => 0
  | r :: _ => length r
  end.

Definition entry (X : matrix) (i j : nat) : num :=
  nth j (nth i X []) Num.zero.

(** [X[:, j]]. *)
Definition column (X : matrix) (j : nat) : vec :=
  map (fun r => nth j r Num.zero) X.

(** [X.transpose(1, 0)]. *)
Definition transpose (X : matrix) : matrix :=
  map (column X) (seq 0 (width X)).

Definition same_length (c : vec) (cs : list vec) : bool :=
  forallb (fun c' => Nat.eqb (length c') (length c)) cs.

(** [torch.stack(ts)]: the tensors become the rows.  The list must not
    be empty and the tensors must have one size. *)
Definition stack0 (ts : list vec) : result matrix :=
  match ts with
  | [] => Raise RuntimeError
  | c :: cs => if same_length c cs then Ok ts else Raise RuntimeError
  end.

(** [torch.stack(ts, dim=1)]: the tensors become the columns. *)
Definition stack1 (ts : list vec) : result matrix :=
  match ts with
  | [] => Raise RuntimeError
  | c :: cs =>
      if same_length c cs
      then Ok (map (fun i => map (fun t => nth i t Num.zero) ts)
                   (seq 0 (length c)))
      else Raise RuntimeError
  end.

Definition dot (x y : vec) : num := vsum (vmul x y).

(** [A @ B]: the columns of [A] must be as many as the rows of [B]. *)
Definition matmul (A B : matrix) : result matrix :=
  if Nat.eqb (width A) (length B)
  then Ok (map (fun r => map (fun j => dot r (column B j))
                             (seq 0 (width B))) A)
  else Raise RuntimeError.

(** [torch.eye(k)]. *)
Definition eye (k : Z) : result matrix :=
  if (k <? 0)%Z then Raise RuntimeError
  else Ok (map (fun i => map (fun j => Num.of_bool (Nat.eqb i j))
                             (seq 0 (Z.to_nat k)))
               (seq 0 (Z.to_nat k))).

Definition mscale (s : num) (X : matrix) : matrix := map (smul s) X.

(** Broadcasting of one dimension: equal sizes, or one of them 1. *)
Definition broadcast_dim (a b : nat) : option nat :=
  if Nat.eqb a b then Some a
  else if Nat.eqb a 1 then Some b
  else if Nat.eqb b 1 then Some a
  else None.

Definition bentry (X : matrix) (i j : nat) : num :=
  entry X (if Nat.eqb (length X) 1 then 0 else i)
          (if Nat.eqb (width X) 1 then 0 else j).

(** [A + B] on 2-d tensors, with broadcasting. *)
Definition madd (A B : matrix) : result matrix :=
  match broadcast_dim (length A) (length B),
        broadcast_dim (width A) (width B) with
  | Some nr, Some nc =>
      Ok (map (fun i => map (fun j => bentry A i j + bentry B i j)
                            (seq 0 nc))
              (seq 0 nr))
  | _, _ => Raise RuntimeError
  end.

(** [torch.squeeze] of a one-column tensor. *)
Definition squeeze (X : matrix) : vec := column X 0.

(** [Y.reshape(-1, 1)]. *)
Definition as_column (y : vec) : matrix := map (fun a => [a]) y.

Definition mask (c : list bool) : vec := map Num.of_bool c.

(** No special value among the entries. *)
Definition all_finite (X : matrix) : bool :=
  forallb (forallb Num.is_finite) X.

End Tensor.

(** ** The random source

    [torch.randn] is the only stateful call of the notebook.  The source
    of standard-normal draws is a fixed sequence [draws]; the state of a
    computation is the number of draws consumed so far.  A computation
    either returns a value or raises, and in both cases leaves a state. *)

Definition M (A : Type) : Type := nat -> result A * nat.

#[global] Instance M_ret : MRet M := fun A a s => (Ok a, s).

#[global] Instance M_bind : MBind M := fun A B k c s =>
  match c s with
  | (Ok a, s') => k a s'
  | (Raise e, s') => (Raise e, s')
  end.

Definition lift {A} (c : result A) : M A := fun s => (c, s).

(** [d[k]] on a dictionary. *)
Definition getitem (d : gmap Z vec) (k : Z) : result vec :=
  match d !! k with
  | Some v => Ok v
  | None => Raise KeyError
  end.

(** [range(a, b)] for Python integers. *)
Definition range (a b : Z) : list Z :=
  map (fun i => (a + Z.of_nat i)%Z) (seq 0 (Z.to_nat (b - a))).

(** ** Auxiliary functions

    The notebook's globals read by the auxiliary functions are the
    variables of this section: the polynomial [order], the number of
    paths [n], the time step [Δt], the rate [r] and the volatility [σ].
    [sqrt_] stands for [np.sqrt], [solve] for the library's linear
    solver ([solve B A] is [torch.solve(B, A)[0]]) and [draws] for the
    sequence of normal draws. *)

Section Auxiliary.

Local Open Scope num_scope.

Variable order : Z.
Variable n : Z.
Variable Δt : num.
Variables r σ : num.
Variable sqrt_ : num -> num.
Variable solve : matrix -> matrix -> result matrix.
Variable draws : nat -> num.

(** [torch.randn(k)]. *)
Definition randn (k : Z) : M vec := fun s =>
  if (k <? 0)%Z then (Raise RuntimeError, s)
  else (Ok (map draws (seq s (Z.to_nat k))), (s + Z.to_nat k)%nat).

(** The dictionary [B] is filled at the keys 0, 1, 2, ... in that
    order, so it is the list of its values: [B[j]] is the entry at
    position [j] and [B[n] = v] appends [v]. *)
Definition chebyshev_step (x : vec) (B : list vec) (n : Z) : list vec :=
  B ++ [Tensor.vsub
          (Tensor.vmul (Tensor.smul (Fin 2) x)
                       (nth (Z.to_nat (n - 1)) B []))
          (nth (Z.to_nat (n - 2)) B [])].

Definition chebyshev_columns (x : vec) (k : Z) : list vec :=
  fold_left (chebyshev_step x) (range 2 k) [Tensor.ones_like x; x].

Definition chebyshev_basis (x : vec) (k : Z) : result matrix :=
  Tensor.stack1 (chebyshev_columns x k).

Definition ridge_regression (X : matrix) (Y : vec) (lambda : num)
  : result vec :=
  I ← Tensor.eye order;
  let YY := Tensor.as_column Y in
  XtY ← Tensor.matmul (Tensor.transpose X) YY;
  XtX ← Tensor.matmul (Tensor.transpose X) X;
  A ← Tensor.madd XtX (Tensor.mscale lambda I);
  β ← solve XtY A;
  Xβ ← Tensor.matmul X β;
  Ok (Tensor.squeeze Xβ).

Definition first_one (x : matrix) : matrix :=
  let original := x in
  let x := map (map (fun a => Num.of_bool (a >? Num.zero))) x in
  let n_columns := Tensor.width x in
  let batch_size := length x in
  let x_not := map (Tensor.ssub Num.one) x in
  let sum_x := map (fun row => Tensor.clamp_max Num.one
                                 (Tensor.cumprod row)) x_not in
  let ones := repeat [Num.one] batch_size in
  let lag := map (take (n_columns - 1)) sum_x in
  let lag := zip_with app ones lag in
  zip_with Tensor.vmul original (zip_with Tensor.vmul lag x).

Definition scale (x : vec) : result vec :=
  xmin ← Tensor.vmin x;
  xmax ← Tensor.vmax x;
  let a := Fin 2 / (xmax - xmin) in
  let b := (Fin (- (1 # 2)) * a) * (xmin + xmax) in
  Ok (Tensor.sadd (Tensor.smul a x) b).

Definition advance (S : vec) : M vec :=
  z ← randn n;
  let dB := Tensor.smul (sqrt_ Δt) z in
  mret (Tensor.vadd
          (Tensor.vadd S (map (fun a => a * Δt) (Tensor.smul r S)))
          (Tensor.vmul (Tensor.smul σ S) dB)).

Definition where_ (cond : list bool) (x_1 x_2 : vec) : vec :=
  let cond := Tensor.mask cond in
  Tensor.vadd (Tensor.vmul cond x_1)
              (Tensor.vmul (Tensor.ssub Num.one cond) x_2).

End Auxiliary.

(** ** The main cell

    The dictionaries [S], [cashflow], [value] and [continuation_value]
    are keyed by time; here a key is the index [t] of the date, the time
    being [t * Δt]: 0 is today, [t_span] is 1, ..., m and the maturity
    [T] is the key [m].  The greeks (reverse-mode differentiation) are
    not modelled. *)

Record tables : Type := {
  tab_S : gmap Z vec;
  tab_cashflow : gmap Z vec;
  tab_value : gmap Z vec;
  tab_continuation_value : gmap Z vec;
  tab_discount : num;
  tab_dt : num;
  tab_candidates : matrix;
  tab_payoff : matrix;
  tab_price : num
}.

Section Main.

Local Open Scope num_scope.

Variables Spot σ K r : num.
Variable T : positive.
Variables order n m : Z.
Variables exp_ sqrt_ : num -> num.
Variable solve : matrix -> matrix -> result matrix.
Variable draws : nat -> num.

(** [Δt = T / m], a division of Python numbers. *)
Definition time_step : result num :=
  if (m =? 0)%Z then Raise ZeroDivisionError
  else Ok (Fin (inject_Z (Z.pos T) / inject_Z m)).

(** [np.arange(Δt, T + Δt, Δt)], as date indices. *)
Definition t_span : list Z := range 1 (m + 1).

Section Run.

Variable Δt : num.

Fixpoint simulate (ts : list Z) (S : gmap Z vec) : M (gmap Z vec) :=
  match ts with
  | [] => mret S
  | t :: ts' =>
      let t_previous := (t - 1)%Z in
      prev ← lift (getitem S t_previous);
      St ← advance n Δt r σ sqrt_ draws prev;
      simulate ts' (<[t := St]> S)
  end.

(** [{t: f(t) for t in ts}]. *)
Fixpoint comprehension (f : Z -> result vec) (ts : list Z)
         (d : gmap Z vec) : result (gmap Z vec) :=
  match ts with
  | [] => Ok d
  | t :: ts' => v ← f t; comprehension f ts' (<[t := v]> d)
  end.

(** [list({t: f(t) for t in ts}.values())], for keys without
    repetition. *)
Fixpoint comprehension_values (f : Z -> result vec) (ts : list Z)
  : result (list vec) :=
  match ts with
  | [] => Ok []
  | t :: ts' =>
      v ← f t; vs ← comprehension_values f ts'; Ok (v :: vs)
  end.

Definition discount : num := exp_ (Num.opp r * Δt).

Definition cashflow_at (S : gmap Z vec) (t : Z) : result vec :=
  St ← getitem S t;
  Ok (Tensor.clamp_min Num.zero (Tensor.ssub K St)).

(** One pass of the recursion's loop body, at date [t]. *)
Definition backward_step (S cashflow : gmap Z vec)
           (st : gmap Z vec * gmap Z vec) (t : Z)
  : result (gmap Z vec * gmap Z vec) :=
  let '(value, continuation_value) := st in
  let t_next := (t + 1)%Z in
  St ← getitem S t;
  x ← scale St;
  basis ← chebyshev_basis x order;
  v_next ← getitem value t_next;
  cv ← ridge_regression order solve basis v_next (Fin 100);
  let continuation_value := <[t := cv]> continuation_value in
  cf ← getitem cashflow t;
  cvt ← getitem continuation_value t;
  let v := Tensor.smul discount
             (where_ (Tensor.vgt cf cvt) cf v_next) in
  Ok (<[t := v]> value, continuation_value).

Fixpoint backward (S cashflow : gmap Z vec) (ts : list Z)
         (st : gmap Z vec * gmap Z vec)
  : result (gmap Z vec * gmap Z vec) :=
  match ts with
  | [] => Ok st
  | t :: ts' =>
      st' ← backward_step S cashflow st t;
      backward S cashflow ts' st'
  end.

Definition payoff_at (cashflow continuation_value : gmap Z vec)
           (t : Z) : result vec :=
  cv ← getitem continuation_value t;
  cf ← getitem cashflow t;
  z ← Tensor.zeros n;
  cf' ← getitem cashflow t;
  Ok (where_ (Tensor.vgt cv cf) z cf').

Definition discounted_payoff (payoff : matrix) (i : Z) : vec :=
  map (fun a => a * exp_ ((Num.opp r * Num.of_Z i) * Δt))
      (Tensor.column payoff (Z.to_nat i)).

Definition price_of (payoff : matrix) : result num :=
  stacked_disc_payoffs ←
    Tensor.stack0 (map (discounted_payoff payoff) (range 0 m));
  Ok (Tensor.msum stacked_disc_payoffs / Num.of_Z n).

(** The cell after the simulation loop: cashflows, recursion, payoffs
    and price.  It draws no random number. *)
Definition valuation (S : gmap Z vec) : result tables :=
  cashflow ← comprehension (cashflow_at S) t_span ∅;
  cf_T ← getitem cashflow m;
  let value : gmap Z vec :=
    {[ m := map (fun a => a * discount) cf_T ]} in
  z ← Tensor.zeros n;
  let continuation_value : gmap Z vec := {[ m := z ]} in
  '(value, continuation_value) ←
    backward S cashflow (tail (rev t_span))
             (value, continuation_value);
  payoff ← comprehension_values
             (payoff_at cashflow continuation_value) t_span;
  candidates ← Tensor.stack1 payoff;
  let payoff := first_one candidates in
  price ← price_of payoff;
  Ok {| tab_S := S; tab_cashflow := cashflow; tab_value := value;
        tab_continuation_value := continuation_value;
        tab_discount := discount; tab_dt := Δt;
        tab_candidates := candidates; tab_payoff := payoff;
        tab_price := price |}.

Definition main_cell : M tables :=
  one_n ← lift (Tensor.ones n);
  let S0 : gmap Z vec := {[ 0%Z := Tensor.smul Spot one_n ]} in
  S ← simulate t_span S0;
  lift (valuation S).

End Run.

(** The notebook, from its first cell on. *)
Definition notebook : M tables :=
  Δt ← lift time_step;
  main_cell Δt.

End Main.

(** ** Reference instances of the external functions

    Executable stand-ins for the library functions the notebook calls:
    an exact linear solver and rational versions of [exp] and [sqrt].
    They serve to run the notebook on concrete inputs. *)

Module Reference.

(** Elimination on the rows of the augmented system [A | B] with [k]
    unknowns: take the first row whose leading entry is not zero as
    the pivot, clear the leading column of the others, solve for the
    remaining unknowns and substitute back. *)
Fixpoint extract_pivot (rows : list (list Q))
  : option (list Q * list (list Q)) :=
  match rows with
  | [] => None
  | r :: rows' =>
      if Qeq_bool (hd 0 r) 0
      then match extract_pivot rows' with
           | Some (p, others) => Some (p, r :: others)
           | None => None
           end
      else Some (r, rows')
  end.

Definition qsub_row (x y : list Q) : list Q := zip_with Qminus x y.
Definition qscale_row (s : Q) (x : list Q) : list Q := map (Qmult s) x.

Definition back_substitute (coeffs rhs : list Q) (X : list (list Q))
  : list Q :=
  fold_left (fun acc cx => qsub_row acc (qscale_row (fst cx) (snd cx)))
            (zip coeffs X) rhs.

Fixpoint eliminate (k : nat) (rows : list (list Q))
  : option (list (list Q)) :=
  match k with
  | O => Some []
  | S k' =>
      match extract_pivot rows with
      | None => None
      | Some (p, others) =>
          let p' := map (fun a => a / hd 0 p) (tl p) in
          let others' :=
            map (fun row => qsub_row (tl row) (qscale_row (hd 0 row) p'))
                others in
          match eliminate k' others' with
          | None => None
          | Some X =>
              Some (back_substitute (take k' p') (drop k' p') X :: X)
          end
      end
  end.

Definition to_Q (a : num) : Q :=
  match a with Fin q => q | _ => 0 end.

Definition vec_eqb (x y : vec) : bool :=
  Nat.eqb (length x) (length y) && forallb id (zip_with Num.eqb x y).

Fixpoint mat_eqb (X Y : matrix) : bool :=
  match X, Y with
  | [], [] => true
  | x :: X', y :: Y' => vec_eqb x y && mat_eqb X' Y'
  | _, _ => false
  end.

(** The solver: [A] must be square, of the size of the rows of [B].
    Special values in the system spread to the whole solution.  A
    pivot search that fails is the library's "singular" error; the
    solution found is checked against the system. *)
Definition solve (B A : matrix) : result matrix :=
  if negb (Nat.eqb (length A) (Tensor.width A)
           && Nat.eqb (length A) (length B)
           && forallb (fun row => Nat.eqb (length row) (Tensor.width A)) A
           && forallb (fun row => Nat.eqb (length row) (Tensor.width B)) B)
  then Raise RuntimeError
  else if negb (Tensor.all_finite A && Tensor.all_finite B)
  then Ok (map (map (fun _ => NaN)) B)
  else
    match eliminate (length A)
            (zip_with app (map (map to_Q) A) (map (map to_Q) B)) with
    | None => Raise RuntimeError
    | Some X =>
        let X := map (map Fin) X in
        match Tensor.matmul A X with
        | Ok AX => if mat_eqb AX B then Ok X else Raise RuntimeError
        | Raise e => Raise e
        end
    end.

(** A rational exponential: the series up to degree 12 for
    non-negative arguments, its inverse for negative ones. *)
Fixpoint exp_series (k : nat) (x term : Q) (deg : positive) : Q :=
  match k with
  | O => term
  | S k' =>
      term + exp_series k' x (term * x / inject_Z (Z.pos deg))
                        (Pos.succ deg)
  end.

Definition exp_Q (x : Q) : Q :=
  match x ?= 0 with
  | Lt => / Qred (exp_series 12 (- x) 1 1)
  | _ => Qred (exp_series 12 x 1 1)
  end.

Definition exp (a : num) : num :=
  match a with
  | Fin q => Fin (exp_Q q)
  | PInf => PInf
  | NInf => Num.zero
  | NaN => NaN
  end.

(** A rational square root, exact on the squares of rationals with at
    most six decimal places. *)
Definition sqrt_Q (x : Q) : Q :=
  let s := (10 ^ 6)%Z in
  Qred (Z.sqrt (Qnum x * Z.pos (Qden x) * s * s) # (Qden x * 10 ^ 6)).

Definition sqrt (a : num) : num :=
  match a with
  | Fin q => match q ?= 0 with Lt => NaN | _ => Fin (sqrt_Q q) end
  | PInf => PInf
  | _ => NaN
  end.

End Reference.




(** ** Auxiliary notions used in the statements

    Rational readings of the tensor operations on finite entries, and
    the boolean masks behind [first_one]. *)

Definition qmin (a b : Q) : Q := match a ?= b with Gt => b | _ => a end.
Definition qmax (a b : Q) : Q := match b ?= a with Gt => b | _ => a end.

Definition qentry (x : list (list Q)) (i j : nat) : Q :=
  nth j (nth i x []) 0.

(** The positivity mask [(x > 0).type(x.dtype)] of one row. *)
Definition positive_mask (row : vec) : vec :=
  map (fun a => Num.of_bool (a >? Num.zero)%num) row.

(** What [first_one] computes on one row of a tensor of [w] columns. *)
Definition first_one_row (w : nat) (row : vec) : vec :=
  Tensor.vmul row
    (Tensor.vmul
       ([Num.one] ++ take (w - 1)
          (Tensor.clamp_max Num.one
             (Tensor.cumprod (Tensor.ssub Num.one (positive_mask row)))))
       (positive_mask row)).

(** [alive b bs]: the running product of [1 - x], read on booleans:
    no entry so far was positive.  [selected b bs]: the entry is
    positive and none before it was. *)
Fixpoint alive (b : bool) (bs : list bool) : list bool :=
  match bs with
  | [] => []
  | c :: bs' => (b && negb c) :: alive (b && negb c) bs'
  end.

Fixpoint selected (b : bool) (bs : list bool) : list bool :=
  match bs with
  | [] => []
  | c :: bs' => (b && c) :: selected (b && negb c) bs'
  end.

Definition first_positive (row : list Q) (j : nat) : bool :=
  nth j (selected true (map (fun q => (Fin q >? Num.zero)%num) row)) false.

(** The affine map of [scale] for a vector of minimum [lo] and maximum
    [hi]. *)
Definition scale_slope (lo hi : Q) : Q := 2 / (hi - lo).
Definition scale_shift (lo hi : Q) : Q :=
  (- (1 # 2) * scale_slope lo hi) * (lo + hi).

(** Finite entries and vectors. *)
Definition finite (a : num) : Prop := Num.is_finite a = true.

Definition finite_vec (N : nat) (v : vec) : Prop :=
  length v = N /\ Forall finite v.

(** Equality of 2-d tensors, entry by entry. *)
Definition mat_eq (X Y : matrix) : Prop := Forall2 (Forall2 Num.eq) X Y.

(** The sum of [f 0], ..., [f (k - 1)]. *)
Definition sum_over (k : nat) (f : nat -> num) : num :=
  Tensor.vsum (map f (seq 0 k)).

(** The recursion of the backward pass at the date [t], read on the
    tables [value] and [continuation_value]. *)
Definition recursion_at (r : num) (order : Z) (exp_ : num -> num)
  (solve : matrix -> matrix -> result matrix) (Δt : num)
  (Sd cashflow value continuation_value : gmap Z vec) (t : Z) : Prop :=
  exists St x basis v_next cv cf,
    Sd !! t = Some St /\
    scale St = Ok x /\
    chebyshev_basis x order = Ok basis /\
    value !! (t + 1)%Z = Some v_next /\
    ridge_regression order solve basis v_next (Fin 100) = Ok cv /\
    continuation_value !! t = Some cv /\
    cashflow !! t = Some cf /\
    value !! t =
      Some (Tensor.smul (discount r exp_ Δt)
              (where_ (Tensor.vgt cf cv) cf v_next)).

(** Sums of rationals, and the price of a run with one exercise date:
    the mean over the paths of [max(K - S, 0)] times the discount [e]. *)
Fixpoint qsum_over (k : nat) (g : nat -> Q) : Q :=
  match k with
  | O => 0
  | Datatypes.S k' => qsum_over k' g + g k'
  end.

Definition one_date_price (n : Z) (K : Q) (S1 : vec) (e : Q) : Q :=
  qsum_over (Z.to_nat n)
    (fun p => qmax (K - Reference.to_Q (nth p S1 Num.zero)) 0 * e)
  / inject_Z n.

(** ** Concrete runs

    Two paths, two dates of one time unit each ([T = 2], [m = 2]), zero
    rate, unit volatility, two basis functions, run with the reference
    instances.  All the numbers are small binary fractions.  With the
    draws of [strike_draws] the prices of the two paths are 32, 64 at
    the first date and 24, 64 at the second; with those of [tie_draws]
    they are 64, 128 and then 14, 128. *)

Definition strike_draws : nat -> Q :=
  fun i => nth i [0; 1; - (1 # 4); 0] 0.

Definition strike_run (K : Q) : result tables * nat :=
  notebook (Fin 32) (Fin 1) (Fin K) (Fin 0) 2 2 2 2
           Reference.exp Reference.sqrt Reference.solve
           (fun i => Fin (strike_draws i)) 0%nat.

Definition tie_draws : nat -> Q :=
  fun i => nth i [0; 1; - (25 # 32); 0] 0.

Definition tie_run : result tables * nat :=
  notebook (Fin 64) (Fin 1) (Fin 65) (Fin 0) 2 2 2 2
           Reference.exp Reference.sqrt Reference.solve
           (fun i => Fin (tie_draws i)) 0%nat.

Definition no_tables : tables :=
  {| tab_S := ∅; tab_cashflow := ∅; tab_value := ∅;
     tab_continuation_value := ∅; tab_discount := NaN; tab_dt := NaN;
     tab_candidates := []; tab_payoff := []; tab_price := NaN |}.

Definition tables_of (c : result tables * nat) : tables :=
  match fst c with
  | Ok tb => tb
  | Raise _ => no_tables
  end.

(** A payoff matrix of three paths and four dates. *)
Definition sample_payoffs : list (list Q) :=
  [[0; 3; 0; 5]; [0; 0; 0; 0]; [2; 0; 1; 0]].

(** ** The main cell with its time labels

    The notebook keys its dictionaries by the times rounded to six
    decimal places, [np.round(t, 6)], and finds the neighbouring dates
    by arithmetic on these labels.  In this second embedding of the main
    cell a label is the integer [rint(t * 10^6)], the number of
    millionths it stands for; two labels are the same dictionary key
    exactly when these integers are equal.  The arithmetic on the times
    is exact, as it is on the tensor entries. *)

Module Labelled.

(** [np.rint]: the nearest integer, a tie going to the even one. *)
Definition rint (x : Q) : Z :=
  let k := Qfloor x in
  match (x - inject_Z k ?= 1 # 2)%Q with
  | Lt => k
  | Gt => (k + 1)%Z
  | Eq => if Z.even k then k else (k + 1)%Z
  end.

(** [np.round(x, 6)], in millionths. *)
Definition round6 (x : Q) : Z := rint (x * 1000000).

(** The time a label stands for. *)
Definition time_of (k : Z) : Q := inject_Z k / 1000000.

(** [np.arange(start, stop, step)]: the [ceil((stop - start) / step)]
    values [start + i * step]. *)
Definition arange (start stop step : Q) : list Q :=
  map (fun i => start + inject_Z (Z.of_nat i) * step)
      (seq 0 (Z.to_nat (Qceiling ((stop - start) / step)))).

(** A dictionary whose order matters is the list of its items:
    [d[k] = v] replaces the value of a key that is present, in place,
    and appends a key that is not. *)
Fixpoint setitem (k : Z) (v : vec) (d : list (Z * vec)) : list (Z * vec) :=
  match d with
  | [] => [(k, v)]
  | (k', v') :: d' =>
      if (k =? k')%Z then (k, v) :: d' else (k', v') :: setitem k v d'
  end.

(** [{t: f(t) for t in ts}], in the order of its keys. *)
Fixpoint comprehension_items (f : Z -> result vec) (ts : list Z)
         (d : list (Z * vec)) : result (list (Z * vec)) :=
  match ts with
  | [] => Ok d
  | t :: ts' => v ← f t; comprehension_items f ts' (setitem t v d)
  end.

(** [list(d.values())]. *)
Definition values (d : list (Z * vec)) : list vec := map snd d.

Section Main.

Local Open Scope num_scope.

Variables Spot σ K r : num.
Variable T : positive.
Variables order n m : Z.
Variables exp_ sqrt_ : num -> num.
Variable solve : matrix -> matrix -> result matrix.
Variable draws : nat -> num.

(** [Δt = T / m]. *)
Definition time_step : result Q :=
  if (m =? 0)%Z then Raise ZeroDivisionError
  else Ok (inject_Z (Z.pos T) / inject_Z m)%Q.

(** The label of the key [T], an integer. *)
Definition key_T : Z := (Z.pos T * 1000000)%Z.

Section Run.

Variable dt : Q.

(** [np.round(np.arange(Δt, T + Δt, Δt), 6)]. *)
Definition t_span : list Z :=
  map round6 (arange dt (inject_Z (Z.pos T) + dt)%Q dt).

Fixpoint simulate (ts : list Z) (S : gmap Z vec) : M (gmap Z vec) :=
  match ts with
  | [] => mret S
  | t :: ts' =>
      let t_previous := round6 (time_of t - dt)%Q in
      prev ← lift (getitem S t_previous);
      St ← advance n (Fin dt) r σ sqrt_ draws prev;
      simulate ts' (<[t := St]> S)
  end.

Definition backward_step (S cashflow : gmap Z vec)
           (st : gmap Z vec * gmap Z vec) (t : Z)
  : result (gmap Z vec * gmap Z vec) :=
  let '(value, continuation_value) := st in
  let t_next := round6 (time_of t + dt)%Q in
  St ← getitem S t;
  x ← scale St;
  basis ← chebyshev_basis x order;
  v_next ← getitem value t_next;
  cv ← ridge_regression order solve basis v_next (Fin 100);
  let continuation_value := <[t := cv]> continuation_value in
  cf ← getitem cashflow t;
  cvt ← getitem continuation_value t;
  let v := Tensor.smul (discount r exp_ (Fin dt))
             (where_ (Tensor.vgt cf cvt) cf v_next) in
  Ok (<[t := v]> value, continuation_value).

Fixpoint backward (S cashflow : gmap Z vec) (ts : list Z)
         (st : gmap Z vec * gmap Z vec)
  : result (gmap Z vec * gmap Z vec) :=
  match ts with
  | [] => Ok st
  | t :: ts' =>
      st' ← backward_step S cashflow st t;
      backward S cashflow ts' st'
  end.

Definition valuation (S : gmap Z vec) : result tables :=
  cashflow ← comprehension (cashflow_at K S) t_span ∅;
  cf_T ← getitem cashflow key_T;
  let value : gmap Z vec :=
    {[ key_T := map (fun a => a * discount r exp_ (Fin dt)) cf_T ]} in
  z ← Tensor.zeros n;
  let continuation_value : gmap Z vec := {[ key_T := z ]} in
  '(value, continuation_value) ←
    backward S cashflow (tail (rev t_span))
             (value, continuation_value);
  payoff ← comprehension_items
             (payoff_at n cashflow continuation_value) t_span [];
  candidates ← Tensor.stack1 (values payoff);
  let payoff := first_one candidates in
  price ← price_of r n m exp_ (Fin dt) payoff;
  Ok {| tab_S := S; tab_cashflow := cashflow; tab_value := value;
        tab_continuation_value := continuation_value;
        tab_discount := discount r exp_ (Fin dt); tab_dt := Fin dt;
        tab_candidates := candidates; tab_payoff := payoff;
        tab_price := price |}.

Definition main_cell : M tables :=
  one_n ← lift (Tensor.ones n);
  let S0 : gmap Z vec := {[ 0%Z := Tensor.smul Spot one_n ]} in
  S ← simulate t_span S0;
  lift (valuation S).

End Run.

Definition notebook : M tables :=
  dt ← lift time_step;
  main_cell dt.

End Main.

End Labelled.

(** The label of the date of index [t] when the time step is [d]
    millionths, and the tables of a run keyed by these labels. *)
Definition label (d t : Z) : Z := (t * d)%Z.

Definition relabel (d : Z) (tb : tables) : tables :=
  {| tab_S := kmap (label d) (tab_S tb);
     tab_cashflow := kmap (label d) (tab_cashflow tb);
     tab_value := kmap (label d) (tab_value tb);
     tab_continuation_value := kmap (label d) (tab_continuation_value tb);
     tab_discount := tab_discount tb; tab_dt := tab_dt tb;
     tab_candidates := tab_candidates tb; tab_payoff := tab_payoff tb;
     tab_price := tab_price tb |}.

Definition relabel_pair (d : Z) (st : gmap Z vec * gmap Z vec)
  : gmap Z vec * gmap Z vec :=
  (kmap (label d) (fst st), kmap (label d) (snd st)).

Definition result_map {A B} (f : A -> B) (c : result A) : result B :=
  match c with
  | Ok a => Ok (f a)
  | Raise e => Raise e
  end.

Definition relabel_run (d : Z) (c : result tables * nat)
  : result tables * nat :=
  (result_map (relabel d) (fst c), snd c).

(** The labelled cell on the market of [strike_run], with one time unit
    cut into [m] steps. *)
Definition labelled_run (m : Z) : result tables * nat :=
  Labelled.notebook (Fin 32) (Fin 1) (Fin 33) (Fin 0) 1 2 2 m
    Reference.exp Reference.sqrt Reference.solve
    (fun i => Fin (strike_draws i)) 0%nat.

(** ** Binary floating point

    The tensor library computes in binary32, Python and [numpy] in
    binary64.  In both formats an operation returns the number of the
    format that is nearest to the exact result, a tie going to the one
    with the even significand, and an infinity when that number is
    beyond the format.  The sign of a zero is not kept. *)

Module Float.

(** [2^e]. *)
Definition pow2 (e : Z) : Q :=
  if (0 <=? e)%Z then inject_Z (2 ^ e) else 1 / inject_Z (2 ^ (- e)).

(** The exponent of [q <> 0]: the [e] with [2^e <= |q| < 2^(e + 1)]. *)
Definition exponent (q : Q) : Z :=
  let e := (Z.log2 (Z.abs (Qnum q)) - Z.log2 (Z.pos (Qden q)))%Z in
  if Qle_bool (pow2 e) (Qabs q) then e else (e - 1)%Z.

(** The multiple of the unit in the last place nearest to [q], for
    significands of [prec] bits and exponents from [emin] on; below
    [2^emin] the unit is that of [2^emin] (subnormal numbers). *)
Definition nearest (prec emin : Z) (q : Q) : Q :=
  if Qeq_bool q 0 then 0
  else
    let e := Z.max (exponent q) emin in
    let ulp := pow2 (e - prec + 1) in
    Qred (inject_Z (Labelled.rint (q / ulp)) * ulp).

(** Rounding of an entry: the nearest number of the format, an
    infinity from [2^emax] on. *)
Definition round (prec emin emax : Z) (a : num) : num :=
  match a with
  | Fin q =>
      let r := nearest prec emin q in
      if Qle_bool (pow2 emax) (Qabs r)
      then (if Qle_bool 0 r then PInf else NInf)
      else Fin r
  | _ => a
  end.

End Float.

(** *** [scale] with rounded operations

    [scale] with the result of each of its operations passed through
    [rnd], in the order in which Python evaluates them:
    [2 / (xmax - xmin)], [(-0.5 * a) * (xmin + xmax)] and
    [(a * x) + b]. *)

Module Rounded.

Section Scale.

Local Open Scope num_scope.

Variable rnd : num -> num.

Definition scale (x : vec) : result vec :=
  xmin ← Tensor.vmin x;
  xmax ← Tensor.vmax x;
  let a := rnd (Fin 2 / rnd (xmax - xmin)) in
  let b := rnd (rnd (Fin (- (1 # 2)) * a) * rnd (xmin + xmax)) in
  Ok (map (fun v => rnd (v + b)) (map (fun v => rnd (a * v)) x)).

End Scale.

End Rounded.

(** Binary32, the format of the tensors. *)
Module Float32.

Definition rnd : num -> num := Float.round 24 (-126) 128.

Definition scale : vec -> result vec := Rounded.scale rnd.

End Float32.

(** Two prices five units in the last place apart:
    [1000.3] as binary32 is [16388915 / 2^14], and the second is
    [16388920 / 2^14]. *)
Definition close_prices : vec :=
  [Fin (16388915 # 16384); Fin (2048615 # 2048)].

(** ** The main cell with its time labels, in binary64

    The times of the notebook are Python and [numpy] floats.  In this
    third embedding of the main cell every operation on a time is
    rounded to binary64: the division [T / m], the bounds, the length
    and the entries of [np.arange], the two products and the division
    of [np.round(x, 6) = np.rint(x * 10**6) / 10**6], and the
    neighbouring times [t - Δt] and [t + Δt].  A key [np.round(x, 6)]
    is again the integer [np.rint(x * 10**6)]; distinct integers below
    [2^50] are distinct keys.  The exponent range is not modelled for
    the times: the run stays far inside it unless [T] or [m] is beyond
    [2^1000].  The tensor entries are as before. *)

Module Float64.

Definition fl (q : Q) : Q := Float.nearest 53 (-1022) q.

(** [np.round(x, 6)], in millionths. *)
Definition round6 (x : Q) : Z := Labelled.rint (fl (x * 1000000)).

(** The time a label stands for. *)
Definition time_of (k : Z) : Q := fl (inject_Z k / 1000000).

(** [np.arange(start, stop, step)] on floats: the length is
    [ceil((stop - start) / step)]; the first entry is [start], the
    second [start + step], and the entry [i >= 2] is
    [start + i * delta] with [delta] the second entry minus the
    first. *)
Definition arange (start stop step : Q) : list Q :=
  let length := Z.to_nat (Qceiling (fl (fl (stop - start) / step))) in
  let next := fl (start + step) in
  let delta := fl (next - start) in
  map (fun i => match i with
                | O => start
                | Datatypes.S O => next
                | _ => fl (start + fl (inject_Z (Z.of_nat i) * delta))
                end)
      (seq 0 length).

Section Main.

Local Open Scope num_scope.

Variables Spot σ K r : num.
Variable T : positive.
Variables order n m : Z.
Variables exp_ sqrt_ : num -> num.
Variable solve : matrix -> matrix -> result matrix.
Variable draws : nat -> num.

(** [Δt = T / m]: the quotient of two Python integers, rounded once. *)
Definition time_step : result Q :=
  if (m =? 0)%Z then Raise ZeroDivisionError
  else Ok (fl (inject_Z (Z.pos T) / inject_Z m))%Q.

(** The label of the key [T], an integer. *)
Definition key_T : Z := (Z.pos T * 1000000)%Z.

Section Run.

Variable dt : Q.

(** [np.round(np.arange(Δt, T + Δt, Δt), 6)]. *)
Definition t_span : list Z :=
  map round6 (arange dt (fl (inject_Z (Z.pos T) + dt))%Q dt).

Fixpoint simulate (ts : list Z) (S : gmap Z vec) : M (gmap Z vec) :=
  match ts with
  | [] => mret S
  | t :: ts' =>
      let t_previous := round6 (fl (time_of t - dt))%Q in
      prev ← lift (getitem S t_previous);
      St ← advance n (Fin dt) r σ sqrt_ draws prev;
      simulate ts' (<[t := St]> S)
  end.

Definition backward_step (S cashflow : gmap Z vec)
           (st : gmap Z vec * gmap Z vec) (t : Z)
  : result (gmap Z vec * gmap Z vec) :=
  let '(value, continuation_value) := st in
  let t_next := round6 (fl (time_of t + dt))%Q in
  St ← getitem S t;
  x ← scale St;
  basis ← chebyshev_basis x order;
  v_next ← getitem value t_next;
  cv ← ridge_regression order solve basis v_next (Fin 100);
  let continuation_value := <[t := cv]> continuation_value in
  cf ← getitem cashflow t;
  cvt ← getitem continuation_value t;
  let v := Tensor.smul (discount r exp_ (Fin dt))
             (where_ (Tensor.vgt cf cvt) cf v_next) in
  Ok (<[t := v]> value, continuation_value).

Fixpoint backward (S cashflow : gmap Z vec) (ts : list Z)
         (st : gmap Z vec * gmap Z vec)
  : result (gmap Z vec * gmap Z vec) :=
  match ts with
  | [] => Ok st
  | t :: ts' =>
      st' ← backward_step S cashflow st t;
      backward S cashflow ts' st'
  end.

Definition valuation (S : gmap Z vec) : result tables :=
  cashflow ← comprehension (cashflow_at K S) t_span ∅;
  cf_T ← getitem cashflow key_T;
  let value : gmap Z vec :=
    {[ key_T := map (fun a => a * discount r exp_ (Fin dt)) cf_T ]} in
  z ← Tensor.zeros n;
  let continuation_value : gmap Z vec := {[ key_T := z ]} in
  '(value, continuation_value) ←
    backward S cashflow (tail (rev t_span))
             (value, continuation_value);
  payoff ← Labelled.comprehension_items
             (payoff_at n cashflow continuation_value) t_span [];
  candidates ← Tensor.stack1 (Labelled.values payoff);
  let payoff := first_one candidates in
  price ← price_of r n m exp_ (Fin dt) payoff;
  Ok {| tab_S := S; tab_cashflow := cashflow; tab_value := value;
        tab_continuation_value := continuation_value;
        tab_discount := discount r exp_ (Fin dt); tab_dt := Fin dt;
        tab_candidates := candidates; tab_payoff := payoff;
        tab_price := price |}.

Definition main_cell : M tables :=
  one_n ← lift (Tensor.ones n);
  let S0 : gmap Z vec := {[ 0%Z := Tensor.smul Spot one_n ]} in
  S ← simulate t_span S0;
  lift (valuation S).

End Run.

Definition notebook : M tables :=
  dt ← lift time_step;
  main_cell dt.

End Main.

(** The time step in millionths, when it is a whole number of them. *)
Definition step (T : positive) (m : Z) : Z := (Z.pos T * 1000000 / m)%Z.

(** The labels fit the dates: the time step is a whole number [d] of
    millionths, the labels of [t_span] are [d, 2 d, ..., m d], and the
    label computed for the date before, or after, each of them is the
    label of that date.  All of it is evaluated in binary64. *)
Definition labels_fit (T : positive) (m : Z) : bool :=
  let d := step T m in
  let dt := fl (inject_Z (Z.pos T) / inject_Z m) in
  (1 <=? m)%Z && (Z.pos T * 1000000 =? m * d)%Z
  && (Z.pos T * 1000000 <? 2 ^ 50)%Z
  && bool_decide (t_span T dt = map (label d) (range 1 (m + 1)))
  && forallb (fun t => (round6 (fl (time_of (label d t) - dt))
                        =? label d (t - 1))%Z)
             (range 1 (m + 1))
  && forallb (fun t => (round6 (fl (time_of (label d t) + dt))
                        =? label d (t + 1))%Z)
             (range 1 m).

End Float64.



(** The market of [strike_run] at the strike 33 with the polynomial
    order 1. *)
Definition order_one_run : result tables * nat :=
  notebook (Fin 32) (Fin 1) (Fin 33) (Fin 0) 2 1 2 2
           Reference.exp Reference.sqrt Reference.solve
           (fun i => Fin (strike_draws i)) 0%nat.

(** The market of [strike_run] with an infinite strike. *)
Definition infinite_strike_run : result tables * nat :=
  notebook (Fin 32) (Fin 1) PInf (Fin 0) 2 2 2 2
           Reference.exp Reference.sqrt Reference.solve
           (fun i => Fin (strike_draws i)) 0%nat.

(** The market of [strike_run] in the cell with binary64 labels, with
    the maturity [T], [m] dates and the polynomial order [order]. *)
Definition float64_run (T : positive) (order m : Z) : result tables * nat :=
  Float64.notebook (Fin 32) (Fin 1) (Fin 33) (Fin 0) T order 2 m
    Reference.exp Reference.sqrt Reference.solve
    (fun i => Fin (strike_draws i)) 0%nat.

(** ** Notions of the regression, for the statements *)

Section Regression.

Local Open Scope num_scope.

(** [x] is [a * St + b] with [a = 2 / (hi - lo)] and
    [b = (-0.5 * a) * (lo + hi)], entry by entry. *)
Definition scaled (lo hi : num) (St x : vec) : Prop :=
  length x = length St /\
  forall p, (p < length St)%nat ->
    nth p x Num.zero =
    (Fin 2 / (hi - lo)) * nth p St Num.zero
    + (Fin (- (1 # 2)) * (Fin 2 / (hi - lo))) * (lo + hi).

(** [X] has a row for each entry of [x] and the [k] columns
    [T_0(x) = 1], [T_1(x) = x] and [T_j(x) = 2 x T_(j-1)(x) - T_(j-2)(x)]. *)
Definition chebyshev_matrix (k : nat) (x : vec) (X : matrix) : Prop :=
  length X = length x /\
  Forall (fun row => length row = k) X /\
  forall p, (p < length x)%nat ->
    Tensor.entry X p 0 = Num.one /\
    Tensor.entry X p 1 = nth p x Num.zero /\
    forall j, (2 <= j < k)%nat ->
      Tensor.entry X p j =
      (Fin 2 * nth p x Num.zero) * Tensor.entry X p (j - 1)
      - Tensor.entry X p (j - 2).

(** [y] is a ridge fit of [Y] on the design matrix [X] with the
    penalty [lambda]: [y = X β] for a [β] that solves the normal
    equations [(XᵗX + λ I) β = Xᵗ Y], [I] the identity with as many
    rows as [X] has columns. *)
Definition ridge_fit (lambda : num) (X : matrix) (Y y : vec) : Prop :=
  exists β XtX XtY A Aβ Xβ,
    Tensor.matmul (Tensor.transpose X) (Tensor.as_column Y) = Ok XtY /\
    Tensor.matmul (Tensor.transpose X) X = Ok XtX /\
    length A = Tensor.width X /\
    (forall i j, (i < Tensor.width X)%nat -> (j < Tensor.width X)%nat ->
       Tensor.entry A i j =
       Tensor.entry XtX i j + lambda * Num.of_bool (Nat.eqb i j)) /\
    Tensor.matmul A β = Ok Aβ /\ mat_eq Aβ XtY /\
    Tensor.matmul X β = Ok Xβ /\ y = Tensor.squeeze Xβ.

End Regression.
(** * Properties *)

(** ** Entries *)

Module NumFacts.

Local Open Scope num_scope.

Lemma num_eq_refl (a : num) : a == a.
Proof. destruct a; simpl; auto with qarith. Qed.

Lemma num_eq_sym (a b : num) : a == b -> b == a.
Proof. destruct a, b; simpl; auto with qarith. Qed.

Lemma num_eq_trans (a b c : num) : a == b -> b == c -> a == c.
Proof.
  destruct a, b, c; simpl; try tauto.
  intros H1 H2. now rewrite H1.
Qed.

#[global] Instance num_eq_equivalence : Equivalence Num.eq.
Proof.
  split; [exact num_eq_refl | exact num_eq_sym | exact num_eq_trans].
Qed.

Lemma num_eqb_eq (a b : num) : Num.eqb a b = true <-> a == b.
Proof.
  destruct a, b; simpl; try tauto; try (split; [discriminate | tauto]).
  apply Qeq_bool_iff.
Qed.

Lemma inf_times_proper pos (p q : Q) :
  (p == q)%Q -> Num.inf_times pos p = Num.inf_times pos q.
Proof. intros H. unfold Num.inf_times. now rewrite H. Qed.

#[global] Instance num_add_proper :
  Proper (Num.eq ==> Num.eq ==> Num.eq) Num.add.
Proof.
  intros a a' Ha b b' Hb.
  destruct a, a', b, b'; simpl in *; try tauto.
  now rewrite Ha, Hb.
Qed.

#[global] Instance num_sub_proper :
  Proper (Num.eq ==> Num.eq ==> Num.eq) Num.sub.
Proof.
  intros a a' Ha b b' Hb.
  destruct a, a', b, b'; simpl in *; try tauto.
  now rewrite Ha, Hb.
Qed.

#[global] Instance num_mul_proper :
  Proper (Num.eq ==> Num.eq ==> Num.eq) Num.mul.
Proof.
  intros a a' Ha b b' Hb.
  destruct a, a', b, b'; simpl in *; try tauto;
    try (now rewrite Ha, Hb);
    try (rewrite (inf_times_proper _ _ _ Ha); apply num_eq_refl);
    try (rewrite (inf_times_proper _ _ _ Hb); apply num_eq_refl).
Qed.

#[global] Instance num_div_proper :
  Proper (Num.eq ==> Num.eq ==> Num.eq) Num.div.
Proof.
  intros a a' Ha b b' Hb.
  destruct a, a', b, b'; simpl in *; try tauto;
    try (rewrite Hb; destruct (q0 ?= 0)%Q; simpl; tauto);
    try reflexivity.
  rewrite Ha, Hb.
  destruct (q2 ?= 0)%Q; simpl; try (now rewrite Ha, Hb).
  destruct (q0 ?= 0)%Q; simpl; tauto.
Qed.

#[global] Instance num_gtb_proper :
  Proper (Num.eq ==> Num.eq ==> Logic.eq) Num.gtb.
Proof.
  intros a a' Ha b b' Hb.
  destruct a, a', b, b'; simpl in *; try tauto.
  now rewrite Ha, Hb.
Qed.

Lemma num_add_comm (a b : num) : a + b == b + a.
Proof. destruct a, b; simpl; auto. apply Qplus_comm. Qed.

Lemma num_add_assoc (a b c : num) : a + (b + c) == (a + b) + c.
Proof. destruct a, b, c; simpl; auto. apply Qplus_assoc. Qed.

Lemma num_add_zero_l (a : num) : Num.zero + a == a.
Proof. destruct a; simpl; auto. apply Qplus_0_l. Qed.

Lemma num_add_zero_r (a : num) : a + Num.zero == a.
Proof. destruct a; simpl; auto. apply Qplus_0_r. Qed.

(** The order on rationals behind [>?]. *)
Lemma gtb_fin (p q : Q) : (Fin p >? Fin q) = true <-> (q < p)%Q.
Proof.
  simpl. change (q < p)%Q with (p > q)%Q. rewrite Qgt_alt.
  destruct (p ?= q)%Q; split; intros H; try discriminate; auto.
Qed.

Lemma gtb_fin_false (p q : Q) : (Fin p >? Fin q) = false <-> (p <= q)%Q.
Proof.
  rewrite <- not_true_iff_false, gtb_fin. split.
  - apply Qnot_lt_le.
  - apply Qle_not_lt.
Qed.

Lemma mask_mul_true (q : Q) : Fin q * Num.of_bool true == Fin q.
Proof. simpl. apply Qmult_1_r. Qed.

Lemma mask_mul_false (q : Q) : Fin q * Num.of_bool false == Num.zero.
Proof. simpl. apply Qmult_0_r. Qed.

End NumFacts.

(** ** Scaling *)

Local Open Scope Q_scope.

Lemma Qcompare_self (q : Q) : (q ?= q) = Eq.
Proof. apply Qeq_alt. reflexivity. Qed.

Lemma Qcompare_minus_self (q : Q) : (q - q ?= 0) = Eq.
Proof. apply Qeq_alt. ring. Qed.

Lemma Qcompare_double (q : Q) : (q + q ?= 0) = (q ?= 0).
Proof. destruct q as [[|n|n] d]; reflexivity. Qed.

Lemma min_self (c : num) : Num.min c c = c.
Proof. destruct c; simpl; auto. now rewrite Qcompare_self. Qed.

Lemma max_self (c : num) : Num.max c c = c.
Proof. destruct c; simpl; auto. now rewrite Qcompare_self. Qed.

Lemma fold_min_repeat (c : num) k : fold_left Num.min (repeat c k) c = c.
Proof. induction k; simpl; auto. now rewrite min_self. Qed.

Lemma fold_max_repeat (c : num) k : fold_left Num.max (repeat c k) c = c.
Proof. induction k; simpl; auto. now rewrite max_self. Qed.

Lemma scale_entry_constant (c : num) :
  (Fin 2 / (c - c) * c + Fin (- (1 # 2)) * (Fin 2 / (c - c)) * (c + c))%num = NaN.
Proof.
  destruct c as [q| | |]; simpl; auto.
  rewrite Qcompare_minus_self. simpl.
  unfold Num.inf_times. rewrite Qcompare_double.
  destruct (q ?= 0); reflexivity.
Qed.

(** Claim C5, as amended.  On a non-empty vector whose entries are all
    equal, [scale] detects nothing: it returns, without an error, a
    vector of the same length whose entries are all NaN. *)
Theorem scale_constant_is_silent (c : num) (k : nat) :
  scale (repeat c (S k)) = Ok (repeat NaN (S k)).
Proof.
  unfold scale.
  change (Tensor.vmin (repeat c (S k))) with (Ok (fold_left Num.min (repeat c k) c)).
  change (Tensor.vmax (repeat c (S k))) with (Ok (fold_left Num.max (repeat c k) c)).
  rewrite fold_min_repeat, fold_max_repeat.
  unfold mbind, result_bind. f_equal.
  unfold Tensor.sadd, Tensor.smul. rewrite map_map.
  rewrite map_repeat. f_equal. apply scale_entry_constant.
Qed.

Lemma min_fin (a b : Q) : Num.min (Fin a) (Fin b) = Fin (qmin a b).
Proof. unfold Num.min, qmin. simpl. now destruct (a ?= b). Qed.

Lemma max_fin (a b : Q) : Num.max (Fin a) (Fin b) = Fin (qmax a b).
Proof. unfold Num.max, qmax. simpl. now destruct (b ?= a). Qed.

Lemma qmin_spec (a b : Q) : (qmin a b = a /\ a <= b) \/ (qmin a b = b /\ b <= a).
Proof.
  unfold qmin. destruct (a ?= b) eqn:E.
  - left. split; auto. apply Qeq_alt in E. rewrite E. apply Qle_refl.
  - left. split; auto. apply Qlt_alt in E. now apply Qlt_le_weak.
  - right. split; auto. apply Qgt_alt in E. now apply Qlt_le_weak.
Qed.

Lemma qmax_spec (a b : Q) : (qmax a b = a /\ b <= a) \/ (qmax a b = b /\ a <= b).
Proof.
  unfold qmax. destruct (b ?= a) eqn:E.
  - left. split; auto. apply Qeq_alt in E. rewrite E. apply Qle_refl.
  - left. split; auto. apply Qlt_alt in E. now apply Qlt_le_weak.
  - right. split; auto. apply Qgt_alt in E. now apply Qlt_le_weak.
Qed.

Lemma fold_min_fin (x : list Q) (a : Q) :
  exists lo, fold_left Num.min (map Fin x) (Fin a) = Fin lo /\
             In lo (a :: x) /\ forall q, In q (a :: x) -> lo <= q.
Proof.
  revert a. induction x as [|b x IH]; intros a; cbn [map fold_left].
  - exists a. split; [reflexivity|]. split; [now left|].
    intros q [<-|[]]. apply Qle_refl.
  - rewrite min_fin. destruct (IH (qmin a b)) as (lo & E & Hin & Hle).
    exists lo. split; [exact E|].
    destruct (qmin_spec a b) as [[Em Hab]|[Em Hab]]; rewrite Em in *.
    + split.
      * destruct Hin as [<-|Hin]; [now left | right; now right].
      * intros q [<-|[<-|Hq]].
        -- apply Hle. now left.
        -- apply Qle_trans with a; [apply Hle; now left | exact Hab].
        -- apply Hle. now right.
    + split.
      * destruct Hin as [<-|Hin]; [right; now left | right; now right].
      * intros q [<-|[<-|Hq]].
        -- apply Qle_trans with b; [apply Hle; now left | exact Hab].
        -- apply Hle. now left.
        -- apply Hle. now right.
Qed.

Lemma fold_max_fin (x : list Q) (a : Q) :
  exists hi, fold_left Num.max (map Fin x) (Fin a) = Fin hi /\
             In hi (a :: x) /\ forall q, In q (a :: x) -> q <= hi.
Proof.
  revert a. induction x as [|b x IH]; intros a; cbn [map fold_left].
  - exists a. split; [reflexivity|]. split; [now left|].
    intros q [<-|[]]. apply Qle_refl.
  - rewrite max_fin. destruct (IH (qmax a b)) as (hi & E & Hin & Hle).
    exists hi. split; [exact E|].
    destruct (qmax_spec a b) as [[Em Hab]|[Em Hab]]; rewrite Em in *.
    + split.
      * destruct Hin as [<-|Hin]; [now left | right; now right].
      * intros q [<-|[<-|Hq]].
        -- apply Hle. now left.
        -- apply Qle_trans with a; [exact Hab | apply Hle; now left].
        -- apply Hle. now right.
    + split.
      * destruct Hin as [<-|Hin]; [right; now left | right; now right].
      * intros q [<-|[<-|Hq]].
        -- apply Qle_trans with b; [exact Hab | apply Hle; now left].
        -- apply Hle. now left.
        -- apply Hle. now right.
Qed.

Lemma vmin_fin (x : list Q) (v : num) :
  Tensor.vmin (map Fin x) = Ok v ->
  exists lo, v = Fin lo /\ In lo x /\ forall q, In q x -> lo <= q.
Proof.
  destruct x as [|a x]; cbn [map Tensor.vmin]; [discriminate|].
  intros [= <-]. apply fold_min_fin.
Qed.

Lemma vmax_fin (x : list Q) (v : num) :
  Tensor.vmax (map Fin x) = Ok v ->
  exists hi, v = Fin hi /\ In hi x /\ forall q, In q x -> q <= hi.
Proof.
  destruct x as [|a x]; cbn [map Tensor.vmax]; [discriminate|].
  intros [= <-]. apply fold_max_fin.
Qed.

Lemma vmin_fin_total (x : list Q) :
  x <> [] -> exists lo, Tensor.vmin (map Fin x) = Ok (Fin lo).
Proof.
  destruct x as [|a x]; [congruence|]. intros _.
  destruct (fold_min_fin x a) as (lo & E & _). exists lo.
  cbn [map Tensor.vmin]. now rewrite E.
Qed.

Lemma vmax_fin_total (x : list Q) :
  x <> [] -> exists hi, Tensor.vmax (map Fin x) = Ok (Fin hi).
Proof.
  destruct x as [|a x]; [congruence|]. intros _.
  destruct (fold_max_fin x a) as (hi & E & _). exists hi.
  cbn [map Tensor.vmax]. now rewrite E.
Qed.

Lemma scale_slope_pos lo hi : lo < hi -> 0 < scale_slope lo hi.
Proof.
  intros H. unfold scale_slope. apply Qlt_shift_div_l; lra.
Qed.

Lemma scale_at_min lo hi : lo < hi -> scale_slope lo hi * lo + scale_shift lo hi == -1.
Proof.
  intros H. unfold scale_shift, scale_slope. field. lra.
Qed.

Lemma scale_at_max lo hi : lo < hi -> scale_slope lo hi * hi + scale_shift lo hi == 1.
Proof.
  intros H. unfold scale_shift, scale_slope. field. lra.
Qed.

Lemma scale_fin (x : list Q) (lo hi : Q) :
  Tensor.vmin (map Fin x) = Ok (Fin lo) ->
  Tensor.vmax (map Fin x) = Ok (Fin hi) ->
  lo < hi ->
  scale (map Fin x) =
    Ok (map (fun q => Fin (scale_slope lo hi * q + scale_shift lo hi)) x).
Proof.
  intros Hmin Hmax Hlt. unfold scale. rewrite Hmin, Hmax.
  unfold mbind, result_bind. f_equal.
  assert (E : (hi - lo ?= 0) = Gt) by (apply Qgt_alt; lra).
  cbn [Num.sub Num.div Num.add Num.mul]. rewrite E.
  unfold Tensor.sadd, Tensor.smul. rewrite !map_map.
  apply map_ext. intros q. reflexivity.
Qed.

(** In exact arithmetic.  For a vector of finite entries whose
    maximum [hi] is strictly greater than its minimum [lo], [scale] is
    the affine map [q -> a * q + b] with [a = 2 / (hi - lo)] and
    [b = -0.5 * a * (lo + hi)]; without rounding it sends [lo] to -1
    and [hi] to 1, and the minimum and the maximum of the scaled vector
    are -1 and 1. *)
Lemma scale_affine_range (x : list Q) (lo hi : Q) :
  Tensor.vmin (map Fin x) = Ok (Fin lo) ->
  Tensor.vmax (map Fin x) = Ok (Fin hi) ->
  lo < hi ->
  let a := 2 / (hi - lo) in
  let b := (- (1 # 2) * a) * (lo + hi) in
  let y := map (fun q => a * q + b) x in
  scale (map Fin x) = Ok (map Fin y) /\
  a * lo + b == -1 /\ a * hi + b == 1 /\
  (exists v, Tensor.vmin (map Fin y) = Ok (Fin v) /\ v == -1) /\
  (exists w, Tensor.vmax (map Fin y) = Ok (Fin w) /\ w == 1).
Proof.
  intros Hmin Hmax Hlt a b y.
  pose proof (scale_slope_pos lo hi Hlt) as Ha.
  pose proof (scale_at_min lo hi Hlt) as Hlo.
  pose proof (scale_at_max lo hi Hlt) as Hhi.
  change (2 / (hi - lo)) with (scale_slope lo hi) in a.
  change (- (1 # 2) * a * (lo + hi)) with (scale_shift lo hi) in b.
  fold a in Ha, Hlo, Hhi. fold b in Hlo, Hhi.
  destruct (vmin_fin x _ Hmin) as (lo' & [= <-] & Hlo_in & Hlo_le).
  destruct (vmax_fin x _ Hmax) as (hi' & [= <-] & Hhi_in & Hhi_le).
  assert (Hy : x <> []) by (intros ->; destruct Hlo_in).
  assert (Hy' : y <> []) by (subst y; destruct x; [congruence | discriminate]).
  split; [|split; [exact Hlo | split; [exact Hhi | split]]].
  - subst y. rewrite map_map. now apply scale_fin.
  - destruct (vmin_fin_total y Hy') as (v & Ev). exists v. split; [exact Ev|].
    destruct (vmin_fin y _ Ev) as (v' & [= <-] & Hv_in & Hv_le).
    apply Qle_antisym.
    + rewrite <- Hlo. apply Hv_le. subst y. apply in_map_iff. now exists lo.
    + subst y. apply in_map_iff in Hv_in as (q & <- & Hq).
      rewrite <- Hlo. specialize (Hlo_le q Hq). nra.
  - destruct (vmax_fin_total y Hy') as (w & Ew). exists w. split; [exact Ew|].
    destruct (vmax_fin y _ Ew) as (w' & [= <-] & Hw_in & Hw_le).
    apply Qle_antisym.
    + subst y. apply in_map_iff in Hw_in as (q & <- & Hq).
      rewrite <- Hhi. specialize (Hhi_le q Hq). nra.
    + rewrite <- Hhi. apply Hw_le. subst y. apply in_map_iff. now exists hi.
Qed.

(** ** The Chebyshev basis *)

Lemma map_seq_nth {A B} (f : A -> B) (d : A) (x : list A) :
  map (fun i => f (nth i x d)) (seq 0 (length x)) = map f x.
Proof.
  induction x as [|a x IH]; simpl; auto.
  f_equal. rewrite <- seq_shift, map_map. exact IH.
Qed.

Lemma nth_ones_like (x : vec) (i : nat) :
  (i < length x)%nat -> nth i (Tensor.ones_like x) Num.zero = Num.one.
Proof.
  revert i. induction x as [|a x IH]; intros [|i] H; simpl in *; try lia; auto.
  apply IH. lia.
Qed.

(** Up to [k = 2] the loop of [chebyshev_basis] does not run: the
    basis has the two columns 1 and [x]. *)
Lemma chebyshev_basis_low_degree (x : vec) (k : Z) :
  (k <= 2)%Z -> chebyshev_basis x k = Ok (map (fun a => [Num.one; a]) x).
Proof.
  intros Hk.
  assert (Hlen : length (Tensor.ones_like x) = length x) by apply length_map.
  unfold chebyshev_basis, chebyshev_columns.
  replace (range 2 k) with (@nil Z)
    by (unfold range; now replace (Z.to_nat (k - 2)) with 0%nat by lia).
  cbn [fold_left].
  unfold Tensor.stack1, Tensor.same_length. cbn [forallb].
  rewrite Hlen, Nat.eqb_refl. cbn [andb]. f_equal.
  rewrite <- (map_seq_nth (fun a => [Num.one; a]) Num.zero x).
  apply map_ext_in. intros i Hi. apply in_seq in Hi. cbn [map]. f_equal.
  apply nth_ones_like. lia.
Qed.

(** ** The payoff selector *)

Lemma width_map (f : vec -> vec) (X : matrix) :
  (forall r, length (f r) = length r) ->
  Tensor.width (map f X) = Tensor.width X.
Proof. intros H. destruct X; simpl; auto. Qed.

Lemma first_one_rows (X : matrix) :
  first_one X = map (first_one_row (Tensor.width X)) X.
Proof.
  unfold first_one.
  rewrite (width_map _ X) by (intros r; apply length_map).
  generalize (Tensor.width X). intros w.
  rewrite length_map.
  induction X as [|row X IH]; [reflexivity|].
  cbn [map length repeat zip_with]. rewrite IH. reflexivity.
Qed.

Lemma cumprod_from_mask (b : bool) (bs : list bool) :
  Tensor.cumprod_from (Num.of_bool b)
    (Tensor.ssub Num.one (Tensor.mask bs)) = Tensor.mask (alive b bs).
Proof.
  revert b. induction bs as [|c bs IH]; intros b; [reflexivity|].
  cbn [Tensor.mask Tensor.ssub map Tensor.cumprod_from alive].
  replace (Num.of_bool b * (Num.one - Num.of_bool c))%num
    with (Num.of_bool (b && negb c)) by (now destruct b, c).
  f_equal. apply IH.
Qed.

Lemma cumprod_mask (bs : list bool) :
  Tensor.cumprod (Tensor.ssub Num.one (Tensor.mask bs)) =
  Tensor.mask (alive true bs).
Proof.
  destruct bs as [|c bs]; [reflexivity|].
  cbn [Tensor.mask Tensor.ssub map Tensor.cumprod alive].
  replace (Num.one - Num.of_bool c)%num
    with (Num.of_bool (true && negb c)) by (now destruct c).
  f_equal. apply cumprod_from_mask.
Qed.

Lemma clamp_max_mask (bs : list bool) :
  Tensor.clamp_max Num.one (Tensor.mask bs) = Tensor.mask bs.
Proof.
  induction bs as [|c bs IH]; [reflexivity|].
  cbn [Tensor.mask Tensor.clamp_max map]. f_equal; [now destruct c | apply IH].
Qed.

Lemma length_alive b bs : length (alive b bs) = length bs.
Proof. revert b; induction bs; intros; simpl; auto. Qed.

Lemma length_selected b bs : length (selected b bs) = length bs.
Proof. revert b; induction bs; intros; simpl; auto. Qed.

Lemma vmul_lag_mask (b : bool) (bs : list bool) :
  Tensor.vmul (Num.of_bool b :: Tensor.mask (alive b bs)) (Tensor.mask bs) =
  Tensor.mask (selected b bs).
Proof.
  revert b. induction bs as [|c bs IH]; intros b; [reflexivity|].
  cbn [alive Tensor.mask map selected]. unfold Tensor.vmul in *.
  cbn [zip_with]. f_equal; [now destruct b, c|]. apply IH.
Qed.

Lemma zip_with_take_l {A B C} (f : A -> B -> C) (l : list A) (k : list B) :
  zip_with f (take (length k) l) k = zip_with f l k.
Proof.
  revert l. induction k as [|b k IH]; intros [|a l]; simpl; auto.
  f_equal. apply IH.
Qed.

Lemma first_one_row_mask (row : vec) :
  first_one_row (length row) row =
  Tensor.vmul row (Tensor.mask (selected true (map (fun a => a >? Num.zero)%num row))).
Proof.
  unfold first_one_row. f_equal.
  set (bs := map (fun a => (a >? Num.zero)%num) row).
  assert (E : positive_mask row = Tensor.mask bs).
  { unfold positive_mask, Tensor.mask, bs. now rewrite map_map. }
  rewrite E, cumprod_mask, clamp_max_mask.
  assert (Hlen : length row = length (Tensor.mask bs)).
  { unfold Tensor.mask, bs. now rewrite !length_map. }
  rewrite <- vmul_lag_mask. unfold Tensor.vmul.
  destruct (Tensor.mask bs) as [|u us] eqn:Eu.
  - now rewrite !zip_with_nil_r.
  - rewrite Hlen. cbn [length app zip_with]. f_equal.
    replace (S (length us) - 1)%nat with (length us) by lia.
    apply zip_with_take_l.
Qed.

(** What [selected] selects. *)
Lemma selected_spec (b : bool) (bs : list bool) (j : nat) :
  nth j (selected b bs) false = true <->
  b = true /\ nth j bs false = true /\
  forall j', (j' < j)%nat -> nth j' bs false = false.
Proof.
  revert b j. induction bs as [|c bs IH]; intros b j.
  - destruct j; simpl; split; try discriminate; intros (_ & H & _); discriminate.
  - destruct j as [|j]; cbn [selected nth].
    + rewrite andb_true_iff. split.
      * intros [-> ->]. repeat split; auto. intros j' Hj'. lia.
      * intros (-> & -> & _). auto.
    + rewrite IH, andb_true_iff, negb_true_iff. split.
      * intros ((-> & Hc) & Hj & Hbefore). repeat split; auto.
        intros [|j'] Hj'; cbn [nth]; [exact Hc | apply Hbefore; lia].
      * intros (-> & Hj & Hbefore). repeat split; auto.
        -- apply (Hbefore 0%nat). lia.
        -- intros j' Hj'. apply (Hbefore (S j')). lia.
Qed.

Lemma first_positive_spec (row : list Q) (j : nat) :
  first_positive row j = true <->
  0 < nth j row 0 /\ forall j', (j' < j)%nat -> nth j' row 0 <= 0.
Proof.
  unfold first_positive. rewrite selected_spec.
  assert (G : forall k, nth k (map (fun q => (Fin q >? Num.zero)%num) row) false
                        = (Fin (nth k row 0) >? Num.zero)%num).
  { intros k. change false with ((fun q => (Fin q >? Num.zero)%num) 0).
    apply map_nth. }
  rewrite G. unfold Num.zero. rewrite NumFacts.gtb_fin. split.
  - intros (_ & Hj & Hb). split; auto. intros j' Hj'.
    apply NumFacts.gtb_fin_false. rewrite <- G. now apply Hb.
  - intros (Hj & Hb). repeat split; auto. intros j' Hj'.
    rewrite G. apply NumFacts.gtb_fin_false. now apply Hb.
Qed.

Lemma nth_vmul_fin_mask (row : list Q) (bs : list bool) (j : nat) :
  length bs = length row ->
  (nth j (Tensor.vmul (map Fin row) (Tensor.mask bs)) Num.zero ==
   Fin (nth j row 0) * Num.of_bool (nth j bs false))%num.
Proof.
  revert bs j. induction row as [|q row IH]; intros [|c bs] j H; try discriminate.
  - destruct j; simpl; reflexivity.
  - destruct j as [|j]; cbn.
    + reflexivity.
    + apply IH. simpl in H. lia.
Qed.

Lemma first_one_rectangular (X : matrix) (K : nat) :
  Forall (fun row => length row = K) X ->
  first_one X =
  map (fun row => Tensor.vmul row
         (Tensor.mask (selected true (map (fun a => a >? Num.zero)%num row)))) X.
Proof.
  intros HX. rewrite first_one_rows. apply map_ext_in. intros row Hrow.
  rewrite <- first_one_row_mask. f_equal.
  rewrite List.Forall_forall in HX. rewrite (HX row Hrow).
  destruct X as [|r0 X']; [destruct Hrow|]. apply HX. now left.
Qed.

Lemma first_one_entry (x : list (list Q)) (K : nat) (i j : nat) :
  Forall (fun row => length row = K) x ->
  (Tensor.entry (first_one (map (map Fin) x)) i j ==
   Fin (qentry x i j) * Num.of_bool (first_positive (nth i x []) j))%num.
Proof.
  intros Hx. rewrite (first_one_rectangular _ K).
  2:{ rewrite List.Forall_forall in *. intros row Hrow.
      apply in_map_iff in Hrow as (q & <- & Hq). rewrite length_map. auto. }
  unfold Tensor.entry, qentry, first_positive.
  set (f := fun row : vec => Tensor.vmul row _).
  change (@nil num) with (f (map Fin (@nil Q))).
  rewrite !map_nth. subst f. cbv beta. rewrite map_map.
  apply nth_vmul_fin_mask. now rewrite length_selected, length_map.
Qed.

(** Claim C1, as amended.  For every payoff matrix of [K] columns with finite
    entries, [first_one] returns a matrix of the same shape in which
    the entry of row [i] and column [j] is the input entry when that
    entry is strictly positive and no earlier entry of the row is, and
    zero otherwise.  Hence a row of the result has at most one non-zero
    entry, and a row without strictly positive entry gives a zero
    row. *)
Theorem first_one_selects_first_positive (x : list (list Q)) (K : nat) :
  Forall (fun row => length row = K) x ->
  let y := first_one (map (map Fin) x) in
  length y = length x /\
  Forall (fun row => length row = K) y /\
  (forall i j, (i < length x)%nat -> (j < K)%nat ->
     (0 < qentry x i j /\ (forall j', (j' < j)%nat -> qentry x i j' <= 0) ->
      (Tensor.entry y i j == Fin (qentry x i j))%num) /\
     (~ (0 < qentry x i j /\ (forall j', (j' < j)%nat -> qentry x i j' <= 0)) ->
      (Tensor.entry y i j == Num.zero)%num)) /\
  (forall i j1 j2,
     ~ (Tensor.entry y i j1 == Num.zero)%num ->
     ~ (Tensor.entry y i j2 == Num.zero)%num -> j1 = j2) /\
  (forall i, (forall j, qentry x i j <= 0) ->
             forall j, (Tensor.entry y i j == Num.zero)%num).
Proof.
  intros Hx y.
  assert (Hsel : forall i j, first_positive (nth i x []) j = true ->
                   (Tensor.entry y i j == Fin (qentry x i j))%num).
  { intros i j E. subst y. rewrite (first_one_entry x K i j Hx), E.
    apply NumFacts.mask_mul_true. }
  assert (Hnot : forall i j, first_positive (nth i x []) j = false ->
                   (Tensor.entry y i j == Num.zero)%num).
  { intros i j E. subst y. rewrite (first_one_entry x K i j Hx), E.
    apply NumFacts.mask_mul_false. }
  assert (Hnz : forall i j, ~ (Tensor.entry y i j == Num.zero)%num ->
                  first_positive (nth i x []) j = true).
  { intros i j H. destruct (first_positive (nth i x []) j) eqn:E; [reflexivity|].
    exfalso. apply H. now apply Hnot. }
  split; [|split; [|split; [|split]]].
  - subst y. rewrite first_one_rows. now rewrite !length_map.
  - subst y. rewrite (first_one_rectangular _ K).
    + rewrite List.Forall_forall in *. intros row Hrow.
      apply in_map_iff in Hrow as (r & <- & Hr).
      apply in_map_iff in Hr as (q & <- & Hq).
      unfold Tensor.vmul, Tensor.mask.
      rewrite length_zip_with, !length_map, length_selected, !length_map.
      rewrite (Hx q Hq). lia.
    + rewrite List.Forall_forall in *. intros row Hrow.
      apply in_map_iff in Hrow as (q & <- & Hq). rewrite length_map. auto.
  - intros i j Hi Hj. split.
    + intros H. apply Hsel. apply first_positive_spec. exact H.
    + intros H. apply Hnot.
      destruct (first_positive (nth i x []) j) eqn:E; auto.
      exfalso. apply H. now apply first_positive_spec.
  - intros i j1 j2 H1 H2.
    apply Hnz, first_positive_spec in H1 as (P1 & B1).
    apply Hnz, first_positive_spec in H2 as (P2 & B2).
    destruct (Nat.lt_trichotomy j1 j2) as [L|[E|L]]; auto; exfalso.
    + specialize (B2 j1 L). lra.
    + specialize (B1 j2 L). lra.
  - intros i Hall j. apply Hnot.
    destruct (first_positive (nth i x []) j) eqn:E; auto.
    apply first_positive_spec in E as (P & _).
    specialize (Hall j). unfold qentry in Hall. lra.
Qed.

(** ** Loops and dictionaries *)

Lemma range_nil (a b : Z) : (b <= a)%Z -> range a b = [].
Proof. intros H. unfold range. now replace (Z.to_nat (b - a)) with 0%nat by lia. Qed.

Lemma range_cons (a b : Z) : (a < b)%Z -> range a b = a :: range (a + 1) b.
Proof.
  intros H. unfold range.
  replace (Z.to_nat (b - a)) with (S (Z.to_nat (b - (a + 1)))) by lia.
  cbn [seq map]. f_equal; [lia|].
  rewrite <- seq_shift, map_map. apply map_ext. intros i. lia.
Qed.

Lemma range_snoc (a b : Z) : (a <= b)%Z -> range a (b + 1) = range a b ++ [b].
Proof.
  intros H. unfold range.
  replace (Z.to_nat (b + 1 - a)) with (S (Z.to_nat (b - a))) by lia.
  rewrite seq_S, map_app. cbn [map]. do 2 f_equal. lia.
Qed.

Lemma in_range (a b t : Z) : In t (range a b) <-> (a <= t < b)%Z.
Proof.
  unfold range. rewrite in_map_iff. split.
  - intros (i & <- & Hi). apply in_seq in Hi. lia.
  - intros H. exists (Z.to_nat (t - a)). split; [lia|]. apply in_seq. lia.
Qed.

Lemma length_range (a b : Z) : length (range a b) = Z.to_nat (b - a).
Proof. unfold range. now rewrite length_map, length_seq. Qed.

(** Inversion of a bind that returned. *)
Lemma bind_Ok {A B} (c : result A) (k : A -> result B) (b : B) :
  (c ≫= k) = Ok b -> exists a, c = Ok a /\ k a = Ok b.
Proof. destruct c as [a|e]; cbn; [eauto | discriminate]. Qed.

Lemma M_bind_Ok {A B} (c : M A) (k : A -> M B) (b : B) (s s' : nat) :
  (c ≫= k) s = (Ok b, s') ->
  exists a s1, c s = (Ok a, s1) /\ k a s1 = (Ok b, s').
Proof.
  unfold mbind, M_bind. destruct (c s) as [[a|e] s1]; [eauto | discriminate].
Qed.

Lemma getitem_Ok (d : gmap Z vec) (k : Z) (v : vec) :
  getitem d k = Ok v <-> d !! k = Some v.
Proof. unfold getitem. destruct (d !! k); split; congruence. Qed.

Lemma finite_add a b : finite a -> finite b -> finite (a + b)%num.
Proof. now destruct a, b. Qed.
Lemma finite_sub a b : finite a -> finite b -> finite (a - b)%num.
Proof. now destruct a, b. Qed.
Lemma finite_mul a b : finite a -> finite b -> finite (a * b)%num.
Proof. now destruct a, b. Qed.
Lemma finite_of_bool b : finite (Num.of_bool b).
Proof. now destruct b. Qed.
Lemma finite_max a b : finite a -> finite b -> finite (Num.max a b).
Proof. destruct a, b; try easy. intros _ _. unfold Num.max. now destruct (_ >? _)%num. Qed.
Lemma finite_inv a : finite a -> exists q, a = Fin q.
Proof. destruct a; try easy. eauto. Qed.

Lemma Forall_zip_with_same {A} (P : A -> Prop) (f : A -> A -> A) (x y : list A) :
  (forall a b, P a -> P b -> P (f a b)) ->
  Forall P x -> Forall P y -> Forall P (zip_with f x y).
Proof.
  intros Hf Hx. revert y. induction Hx as [|a x Ha Hx IH]; intros y Hy.
  - constructor.
  - destruct Hy as [|b y Hb Hy]; cbn; constructor; auto.
Qed.

Lemma Forall_map_same {A B} (P : A -> Prop) (Q : B -> Prop) (f : A -> B) (x : list A) :
  (forall a, P a -> Q (f a)) -> Forall P x -> Forall Q (map f x).
Proof. intros Hf Hx. induction Hx; cbn; constructor; auto. Qed.

Lemma length_vadd x y : length (Tensor.vadd x y) = min (length x) (length y).
Proof. apply length_zip_with. Qed.
Lemma length_vmul x y : length (Tensor.vmul x y) = min (length x) (length y).
Proof. apply length_zip_with. Qed.
Lemma length_vsub x y : length (Tensor.vsub x y) = min (length x) (length y).
Proof. apply length_zip_with. Qed.
Lemma length_vgt x y : length (Tensor.vgt x y) = min (length x) (length y).
Proof. apply length_zip_with. Qed.
Lemma length_smul s x : length (Tensor.smul s x) = length x.
Proof. apply length_map. Qed.
Lemma length_ssub s x : length (Tensor.ssub s x) = length x.
Proof. apply length_map. Qed.
Lemma length_mask c : length (Tensor.mask c) = length c.
Proof. apply length_map. Qed.

Lemma length_where_ c x y :
  length (where_ c x y) = min (length c) (min (length x) (length y)).
Proof.
  unfold where_. rewrite length_vadd, !length_vmul, length_ssub, length_mask. lia.
Qed.

Ltac vec_length :=
  repeat rewrite ?length_where_, ?length_vadd, ?length_vmul, ?length_vsub,
    ?length_vgt, ?length_smul, ?length_ssub, ?length_mask, ?length_map,
    ?length_seq, ?repeat_length.

Section Loops.

Variables (n : Z) (Δt r σ : num) (sqrt_ : num -> num) (draws : nat -> num).

Lemma advance_length (prev : vec) (s : nat) :
  (0 <= n)%Z -> length prev = Z.to_nat n ->
  exists v, advance n Δt r σ sqrt_ draws prev s = (Ok v, (s + Z.to_nat n)%nat)
            /\ length v = Z.to_nat n.
Proof.
  intros Hn Hlen. unfold advance, mbind, M_bind, randn.
  destruct (n <? 0)%Z eqn:E; [lia|]. eexists. split; [reflexivity|].
  vec_length. lia.
Qed.

Lemma advance_finite (prev : vec) (s : nat) :
  (0 <= n)%Z -> finite Δt -> finite r -> finite σ -> finite (sqrt_ Δt) ->
  (forall i, finite (draws i)) ->
  finite_vec (Z.to_nat n) prev ->
  exists v, advance n Δt r σ sqrt_ draws prev s = (Ok v, (s + Z.to_nat n)%nat)
            /\ finite_vec (Z.to_nat n) v.
Proof.
  intros Hn Hdt Hr Hs Hq Hd [Hlen Hfin]. unfold advance, mbind, M_bind, randn.
  destruct (n <? 0)%Z eqn:E; [lia|]. eexists. split; [reflexivity|]. split.
  - vec_length. lia.
  - repeat first
      [ apply Forall_zip_with_same; [intros; first [now apply finite_add | now apply finite_mul] | | ]
      | apply (Forall_map_same finite finite); [intros; now apply finite_mul | ]
      | exact Hfin ].
    apply Forall_forall. intros a Ha. apply list_elem_of_In, in_map_iff in Ha as (i & <- & _). apply Hd.
Qed.

(** The simulation loop over the dates [t0 + 1, ..., t0 + k] keeps any
    property of the vectors that one step keeps, and consumes [k * n]
    draws. *)
Lemma simulate_invariant (P : vec -> Prop) :
  (forall prev s, P prev ->
     exists v, advance n Δt r σ sqrt_ draws prev s = (Ok v, (s + Z.to_nat n)%nat)
               /\ P v) ->
  forall (k : nat) (t0 : Z) (Sd : gmap Z vec) (s : nat),
  (forall t v, Sd !! t = Some v -> P v) ->
  is_Some (Sd !! t0) ->
  exists Sd',
    simulate σ r n sqrt_ draws Δt (range (t0 + 1) (t0 + 1 + Z.of_nat k)) Sd s
      = (Ok Sd', (s + k * Z.to_nat n)%nat) /\
    (forall t v, Sd' !! t = Some v -> P v) /\
    (forall t, (t <= t0)%Z -> Sd' !! t = Sd !! t) /\
    (forall t, (t0 < t <= t0 + Z.of_nat k)%Z -> is_Some (Sd' !! t)).
Proof.
  intros Hstep. induction k as [|k IH]; intros t0 Sd s HP [v0 Hv0].
  - rewrite range_nil by lia. exists Sd. cbn. repeat split; auto; try lia.
  - rewrite range_cons by lia. cbn [simulate].
    replace (t0 + 1 - 1)%Z with t0 by lia.
    unfold mbind at 1, M_bind at 1, lift, getitem. rewrite Hv0.
    unfold mbind at 1, M_bind at 1.
    destruct (Hstep v0 s (HP _ _ Hv0)) as (v & Ev & Pv).
    rewrite Ev.
    destruct (IH (t0 + 1)%Z (<[(t0 + 1)%Z := v]> Sd) (s + Z.to_nat n)%nat)
      as (Sd' & ESd & HL & Hkeep & Hnew).
    + intros t u. rewrite lookup_insert. case_decide; [intros [= <-]; auto | eauto].
    + rewrite lookup_insert_eq. eauto.
    + exists Sd'.
      replace (t0 + 1 + Z.of_nat (Datatypes.S k))%Z
        with (t0 + 1 + 1 + Z.of_nat k)%Z by lia.
      rewrite ESd. repeat split; auto.
      * f_equal. lia.
      * intros t Ht. rewrite Hkeep by lia. apply lookup_insert_ne. lia.
      * intros t Ht. destruct (decide (t = t0 + 1)%Z) as [->|Hne].
        -- rewrite Hkeep by lia. rewrite lookup_insert_eq. eauto.
        -- apply Hnew. lia.
Qed.

End Loops.

(** Dictionary comprehensions. *)
Lemma comprehension_Ok (f : Z -> result vec) (ts : list Z) :
  forall (d d' : gmap Z vec),
  comprehension f ts d = Ok d' ->
  (forall t, In t ts -> exists v, f t = Ok v /\ d' !! t = Some v) /\
  (forall t, ~ In t ts -> d' !! t = d !! t).
Proof.
  induction ts as [|t ts IH]; intros d d' H.
  - injection H as <-. split; [intros t []|auto].
  - cbn [comprehension] in H. apply bind_Ok in H as (v & Ev & H).
    destruct (IH _ _ H) as [Hin Hout]. split.
    + intros u [<-|Hu]; [|now apply Hin].
      destruct (in_dec Z.eq_dec t ts) as [Ht|Ht]; [now apply Hin|].
      exists v. split; [exact Ev|]. rewrite Hout by exact Ht.
      apply lookup_insert_eq.
    + intros u Hu. rewrite Hout by (intros Hu'; apply Hu; now right).
      apply lookup_insert_ne. intros ->. apply Hu. now left.
Qed.

Lemma comprehension_total (f : Z -> result vec) (ts : list Z) :
  (forall t, In t ts -> exists v, f t = Ok v) ->
  forall d, exists d', comprehension f ts d = Ok d'.
Proof.
  induction ts as [|t ts IH]; intros Hf d.
  - eexists. reflexivity.
  - destruct (Hf t) as [v Ev]; [now left|]. cbn [comprehension]. rewrite Ev. cbn.
    apply IH. intros u Hu. apply Hf. now right.
Qed.

Lemma comprehension_values_Ok (f : Z -> result vec) (ts : list Z) (vs : list vec) :
  comprehension_values f ts = Ok vs ->
  length vs = length ts /\
  forall i t, nth_error ts i = Some t ->
    exists v, nth_error vs i = Some v /\ f t = Ok v.
Proof.
  revert vs. induction ts as [|t ts IH]; intros vs H.
  - injection H as <-. split; [reflexivity|]. intros [|i] u; discriminate.
  - cbn [comprehension_values] in H. apply bind_Ok in H as (v & Ev & H).
    apply bind_Ok in H as (vs' & Evs & H). injection H as <-.
    destruct (IH _ Evs) as [Hlen Hnth]. split; [cbn; lia|].
    intros [|i] u Hu; cbn in *.
    + injection Hu as <-. eauto.
    + now apply Hnth.
Qed.


Lemma rev_range_snoc (a : Z) (k : nat) :
  rev (range a (a + Z.of_nat (Datatypes.S k))) =
  (a + Z.of_nat k)%Z :: rev (range a (a + Z.of_nat k)).
Proof.
  replace (a + Z.of_nat (Datatypes.S k))%Z with (a + Z.of_nat k + 1)%Z by lia.
  rewrite range_snoc by lia. now rewrite rev_app_distr.
Qed.

Section Backward.

Variables (r : num) (order : Z) (exp_ : num -> num)
  (solve : matrix -> matrix -> result matrix) (Δt : num)
  (Sd cashflow : gmap Z vec).

Lemma backward_step_Ok (v0 c0 v1 c1 : gmap Z vec) (t : Z) :
  backward_step r order exp_ solve Δt Sd cashflow (v0, c0) t = Ok (v1, c1) ->
  exists St x basis v_next cv cf,
    Sd !! t = Some St /\
    scale St = Ok x /\
    chebyshev_basis x order = Ok basis /\
    v0 !! (t + 1)%Z = Some v_next /\
    ridge_regression order solve basis v_next (Fin 100) = Ok cv /\
    cashflow !! t = Some cf /\
    c1 = <[t := cv]> c0 /\
    v1 = <[t := Tensor.smul (discount r exp_ Δt)
                  (where_ (Tensor.vgt cf cv) cf v_next)]> v0.
Proof.
  unfold backward_step. intros H.
  apply bind_Ok in H as (St & E1 & H). apply getitem_Ok in E1.
  apply bind_Ok in H as (x & E2 & H).
  apply bind_Ok in H as (basis & E3 & H).
  apply bind_Ok in H as (v_next & E4 & H). apply getitem_Ok in E4.
  apply bind_Ok in H as (cv & E5 & H).
  apply bind_Ok in H as (cf & E6 & H). apply getitem_Ok in E6.
  apply bind_Ok in H as (cvt & E7 & H). apply getitem_Ok in E7.
  rewrite lookup_insert_eq in E7. injection E7 as <-.
  injection H as <- <-.
  exists St, x, basis, v_next, cv, cf. repeat split; auto.
Qed.

(** The backward loop over the dates [a + k - 1, ..., a]: every date it
    visits satisfies the recursion in the final tables, and the other
    keys are left as they were. *)
Lemma backward_Ok (a : Z) (k : nat) :
  forall (v0 c0 v c : gmap Z vec),
  backward r order exp_ solve Δt Sd cashflow
           (rev (range a (a + Z.of_nat k))) (v0, c0) = Ok (v, c) ->
  (forall u, ~ (a <= u < a + Z.of_nat k)%Z ->
             v !! u = v0 !! u /\ c !! u = c0 !! u) /\
  (forall t, (a <= t < a + Z.of_nat k)%Z ->
             recursion_at r order exp_ solve Δt Sd cashflow v c t).
Proof.
  induction k as [|k IH]; intros v0 c0 v c H.
  - rewrite range_nil in H by lia. injection H as <- <-.
    split; [auto | intros t Ht; lia].
  - rewrite rev_range_snoc in H. cbn [backward] in H.
    apply bind_Ok in H as ([v1 c1] & Estep & H).
    apply backward_step_Ok in Estep
      as (St & x & basis & v_next & cv & cf & E1 & E2 & E3 & E4 & E5 & E6 & -> & ->).
    destruct (IH _ _ _ _ H) as [Hout Hin]. split.
    + intros u Hu. destruct (Hout u) as [Hv Hc]; [lia|].
      rewrite Hv, Hc. split; apply lookup_insert_ne; lia.
    + intros t Ht. destruct (decide (t = a + Z.of_nat k)%Z) as [->|Hne].
      * destruct (Hout (a + Z.of_nat k)%Z) as [Hv Hc]; [lia|].
        destruct (Hout (a + Z.of_nat k + 1)%Z) as [Hv' _]; [lia|].
        exists St, x, basis, v_next, cv, cf. repeat split; auto.
        -- rewrite Hv'. rewrite lookup_insert_ne by lia. exact E4.
        -- rewrite Hc. apply lookup_insert_eq.
        -- rewrite Hv. apply lookup_insert_eq.
      * apply Hin. lia.
Qed.

End Backward.

Lemma tail_rev_t_span (m : Z) :
  (1 <= m)%Z ->
  tail (rev (t_span m)) = rev (range 1 (1 + Z.of_nat (Z.to_nat (m - 1)))).
Proof.
  intros Hm. unfold t_span. rewrite range_snoc by lia.
  rewrite rev_app_distr. cbn [rev app tail]. do 2 f_equal. lia.
Qed.

Section Inversion.

Variables (Spot σ K r : num) (T : positive) (order n m : Z)
  (exp_ sqrt_ : num -> num) (solve : matrix -> matrix -> result matrix)
  (draws : nat -> num).

(** What a run that returned went through. *)
Lemma notebook_Ok (s s' : nat) (tb : tables) :
  notebook Spot σ K r T order n m exp_ sqrt_ solve draws s = (Ok tb, s') ->
  exists Δt one_n cf_T z payoff,
    time_step T m = Ok Δt /\
    Tensor.ones n = Ok one_n /\
    simulate σ r n sqrt_ draws Δt (t_span m)
      {[ 0%Z := Tensor.smul Spot one_n ]} s = (Ok (tab_S tb), s') /\
    comprehension (cashflow_at K (tab_S tb)) (t_span m) ∅
      = Ok (tab_cashflow tb) /\
    tab_cashflow tb !! m = Some cf_T /\
    Tensor.zeros n = Ok z /\
    backward r order exp_ solve Δt (tab_S tb) (tab_cashflow tb)
      (tail (rev (t_span m)))
      ({[ m := map (fun a => a * discount r exp_ Δt)%num cf_T ]}, {[ m := z ]})
      = Ok (tab_value tb, tab_continuation_value tb) /\
    comprehension_values
      (payoff_at n (tab_cashflow tb) (tab_continuation_value tb)) (t_span m)
      = Ok payoff /\
    Tensor.stack1 payoff = Ok (tab_candidates tb) /\
    tab_payoff tb = first_one (tab_candidates tb) /\
    price_of r n m exp_ Δt (tab_payoff tb) = Ok (tab_price tb) /\
    tab_discount tb = discount r exp_ Δt /\
    tab_dt tb = Δt.
Proof.
  unfold notebook. intros H.
  apply M_bind_Ok in H as (Δt & s1 & E0 & H).
  unfold lift in E0. injection E0 as E0 <-.
  unfold main_cell in H.
  apply M_bind_Ok in H as (one_n & s1 & E1 & H).
  unfold lift in E1. injection E1 as E1 <-.
  apply M_bind_Ok in H as (Sd & s1 & E2 & H).
  unfold lift in H. injection H as H <-.
  unfold valuation in H.
  apply bind_Ok in H as (cashflow & E3 & H).
  apply bind_Ok in H as (cf_T & E4 & H). apply getitem_Ok in E4.
  apply bind_Ok in H as (z & E5 & H).
  apply bind_Ok in H as ([value cont] & E6 & H).
  apply bind_Ok in H as (payoff & E7 & H).
  apply bind_Ok in H as (candidates & E8 & H).
  apply bind_Ok in H as (price & E9 & H).
  injection H as <-. cbn [tab_S tab_cashflow tab_value tab_continuation_value
    tab_discount tab_dt tab_candidates tab_payoff tab_price].
  exists Δt, one_n, cf_T, z, payoff. repeat split; assumption.
Qed.

End Inversion.

(** ** Stacking, shapes and [where] *)

Lemma nth_map_default {A B} (f : A -> B) (l : list A) (d : A) (e : B) (i : nat) :
  (i < length l)%nat -> nth i (map f l) e = f (nth i l d).
Proof.
  intros H. rewrite (nth_indep _ e (f d)) by (now rewrite length_map).
  apply map_nth.
Qed.

(** [torch.stack(ts, dim=1)] that returned. *)
Lemma stack1_Ok (ts : list vec) (X : matrix) :
  Tensor.stack1 ts = Ok X ->
  ts <> [] /\
  Forall (fun t => length t = length X) ts /\
  Forall (fun row => length row = length ts) X /\
  forall p i, Tensor.entry X p i = nth p (nth i ts []) Num.zero.
Proof.
  unfold Tensor.stack1. destruct ts as [|c cs]; [discriminate|].
  destruct (Tensor.same_length c cs) eqn:E; [|discriminate].
  intros [= <-]. rewrite length_map, length_seq.
  assert (Hall : Forall (fun t => length t = length c) (c :: cs)).
  { constructor; [reflexivity|]. unfold Tensor.same_length in E.
    rewrite forallb_forall in E. apply List.Forall_forall. intros t Ht.
    apply Nat.eqb_eq. now apply E. }
  split; [discriminate|]. split; [exact Hall|]. split.
  - apply List.Forall_forall. intros row Hrow.
    apply in_map_iff in Hrow as (p & <- & _). cbn [map length]. now rewrite length_map.
  - intros p i. unfold Tensor.entry.
    destruct (Nat.lt_ge_cases p (length c)) as [Hp|Hp].
    + rewrite (nth_map_default _ _ 0%nat) by (now rewrite length_seq).
      cbv beta. rewrite seq_nth by exact Hp. rewrite Nat.add_0_l.
      change (nth p c Num.zero :: map (fun t : vec => nth p t Num.zero) cs)
        with (map (fun t : vec => nth p t Num.zero) (c :: cs)).
      destruct (Nat.lt_ge_cases i (length (c :: cs))) as [Hi|Hi].
      * now rewrite (nth_map_default _ (c :: cs) []) by exact Hi.
      * rewrite (nth_overflow (c :: cs)) by exact Hi.
        rewrite nth_overflow by (now rewrite length_map).
        now destruct p.
    + rewrite (nth_overflow (map _ _)) by (now rewrite length_map, length_seq).
      destruct (Nat.lt_ge_cases i (length (c :: cs))) as [Hi|Hi].
      * rewrite (nth_overflow (nth i (c :: cs) [])).
        -- now destruct i.
        -- rewrite List.Forall_forall in Hall. rewrite Hall; [exact Hp|].
           now apply nth_In.
      * rewrite (nth_overflow (c :: cs)) by exact Hi. now destruct i, p.
Qed.

Lemma stack1_total (ts : list vec) (N : nat) :
  ts <> [] -> Forall (fun t => length t = N) ts ->
  exists X, Tensor.stack1 ts = Ok X /\ length X = N.
Proof.
  intros Hne Hall. destruct ts as [|c cs]; [congruence|].
  unfold Tensor.stack1.
  assert (E : Tensor.same_length c cs = true).
  { unfold Tensor.same_length. apply forallb_forall. intros t Ht.
    apply Nat.eqb_eq. rewrite List.Forall_forall in Hall.
    rewrite (Hall c), (Hall t); auto; [now right | now left]. }
  rewrite E. eexists. split; [reflexivity|].
  rewrite length_map, length_seq. inversion Hall; auto.
Qed.

Lemma matmul_Ok (A B C : matrix) :
  Tensor.matmul A B = Ok C -> length C = length A.
Proof.
  unfold Tensor.matmul. destruct (_ =? _)%nat; [|discriminate].
  intros [= <-]. apply length_map.
Qed.

Lemma ridge_regression_length order solve (X : matrix) (Y : vec) lambda cv :
  ridge_regression order solve X Y lambda = Ok cv -> length cv = length X.
Proof.
  unfold ridge_regression. intros H.
  apply bind_Ok in H as (I & _ & H).
  apply bind_Ok in H as (XtY & _ & H).
  apply bind_Ok in H as (XtX & _ & H).
  apply bind_Ok in H as (A & _ & H).
  apply bind_Ok in H as (β & _ & H).
  apply bind_Ok in H as (Xβ & E & H). injection H as <-.
  unfold Tensor.squeeze, Tensor.column. rewrite length_map.
  now apply matmul_Ok in E.
Qed.

Lemma scale_Ok (x y : vec) : scale x = Ok y -> length y = length x.
Proof.
  unfold scale. intros H.
  apply bind_Ok in H as (xmin & _ & H).
  apply bind_Ok in H as (xmax & _ & H). injection H as <-.
  unfold Tensor.sadd, Tensor.smul. now rewrite !length_map.
Qed.

Lemma scale_total (x : vec) : x <> [] -> exists y, scale x = Ok y.
Proof.
  destruct x as [|a x]; [congruence|]. intros _. unfold scale. cbn. eauto.
Qed.

Lemma chebyshev_columns_head (x : vec) (k : Z) :
  exists rest, chebyshev_columns x k = Tensor.ones_like x :: rest.
Proof.
  unfold chebyshev_columns. generalize (range 2 k). intros ns.
  assert (G : forall B0 rest0, exists rest,
             fold_left (chebyshev_step x) ns (B0 :: rest0) = B0 :: rest).
  { induction ns as [|j ns IH]; intros B0 rest0; cbn [fold_left]; [eauto|].
    unfold chebyshev_step at 2. cbn [app]. apply IH. }
  apply G.
Qed.

Lemma chebyshev_basis_length (x : vec) (k : Z) (B : matrix) :
  chebyshev_basis x k = Ok B -> length B = length x.
Proof.
  unfold chebyshev_basis. intros H.
  destruct (chebyshev_columns_head x k) as [rest E]. rewrite E in H.
  apply stack1_Ok in H as (_ & Hall & _). inversion Hall as [|? ? Hc _]; subst.
  rewrite <- Hc. apply length_map.
Qed.

(** [where] on finite entries is a choice. *)
Lemma nth_zip_with {A B C} (f : A -> B -> C) (x : list A) (y : list B)
      (da : A) (db : B) (dc : C) (p : nat) :
  (p < length x)%nat -> (p < length y)%nat ->
  nth p (zip_with f x y) dc = f (nth p x da) (nth p y db).
Proof.
  revert y p. induction x as [|a x IH]; intros [|b y] [|p] Hx Hy; cbn in *; try lia; auto.
  apply IH; lia.
Qed.

Lemma where_entry_finite (a b : num) (c : bool) :
  finite a -> finite b ->
  (Num.of_bool c * a + (Num.one - Num.of_bool c) * b == if c then a else b)%num.
Proof.
  intros Ha Hb. apply finite_inv in Ha as [p ->]. apply finite_inv in Hb as [q ->].
  destruct c; cbn; ring.
Qed.

Lemma where_nth (cond : list bool) (x y : vec) (p : nat) :
  (p < length cond)%nat -> (p < length x)%nat -> (p < length y)%nat ->
  Forall finite x -> Forall finite y ->
  (nth p (where_ cond x y) Num.zero ==
   if nth p cond false then nth p x Num.zero else nth p y Num.zero)%num.
Proof.
  intros Hc Hx Hy Fx Fy. unfold where_, Tensor.vadd, Tensor.vmul, Tensor.ssub, Tensor.mask.
  rewrite (nth_zip_with _ _ _ Num.zero Num.zero) by (rewrite length_zip_with, ?length_map; lia).
  rewrite (nth_zip_with _ _ _ Num.zero Num.zero) by (rewrite ?length_map; lia).
  rewrite (nth_zip_with _ _ _ Num.zero Num.zero) by (rewrite ?length_map; lia).
  rewrite (nth_map_default _ _ Num.zero) by (rewrite length_map; lia).
  rewrite (nth_map_default _ _ false) by lia.
  apply where_entry_finite.
  - rewrite List.Forall_forall in Fx. apply Fx. now apply nth_In.
  - rewrite List.Forall_forall in Fy. apply Fy. now apply nth_In.
Qed.

Lemma where_finite (cond : list bool) (x y : vec) :
  Forall finite x -> Forall finite y -> Forall finite (where_ cond x y).
Proof.
  intros Fx Fy. unfold where_, Tensor.vadd, Tensor.vmul, Tensor.ssub, Tensor.mask.
  apply Forall_zip_with_same; [intros; now apply finite_add | | ].
  - revert x Fx. induction cond as [|c cond IH]; intros x Fx; [constructor|].
    destruct Fx; cbn; constructor; auto.
    apply finite_mul; auto. apply finite_of_bool.
  - revert y Fy. induction cond as [|c cond IH]; intros y Fy; [constructor|].
    destruct Fy; cbn; constructor; auto.
    apply finite_mul; auto. now destruct c.
Qed.

(** ** The tables of a run *)

Lemma ones_Ok (n : Z) (v : vec) :
  Tensor.ones n = Ok v -> (0 <= n)%Z /\ v = repeat Num.one (Z.to_nat n).
Proof.
  unfold Tensor.ones. destruct (n <? 0)%Z eqn:E; [discriminate|].
  apply Z.ltb_ge in E. intros [= <-]. split; [exact E | reflexivity].
Qed.

Lemma zeros_Ok (n : Z) (v : vec) :
  Tensor.zeros n = Ok v -> (0 <= n)%Z /\ v = repeat Num.zero (Z.to_nat n).
Proof.
  unfold Tensor.zeros. destruct (n <? 0)%Z eqn:E; [discriminate|].
  apply Z.ltb_ge in E. intros [= <-]. split; [exact E | reflexivity].
Qed.

Lemma time_step_Ok (T : positive) (m : Z) (Δt : num) :
  time_step T m = Ok Δt ->
  m <> 0%Z /\ Δt = Fin (inject_Z (Z.pos T) / inject_Z m).
Proof.
  unfold time_step. destruct (m =? 0)%Z eqn:E; [discriminate|].
  apply Z.eqb_neq in E. intros [= <-]. split; [exact E | reflexivity].
Qed.

Lemma t_span_range (m : Z) :
  t_span m = range (0 + 1) (0 + 1 + Z.of_nat (Z.to_nat m)).
Proof.
  unfold t_span. destruct (Z.le_gt_cases 0 m) as [H|H].
  - f_equal. lia.
  - rewrite !range_nil by lia. reflexivity.
Qed.

Lemma in_t_span (m t : Z) : In t (t_span m) <-> (1 <= t <= m)%Z.
Proof. unfold t_span. rewrite in_range. lia. Qed.

Lemma cashflow_at_Ok (K : num) (Sd : gmap Z vec) (t : Z) (cf : vec) :
  cashflow_at K Sd t = Ok cf ->
  exists St, Sd !! t = Some St /\
             cf = Tensor.clamp_min Num.zero (Tensor.ssub K St).
Proof.
  unfold cashflow_at. intros H. apply bind_Ok in H as (St & E & H).
  apply getitem_Ok in E. injection H as <-. eauto.
Qed.

Lemma payoff_at_Ok (n : Z) (cashflow cont : gmap Z vec) (t : Z) (v : vec) :
  payoff_at n cashflow cont t = Ok v ->
  exists cv cf,
    cont !! t = Some cv /\ cashflow !! t = Some cf /\
    v = where_ (Tensor.vgt cv cf) (repeat Num.zero (Z.to_nat n)) cf.
Proof.
  unfold payoff_at. intros H.
  apply bind_Ok in H as (cv & E1 & H). apply getitem_Ok in E1.
  apply bind_Ok in H as (cf & E2 & H). apply getitem_Ok in E2.
  apply bind_Ok in H as (z & E3 & H). apply zeros_Ok in E3 as [_ ->].
  apply bind_Ok in H as (cf' & E4 & H). apply getitem_Ok in E4.
  injection H as <-. rewrite E2 in E4. injection E4 as <-. eauto.
Qed.

Section RunShapes.

Variables (Spot σ K r : num) (T : positive) (order n m : Z)
  (exp_ sqrt_ : num -> num) (solve : matrix -> matrix -> result matrix)
  (draws : nat -> num).

Local Abbreviation N := (Z.to_nat n).

(** The shapes of the tables of a run that returned, and the relations
    between them. *)
Lemma notebook_shapes (s s' : nat) (tb : tables) :
  notebook Spot σ K r T order n m exp_ sqrt_ solve draws s = (Ok tb, s') ->
  (1 <= m)%Z /\ (0 <= n)%Z /\ s' = (s + Z.to_nat m * N)%nat /\
  tab_dt tb = Fin (inject_Z (Z.pos T) / inject_Z m) /\
  tab_discount tb = discount r exp_ (tab_dt tb) /\
  (forall t, (0 <= t <= m)%Z ->
     exists St, tab_S tb !! t = Some St /\ length St = N) /\
  (forall t, (1 <= t <= m)%Z ->
     exists St, tab_S tb !! t = Some St /\
       tab_cashflow tb !! t =
         Some (Tensor.clamp_min Num.zero (Tensor.ssub K St))) /\
  (exists cf_T, tab_cashflow tb !! m = Some cf_T /\
     tab_value tb !! m = Some (map (fun a => a * tab_discount tb)%num cf_T)) /\
  tab_continuation_value tb !! m = Some (repeat Num.zero N) /\
  (forall t, (1 <= t < m)%Z ->
     recursion_at r order exp_ solve (tab_dt tb) (tab_S tb) (tab_cashflow tb)
       (tab_value tb) (tab_continuation_value tb) t) /\
  (forall t, (1 <= t <= m)%Z ->
     exists cv, tab_continuation_value tb !! t = Some cv /\ length cv = N) /\
  (exists payoff,
     length payoff = Z.to_nat m /\
     (forall t, (1 <= t <= m)%Z ->
        payoff_at n (tab_cashflow tb) (tab_continuation_value tb) t
          = Ok (nth (Z.to_nat (t - 1)) payoff [])) /\
     Tensor.stack1 payoff = Ok (tab_candidates tb)) /\
  tab_payoff tb = first_one (tab_candidates tb) /\
  price_of r n m exp_ (tab_dt tb) (tab_payoff tb) = Ok (tab_price tb).
Proof.
  intros H. apply notebook_Ok in H
    as (Δt & one_n & cf_T & z & payoff & E0 & E1 & E2 & E3 & E4 & E5 & E6 & E7
        & E8 & E9 & E10 & E11 & E12).
  apply time_step_Ok in E0 as [Hm0 EΔ].
  apply ones_Ok in E1 as [Hn ->]. apply zeros_Ok in E5 as [_ ->].
  destruct (comprehension_Ok _ _ _ _ E3) as [Hcf_in Hcf_out].
  assert (Hm : (1 <= m)%Z).
  { destruct (in_dec Z.eq_dec m (t_span m)) as [Hin|Hout].
    - apply in_t_span in Hin. lia.
    - rewrite (Hcf_out m Hout) in E4. rewrite lookup_empty in E4. discriminate. }
  (* the simulation *)
  rewrite t_span_range in E2.
  destruct (simulate_invariant n Δt r σ sqrt_ draws (fun v => length v = N))
    with (k := Z.to_nat m) (t0 := 0%Z)
         (Sd := ({[ 0%Z := Tensor.smul Spot (repeat Num.one N) ]} : gmap Z vec))
         (s := s)
    as (Sd' & ESd & HSlen & HSkeep & HSnew).
  { intros prev s0 Hp. now apply advance_length. }
  { intros t v. rewrite lookup_singleton. case_decide; [|discriminate].
    intros [= <-]. unfold Tensor.smul. now rewrite length_map, repeat_length. }
  { rewrite lookup_singleton_eq. eauto. }
  fold N in E2. rewrite ESd in E2. injection E2 as ES Es. subst Sd'. clear ESd.
  assert (HS : forall t, (0 <= t <= m)%Z ->
             exists St, tab_S tb !! t = Some St /\ length St = N).
  { intros t Ht. destruct (decide (t = 0)%Z) as [->|Hne].
    - rewrite HSkeep by lia. rewrite lookup_singleton_eq. eexists. split; eauto.
      unfold Tensor.smul. now rewrite length_map, repeat_length.
    - destruct (HSnew t) as [St ESt]; [lia|]. eauto. }
  assert (HCF : forall t, (1 <= t <= m)%Z ->
     exists St, tab_S tb !! t = Some St /\
       tab_cashflow tb !! t =
         Some (Tensor.clamp_min Num.zero (Tensor.ssub K St))).
  { intros t Ht. destruct (Hcf_in t) as (cf & Ecf & Lcf); [now apply in_t_span|].
    apply cashflow_at_Ok in Ecf as (St & ESt & ->). eauto. }
  (* the recursion *)
  rewrite tail_rev_t_span in E6 by exact Hm.
  apply backward_Ok in E6 as [Hb_out Hb_in].
  assert (HVm : tab_value tb !! m =
                Some (map (fun a => (a * tab_discount tb)%num) cf_T)).
  { destruct (Hb_out m) as [-> _]; [lia|]. rewrite E11. apply lookup_singleton_eq. }
  assert (HCm : tab_continuation_value tb !! m = Some (repeat Num.zero N)).
  { destruct (Hb_out m) as [_ ->]; [lia|]. apply lookup_singleton_eq. }
  assert (HR : forall t, (1 <= t < m)%Z ->
     recursion_at r order exp_ solve (tab_dt tb) (tab_S tb) (tab_cashflow tb)
       (tab_value tb) (tab_continuation_value tb) t).
  { intros t Ht. rewrite E12. apply Hb_in. lia. }
  assert (HC : forall t, (1 <= t <= m)%Z ->
     exists cv, tab_continuation_value tb !! t = Some cv /\ length cv = N).
  { intros t Ht. destruct (decide (t = m)) as [->|Hne].
    - eexists. split; [exact HCm|]. apply repeat_length.
    - destruct (HR t) as (St & x & basis & v_next & cv & cf & R1 & R2 & R3 & R4 & R5 & R6 & _); [lia|].
      exists cv. split; [exact R6|].
      rewrite (ridge_regression_length _ _ _ _ _ _ R5).
      rewrite (chebyshev_basis_length _ _ _ R3), (scale_Ok _ _ R2).
      destruct (HS t) as (St' & ESt' & L); [lia|]. congruence. }
  destruct (comprehension_values_Ok _ _ _ E7) as [Lp Hp].
  repeat split; auto.
  - rewrite E12. exact EΔ.
  - rewrite E11, E12. reflexivity.
  - exists cf_T. split; assumption.
  - exists payoff. split; [|split; [|exact E8]].
    + rewrite Lp. unfold t_span. rewrite length_range. lia.
    + intros t Ht.
      destruct (Hp (Z.to_nat (t - 1)) t) as (v & Ev & Ef).
      { unfold t_span, range. rewrite nth_error_map.
        rewrite (nth_error_nth' _ 0%nat) by (rewrite length_seq; lia).
        rewrite seq_nth by lia. cbn. f_equal. lia. }
      rewrite Ef. f_equal. symmetry. now apply nth_error_nth.
  - rewrite E12. exact E10.
Qed.

End RunShapes.

(** ** Sums and the price *)

Import NumFacts.

Section Sums.

Local Open Scope num_scope.

Lemma fold_add_acc (x : vec) (a : num) :
  fold_left Num.add x a == a + Tensor.vsum x.
Proof.
  unfold Tensor.vsum. revert a. induction x as [|b x IH]; intros a; cbn [fold_left].
  - symmetry. apply num_add_zero_r.
  - rewrite (IH (a + b)), (IH (Num.zero + b)).
    rewrite num_add_zero_l. symmetry. apply num_add_assoc.
Qed.

Lemma vsum_cons (b : num) (x : vec) : Tensor.vsum (b :: x) == b + Tensor.vsum x.
Proof.
  unfold Tensor.vsum at 1. cbn [fold_left]. rewrite fold_add_acc.
  now rewrite num_add_zero_l.
Qed.

Lemma vsum_app (x y : vec) :
  Tensor.vsum (x ++ y) == Tensor.vsum x + Tensor.vsum y.
Proof.
  induction x as [|a x IH]; cbn [app].
  - change (Tensor.vsum []) with Num.zero. now rewrite num_add_zero_l.
  - rewrite !vsum_cons, IH. apply num_add_assoc.
Qed.

Lemma vsum_ext (x y : vec) : Forall2 Num.eq x y -> Tensor.vsum x == Tensor.vsum y.
Proof.
  induction 1 as [|a b x y Hab Hxy IH]; [reflexivity|].
  now rewrite !vsum_cons, Hab, IH.
Qed.

Lemma sum_over_S (k : nat) (f : nat -> num) :
  sum_over (S k) f == sum_over k f + f k.
Proof.
  unfold sum_over. rewrite seq_S, map_app, vsum_app. cbn [map Nat.add].
  rewrite vsum_cons. change (Tensor.vsum []) with Num.zero.
  now rewrite num_add_zero_r.
Qed.

Lemma sum_over_ext (k : nat) (f g : nat -> num) :
  (forall i, (i < k)%nat -> f i == g i) -> sum_over k f == sum_over k g.
Proof.
  induction k as [|k IH]; intros H; [reflexivity|].
  rewrite !sum_over_S, IH, (H k) by (intros; auto with lia). reflexivity.
Qed.

Lemma sum_over_zero (k : nat) : sum_over k (fun _ => Num.zero) == Num.zero.
Proof.
  induction k as [|k IH]; [reflexivity|].
  rewrite sum_over_S, IH. apply num_add_zero_l.
Qed.

Lemma sum_over_add (k : nat) (f g : nat -> num) :
  sum_over k (fun i => f i + g i) == sum_over k f + sum_over k g.
Proof.
  induction k as [|k IH].
  - unfold sum_over. cbn. reflexivity.
  - rewrite !sum_over_S, IH.
    rewrite <- !num_add_assoc. apply num_add_proper; [reflexivity|].
    rewrite !num_add_assoc. apply num_add_proper; [|reflexivity].
    apply num_add_comm.
Qed.

Lemma sum_over_swap (a b : nat) (f : nat -> nat -> num) :
  sum_over a (fun p => sum_over b (fun i => f p i)) ==
  sum_over b (fun i => sum_over a (fun p => f p i)).
Proof.
  induction a as [|a IH].
  - change (sum_over 0 (fun p => sum_over b (fun i => f p i))) with Num.zero.
    symmetry. etransitivity; [|apply (sum_over_zero b)].
    apply sum_over_ext. intros i _. reflexivity.
  - rewrite (sum_over_S a (fun p => sum_over b (fun i => f p i))), IH.
    rewrite <- (sum_over_add b (fun i => sum_over a (fun p => f p i))
                             (fun i => f a i)).
    apply sum_over_ext. intros i _. symmetry.
    apply (sum_over_S a (fun p => f p i)).
Qed.

Lemma vsum_concat_map (k : nat) (g : nat -> vec) :
  Tensor.vsum (concat (map g (seq 0 k))) == sum_over k (fun i => Tensor.vsum (g i)).
Proof.
  induction k as [|k IH]; [reflexivity|].
  rewrite seq_S, map_app, concat_app, vsum_app, IH, sum_over_S.
  cbn [map concat Nat.add]. now rewrite app_nil_r.
Qed.

Lemma vsum_map_rows {A} (f : A -> num) (d : A) (x : list A) :
  Tensor.vsum (map f x) = sum_over (length x) (fun p => f (nth p x d)).
Proof.
  unfold sum_over. f_equal. symmetry. apply (map_seq_nth f d x).
Qed.

Lemma range_of_nat (m : Z) : range 0 m = map Z.of_nat (seq 0 (Z.to_nat m)).
Proof.
  unfold range. replace (m - 0)%Z with m by lia.
  apply map_ext. intros i. lia.
Qed.

Section Price.

Variables (r : num) (n m : Z) (exp_ : num -> num) (Δt : num).

(** The aggregation: the price is the sum over the rows (paths) and the
    columns of the discounted entries, divided by [n]. *)
Lemma price_of_Ok (payoff : matrix) (price : num) :
  price_of r n m exp_ Δt payoff = Ok price ->
  price ==
  sum_over (length payoff) (fun p =>
    sum_over (Z.to_nat m) (fun i =>
      Tensor.entry payoff p i
      * exp_ ((Num.opp r * Num.of_Z (Z.of_nat i)) * Δt)))
  / Num.of_Z n.
Proof.
  unfold price_of. intros H. apply bind_Ok in H as (stacked & E & H).
  injection H as <-.
  assert (Es : stacked = map (discounted_payoff r exp_ Δt payoff) (range 0 m)).
  { unfold Tensor.stack0 in E. destruct (map _ _) as [|c cs]; [discriminate|].
    destruct (Tensor.same_length c cs); [now injection E | discriminate]. }
  subst stacked. apply num_div_proper; [|reflexivity].
  unfold Tensor.msum. rewrite range_of_nat, map_map, vsum_concat_map.
  rewrite sum_over_swap. apply sum_over_ext. intros i Hi.
  unfold discounted_payoff, Tensor.column. rewrite map_map, Nat2Z.id.
  rewrite (vsum_map_rows _ []). reflexivity.
Qed.

End Price.

End Sums.

(** ** Payoffs, finiteness and the recursion *)

Lemma first_one_length (X : matrix) : length (first_one X) = length X.
Proof. rewrite first_one_rows. apply length_map. Qed.

Lemma length_clamp_min lo x : length (Tensor.clamp_min lo x) = length x.
Proof. apply length_map. Qed.

Section RunPayoffs.

Variables (Spot σ K r : num) (T : positive) (order n m : Z)
  (exp_ sqrt_ : num -> num) (solve : matrix -> matrix -> result matrix)
  (draws : nat -> num).

Local Abbreviation N := (Z.to_nat n).

(** The candidate payoffs of a run that returned, column by column. *)
Lemma notebook_candidates (s s' : nat) (tb : tables) :
  notebook Spot σ K r T order n m exp_ sqrt_ solve draws s = (Ok tb, s') ->
  length (tab_candidates tb) = N /\
  length (tab_payoff tb) = N /\
  forall t, (1 <= t <= m)%Z ->
    exists cv cf,
      tab_continuation_value tb !! t = Some cv /\ length cv = N /\
      tab_cashflow tb !! t = Some cf /\ length cf = N /\
      forall p, Tensor.entry (tab_candidates tb) p (Z.to_nat (t - 1)) =
                nth p (where_ (Tensor.vgt cv cf) (repeat Num.zero N) cf)
                    Num.zero.
Proof.
  intros H. apply notebook_shapes in H
    as (Hm & Hn & _ & _ & _ & HS & HCF & _ & _ & _ & HC & (payoff & Lp & Hp & Est) & Epay & _).
  apply stack1_Ok in Est as (_ & Hall & _ & Hent).
  assert (Hcol : forall t, (1 <= t <= m)%Z ->
    exists cv cf,
      tab_continuation_value tb !! t = Some cv /\ length cv = N /\
      tab_cashflow tb !! t = Some cf /\ length cf = N /\
      nth (Z.to_nat (t - 1)) payoff [] =
        where_ (Tensor.vgt cv cf) (repeat Num.zero N) cf).
  { intros t Ht. specialize (Hp t Ht).
    apply payoff_at_Ok in Hp as (cv & cf & Ecv & Ecf & Ev).
    destruct (HC t Ht) as (cv' & Ecv' & Lcv).
    destruct (HCF t Ht) as (St & ESt & Ecf').
    destruct (HS t) as (St' & ESt' & LSt); [lia|].
    exists cv, cf. repeat split; auto; try congruence.
    rewrite Ecf in Ecf'. injection Ecf' as ->.
    rewrite length_clamp_min, length_ssub. congruence. }
  assert (Lc : length (tab_candidates tb) = N).
  { destruct (Hcol 1%Z) as (cv & cf & _ & Lcv & _ & Lcf & E); [lia|].
    rewrite List.Forall_forall in Hall.
    rewrite <- (Hall (nth (Z.to_nat (1 - 1)) payoff [])) by (apply nth_In; lia).
    rewrite E. rewrite length_where_, length_vgt, repeat_length. lia. }
  split; [exact Lc|]. split; [rewrite Epay, first_one_length; exact Lc|].
  intros t Ht. destruct (Hcol t Ht) as (cv & cf & E1 & L1 & E2 & L2 & E).
  exists cv, cf. repeat split; auto. intros p. now rewrite Hent, E.
Qed.

(** The price of a run that returned, as a double sum. *)
Lemma notebook_price (s s' : nat) (tb : tables) :
  notebook Spot σ K r T order n m exp_ sqrt_ solve draws s = (Ok tb, s') ->
  length (tab_payoff tb) = N /\
  (tab_price tb ==
   sum_over N (fun p =>
     sum_over (Z.to_nat m) (fun i =>
       Tensor.entry (tab_payoff tb) p i
       * exp_ ((Num.opp r * Num.of_Z (Z.of_nat i)) * tab_dt tb)))
   / Num.of_Z n)%num.
Proof.
  intros H. pose proof (notebook_candidates _ _ _ H) as (_ & Lp & _).
  apply notebook_shapes in H
    as (_ & _ & _ & _ & _ & _ & _ & _ & _ & _ & _ & _ & _ & Eprice).
  split; [exact Lp|]. rewrite <- Lp. now apply price_of_Ok.
Qed.

End RunPayoffs.

Lemma Forall_repeat {A} (P : A -> Prop) (a : A) (k : nat) :
  P a -> Forall P (repeat a k).
Proof. intros H. induction k; cbn; constructor; auto. Qed.

Lemma finite_vec_smul (N : nat) (s : num) (x : vec) :
  finite s -> finite_vec N x -> finite_vec N (Tensor.smul s x).
Proof.
  intros Hs [L F]. split; [now rewrite length_smul|].
  apply (Forall_map_same finite finite); auto. intros. now apply finite_mul.
Qed.

Lemma finite_vec_cashflow (N : nat) (K : num) (St : vec) :
  finite K -> finite_vec N St ->
  finite_vec N (Tensor.clamp_min Num.zero (Tensor.ssub K St)).
Proof.
  intros HK [L F]. split; [now rewrite length_clamp_min, length_ssub|].
  unfold Tensor.clamp_min, Tensor.ssub.
  apply (Forall_map_same finite finite); [intros; now apply finite_max|].
  apply (Forall_map_same finite finite); [intros; now apply finite_sub|exact F].
Qed.

Lemma time_step_nonneg (T : positive) (m : Z) :
  (1 <= m)%Z -> 0 <= inject_Z (Z.pos T) / inject_Z m.
Proof.
  intros Hm. apply Qle_shift_div_l.
  - unfold Qlt. cbn. lia.
  - rewrite Qmult_0_l. unfold Qle. cbn. lia.
Qed.

Section FiniteRun.

Variables (Spot σ K r : Q) (T : positive) (order n m : Z)
  (exp_ sqrt_ : num -> num) (solve : matrix -> matrix -> result matrix)
  (draws : nat -> Q).

Hypothesis exp_finite : forall q, finite (exp_ (Fin q)).
Hypothesis sqrt_finite :
  finite (sqrt_ (Fin (inject_Z (Z.pos T) / inject_Z m))).

Local Abbreviation N := (Z.to_nat n).
Local Abbreviation run :=
  (notebook (Fin Spot) (Fin σ) (Fin K) (Fin r) T order n m exp_ sqrt_ solve
            (fun i => Fin (draws i))).

Lemma discount_finite (Δt : num) :
  finite Δt -> finite (discount (Fin r) exp_ Δt).
Proof.
  intros H. apply finite_inv in H as [q ->]. unfold discount. cbn. apply exp_finite.
Qed.

(** With finite parameters and draws, the prices, the cashflows and
    the values of a run are finite. *)
Lemma notebook_finite (s s' : nat) (tb : tables) :
  run s = (Ok tb, s') ->
  finite (tab_discount tb) /\
  (forall t, (0 <= t <= m)%Z ->
     exists St, tab_S tb !! t = Some St /\ finite_vec N St) /\
  (forall t, (1 <= t <= m)%Z ->
     exists cf, tab_cashflow tb !! t = Some cf /\ finite_vec N cf) /\
  (forall t, (1 <= t <= m)%Z ->
     exists v, tab_value tb !! t = Some v /\ finite_vec N v).
Proof.
  intros H. pose proof (notebook_shapes _ _ _ _ _ _ _ _ _ _ _ _ _ _ _ H)
    as (Hm & Hn & _ & EΔ & Ed & _ & HCF & (cf_T & EcfT & EvT) & _ & HR & HC & _).
  apply notebook_Ok in H
    as (Δt & one_n & _ & _ & _ & E0 & E1 & E2 & _ & _ & _ & _ & _ & _ & _ & _ & _ & E12).
  apply ones_Ok in E1 as [_ ->]. rewrite E12 in EΔ. subst Δt.
  assert (Hd : finite (tab_discount tb)).
  { rewrite Ed. apply discount_finite. rewrite EΔ. reflexivity. }
  (* the simulation *)
  rewrite t_span_range in E2.
  destruct (simulate_invariant n (tab_dt tb) (Fin r) (Fin σ) sqrt_
              (fun i => Fin (draws i)) (finite_vec N))
    with (k := Z.to_nat m) (t0 := 0%Z)
         (Sd := ({[ 0%Z := Tensor.smul (Fin Spot) (repeat Num.one N) ]} : gmap Z vec))
         (s := s)
    as (Sd' & ESd & HSfin & HSkeep & HSnew).
  { intros prev s0 Hp. apply advance_finite; auto; try reflexivity.
    - rewrite EΔ. reflexivity.
    - rewrite EΔ. exact sqrt_finite. }
  { intros t v. rewrite lookup_singleton. case_decide; [|discriminate].
    intros [= <-]. apply finite_vec_smul; [reflexivity|].
    split; [apply repeat_length | now apply Forall_repeat]. }
  { rewrite lookup_singleton_eq. eauto. }
  rewrite ESd in E2. injection E2 as ES Es. subst Sd'. clear ESd.
  assert (HS : forall t, (0 <= t <= m)%Z ->
             exists St, tab_S tb !! t = Some St /\ finite_vec N St).
  { intros t Ht. destruct (decide (t = 0)%Z) as [->|Hne].
    - rewrite HSkeep by lia. rewrite lookup_singleton_eq. eexists. split; eauto.
      apply finite_vec_smul; [reflexivity|].
      split; [apply repeat_length | now apply Forall_repeat].
    - destruct (HSnew t) as [St ESt]; [lia|]. eauto. }
  assert (HCFfin : forall t, (1 <= t <= m)%Z ->
     exists cf, tab_cashflow tb !! t = Some cf /\ finite_vec N cf).
  { intros t Ht. destruct (HCF t Ht) as (St & ESt & Ecf).
    destruct (HS t) as (St' & ESt' & FSt); [lia|].
    eexists. split; [exact Ecf|]. apply finite_vec_cashflow; [reflexivity|].
    congruence. }
  split; [exact Hd|]. split; [exact HS|]. split; [exact HCFfin|].
  (* the values, from the maturity back *)
  assert (G : forall j : nat, (1 <= m - Z.of_nat j)%Z ->
            exists v, tab_value tb !! (m - Z.of_nat j)%Z = Some v /\ finite_vec N v).
  { induction j as [|j IH]; intros Hj.
    - replace (m - Z.of_nat 0)%Z with m by lia. eexists. split; [exact EvT|].
      destruct (HCFfin m) as (cf & Ecf & Lcf & Fcf); [lia|].
      rewrite EcfT in Ecf. injection Ecf as ->. split; [now rewrite length_map|].
      apply (Forall_map_same finite finite); [|exact Fcf].
      intros a Ha. now apply finite_mul.
    - destruct IH as (v_next' & Ev' & Lv & Fv); [lia|].
      destruct (HR (m - Z.of_nat (Datatypes.S j))%Z)
        as (St & x & basis & v_next & cv & cf & R1 & R2 & R3 & R4 & R5 & R6 & R7 & R8); [lia|].
      replace (m - Z.of_nat (Datatypes.S j) + 1)%Z with (m - Z.of_nat j)%Z in R4 by lia.
      rewrite Ev' in R4. injection R4 as <-.
      destruct (HCFfin (m - Z.of_nat (Datatypes.S j))%Z) as (cf' & Ecf & Lcf & Fcf); [lia|].
      rewrite R7 in Ecf. injection Ecf as <-.
      destruct (HC (m - Z.of_nat (Datatypes.S j))%Z) as (cv' & Ecv & Lcv); [lia|].
      rewrite R6 in Ecv. injection Ecv as <-.
      eexists. split; [exact R8|]. rewrite <- Ed.
      apply finite_vec_smul; [exact Hd|]. split.
      + rewrite length_where_, length_vgt. lia.
      + now apply where_finite. }
  intros t Ht. replace t with (m - Z.of_nat (Z.to_nat (m - t)))%Z by lia.
  apply G. lia.
Qed.

End FiniteRun.

Lemma nth_vgt (x y : vec) (p : nat) :
  (p < length x)%nat -> (p < length y)%nat ->
  nth p (Tensor.vgt x y) false = (nth p x Num.zero >? nth p y Num.zero)%num.
Proof. intros Hx Hy. now apply nth_zip_with. Qed.

Lemma nth_repeat_zero (N p : nat) : nth p (repeat Num.zero N) Num.zero = Num.zero.
Proof. apply nth_repeat. Qed.

Section FiniteRunClaims.

Variables (Spot σ K r : Q) (T : positive) (order n m : Z)
  (exp_ sqrt_ : num -> num) (solve : matrix -> matrix -> result matrix)
  (draws : nat -> Q).

Hypothesis exp_finite : forall q, finite (exp_ (Fin q)).
Hypothesis sqrt_finite :
  finite (sqrt_ (Fin (inject_Z (Z.pos T) / inject_Z m))).

Local Abbreviation N := (Z.to_nat n).
Local Abbreviation run :=
  (notebook (Fin Spot) (Fin σ) (Fin K) (Fin r) T order n m exp_ sqrt_ solve
            (fun i => Fin (draws i))).

(** The candidate payoffs of a run with finite parameters, entry by
    entry. *)
Lemma candidate_payoff_entries (s s' : nat) (tb : tables) :
  run s = (Ok tb, s') ->
  forall t p, (1 <= t <= m)%Z -> (p < N)%nat ->
    exists cv cf,
      tab_continuation_value tb !! t = Some cv /\
      tab_cashflow tb !! t = Some cf /\
      (Tensor.entry (tab_candidates tb) p (Z.to_nat (t - 1)) ==
       if (nth p cv Num.zero >? nth p cf Num.zero)%num
       then Num.zero else nth p cf Num.zero)%num.
Proof.
  intros H t p Ht Hp.
  pose proof (notebook_finite _ _ _ _ _ _ _ _ _ _ _ _ exp_finite sqrt_finite _ _ _ H)
    as (_ & _ & HCF & _).
  apply notebook_candidates in H as (_ & _ & Hcol).
  destruct (Hcol t Ht) as (cv & cf & Ecv & Lcv & Ecf & Lcf & Hent).
  destruct (HCF t Ht) as (cf' & Ecf' & _ & Fcf).
  rewrite Ecf in Ecf'. injection Ecf' as <-.
  exists cv, cf. split; [exact Ecv|]. split; [exact Ecf|].
  rewrite Hent, where_nth.
  - rewrite nth_vgt by lia. rewrite nth_repeat_zero. reflexivity.
  - rewrite length_vgt. lia.
  - rewrite repeat_length. lia.
  - lia.
  - now apply Forall_repeat.
  - exact Fcf.
Qed.

(** The values of the recursion.  For a run that returned (finite
    parameters and draws, a finite exponential and a finite square root
    of the time step): at the maturity [m] the continuation value is
    the zero vector and the value is the terminal cashflow times the
    discount factor [d = exp(-r * Δt)]; at every earlier date [t], for
    every path, the value at [t] is [d] times the cashflow when the
    cashflow is strictly greater than the continuation value, and [d]
    times the value at [t + 1] otherwise. *)
Lemma backward_recursion_values (s s' : nat) (tb : tables) :
  run s = (Ok tb, s') ->
  let d := exp_ (Num.opp (Fin r) * tab_dt tb)%num in
  tab_continuation_value tb !! m = Some (repeat Num.zero N) /\
  (exists cf_T,
     tab_cashflow tb !! m = Some cf_T /\
     tab_value tb !! m = Some (map (fun a => a * d)%num cf_T)) /\
  forall t, (1 <= t < m)%Z ->
    exists St x basis v_next cv cf v,
      tab_S tb !! t = Some St /\
      scale St = Ok x /\
      chebyshev_basis x order = Ok basis /\
      tab_value tb !! (t + 1)%Z = Some v_next /\
      ridge_regression order solve basis v_next (Fin 100) = Ok cv /\
      tab_continuation_value tb !! t = Some cv /\
      tab_cashflow tb !! t = Some cf /\
      tab_value tb !! t = Some v /\
      length v = N /\
      forall p, (p < N)%nat ->
        (nth p v Num.zero ==
         d * (if (nth p cf Num.zero >? nth p cv Num.zero)%num
              then nth p cf Num.zero else nth p v_next Num.zero))%num.
Proof.
  intros H d.
  pose proof (notebook_finite _ _ _ _ _ _ _ _ _ _ _ _ exp_finite sqrt_finite _ _ _ H)
    as (_ & _ & HCF & HV).
  apply notebook_shapes in H
    as (Hm & Hn & _ & _ & Ed & _ & _ & HT & HCm & HR & HC & _).
  unfold discount in Ed. fold d in Ed.
  split; [exact HCm|]. split; [now rewrite <- Ed|].
  intros t Ht.
  destruct (HR t Ht) as (St & x & basis & v_next & cv & cf & R1 & R2 & R3 & R4 & R5 & R6 & R7 & R8).
  destruct (HCF t) as (cf' & Ecf & Lcf & Fcf); [lia|].
  rewrite R7 in Ecf. injection Ecf as <-.
  destruct (HV (t + 1)%Z) as (v' & Ev & Lv & Fv); [lia|].
  rewrite R4 in Ev. injection Ev as <-.
  destruct (HC t) as (cv' & Ecv & Lcv); [lia|].
  rewrite R6 in Ecv. injection Ecv as <-.
  eexists St, x, basis, v_next, cv, cf, _.
  repeat split; try eassumption.
  - rewrite length_smul, length_where_, length_vgt. lia.
  - intros p Hp. unfold discount. fold d. unfold Tensor.smul.
    rewrite (nth_map_default _ _ Num.zero) by (rewrite length_where_, length_vgt; lia).
    apply num_mul_proper; [reflexivity|].
    rewrite where_nth; auto; try (rewrite ?length_vgt; lia).
    rewrite nth_vgt by lia. reflexivity.
Qed.

End FiniteRunClaims.

(** ** Runs with invalid parameters *)

(** With a non-positive global [order] the regression of the
    two-column basis fails on the shapes. *)
Lemma ridge_regression_order_nonpositive (order : Z)
      (solve : matrix -> matrix -> result matrix)
      (x Y : vec) (lambda : num) :
  (order <= 0)%Z -> x <> [] -> length Y = length x ->
  ridge_regression order solve (map (fun a => [Num.one; a]) x) Y lambda
  = Raise RuntimeError.
Proof.
  intros Ho Hx HY. unfold ridge_regression, Tensor.eye.
  destruct (order <? 0)%Z eqn:E; [reflexivity|].
  apply Z.ltb_ge in E. replace order with 0%Z by lia.
  cbn [Z.to_nat seq map mbind result_bind].
  destruct x as [|a x]; [congruence|]. clear Hx.
  set (X := map (fun a0 : num => [Num.one; a0]) (a :: x)).
  assert (Ht : Tensor.transpose X = [Tensor.column X 0; Tensor.column X 1]) by reflexivity.
  assert (Lc : forall j, length (Tensor.column X j) = length (a :: x)).
  { intros j. unfold Tensor.column, X. now rewrite !length_map. }
  assert (E1 : exists M1, Tensor.matmul (Tensor.transpose X) (Tensor.as_column Y) = Ok M1).
  { unfold Tensor.matmul. rewrite Ht. cbn [Tensor.width].
    unfold Tensor.as_column at 1. rewrite length_map, Lc, HY, Nat.eqb_refl. eauto. }
  destruct E1 as [M1 ->]. cbn [mbind result_bind].
  assert (E2 : exists XtX, Tensor.matmul (Tensor.transpose X) X = Ok XtX /\ length XtX = 2%nat).
  { unfold Tensor.matmul. rewrite Ht. cbn [Tensor.width]. rewrite Lc.
    replace (length X) with (length (a :: x)) by (unfold X; now rewrite length_map).
    rewrite Nat.eqb_refl. eexists. split; reflexivity. }
  destruct E2 as (XtX & -> & L2). cbn [mbind result_bind].
  unfold Tensor.madd, Tensor.mscale. cbn [map length]. rewrite L2. reflexivity.
Qed.

Section Forward.

Variables (Spot σ K r : num) (T : positive) (order n m : Z)
  (exp_ sqrt_ : num -> num) (solve : matrix -> matrix -> result matrix)
  (draws : nat -> num).

Local Abbreviation N := (Z.to_nat n).

(** The main cell up to the end of the simulation, for any time
    step. *)
Lemma main_cell_simulated (Δt : num) (s : nat) :
  (1 <= m)%Z -> (0 <= n)%Z ->
  exists Sd,
    main_cell Spot σ K r order n m exp_ sqrt_ solve draws Δt s =
    (valuation K r order n m exp_ solve Δt Sd,
     (s + Z.to_nat m * N)%nat) /\
    forall t, (0 <= t <= m)%Z -> exists St, Sd !! t = Some St /\ length St = N.
Proof.
  intros Hm Hn. unfold main_cell, Tensor.ones.
  destruct (n <? 0)%Z eqn:E'; [apply Z.ltb_lt in E'; lia|].
  unfold mbind at 1, M_bind at 1, lift at 1.
  rewrite t_span_range.
  destruct (simulate_invariant n Δt r σ sqrt_
              draws (fun v => length v = N))
    with (k := Z.to_nat m) (t0 := 0%Z)
         (Sd := ({[ 0%Z := Tensor.smul Spot (repeat Num.one N) ]} : gmap Z vec))
         (s := s)
    as (Sd' & ESd & HSlen & HSkeep & HSnew).
  { intros prev s0 Hp. now apply advance_length. }
  { intros t v. rewrite lookup_singleton. case_decide; [|discriminate].
    intros [= <-]. now rewrite length_smul, repeat_length. }
  { rewrite lookup_singleton_eq. eauto. }
  exists Sd'. unfold mbind, M_bind. rewrite ESd. unfold lift. split.
  - reflexivity.
  - intros t Ht. destruct (decide (t = 0)%Z) as [->|Hne].
    + rewrite HSkeep by lia. rewrite lookup_singleton_eq. eexists. split; eauto.
      now rewrite length_smul, repeat_length.
    + destruct (HSnew t) as [St ESt]; [lia|]. eauto.
Qed.

(** The run up to the end of the simulation. *)
Lemma notebook_simulated (s : nat) :
  (1 <= m)%Z -> (0 <= n)%Z ->
  exists Sd,
    notebook Spot σ K r T order n m exp_ sqrt_ solve draws s =
    (valuation K r order n m exp_ solve
       (Fin (inject_Z (Z.pos T) / inject_Z m)) Sd,
     (s + Z.to_nat m * N)%nat) /\
    forall t, (0 <= t <= m)%Z -> exists St, Sd !! t = Some St /\ length St = N.
Proof.
  intros Hm Hn. unfold notebook, time_step.
  destruct (m =? 0)%Z eqn:E; [apply Z.eqb_eq in E; lia|].
  unfold mbind at 1, M_bind at 1, lift at 1.
  unfold main_cell, Tensor.ones.
  destruct (n <? 0)%Z eqn:E'; [apply Z.ltb_lt in E'; lia|].
  unfold mbind at 1, M_bind at 1, lift at 1.
  rewrite t_span_range.
  destruct (simulate_invariant n (Fin (inject_Z (Z.pos T) / inject_Z m)) r σ sqrt_
              draws (fun v => length v = N))
    with (k := Z.to_nat m) (t0 := 0%Z)
         (Sd := ({[ 0%Z := Tensor.smul Spot (repeat Num.one N) ]} : gmap Z vec))
         (s := s)
    as (Sd' & ESd & HSlen & HSkeep & HSnew).
  { intros prev s0 Hp. now apply advance_length. }
  { intros t v. rewrite lookup_singleton. case_decide; [|discriminate].
    intros [= <-]. now rewrite length_smul, repeat_length. }
  { rewrite lookup_singleton_eq. eauto. }
  exists Sd'. unfold mbind, M_bind. rewrite ESd. unfold lift. split.
  - reflexivity.
  - intros t Ht. destruct (decide (t = 0)%Z) as [->|Hne].
    + rewrite HSkeep by lia. rewrite lookup_singleton_eq. eexists. split; eauto.
      now rewrite length_smul, repeat_length.
    + destruct (HSnew t) as [St ESt]; [lia|]. eauto.
Qed.

(** With a non-positive order, at least one path and two dates, the
    valuation fails at the first regression. *)
Lemma valuation_order_nonpositive (Δt : num) (Sd : gmap Z vec) :
  (order <= 0)%Z -> (1 <= n)%Z -> (2 <= m)%Z ->
  (forall t, (0 <= t <= m)%Z -> exists St, Sd !! t = Some St /\ length St = N) ->
  valuation K r order n m exp_ solve Δt Sd = Raise RuntimeError.
Proof.
  intros Ho Hn Hm HS. unfold valuation.
  destruct (comprehension_total (cashflow_at K Sd) (t_span m)) with (d := (∅ : gmap Z vec))
    as [cashflow Ecf].
  { intros t Ht. apply in_t_span in Ht. destruct (HS t) as (St & ESt & _); [lia|].
    unfold cashflow_at, getitem. rewrite ESt. cbn. eauto. }
  rewrite Ecf. cbn [mbind result_bind].
  destruct (comprehension_Ok _ _ _ _ Ecf) as [Hin _].
  destruct (Hin m) as (cf_T & EcfT & Ecfm); [apply in_t_span; lia|].
  apply cashflow_at_Ok in EcfT as (Sm & ESm & ->).
  rewrite (proj2 (getitem_Ok _ _ _) Ecfm). cbn [mbind result_bind].
  unfold Tensor.zeros. destruct (n <? 0)%Z eqn:E; [apply Z.ltb_lt in E; lia|].
  cbn [mbind result_bind].
  rewrite tail_rev_t_span by lia.
  replace (Z.to_nat (m - 1)) with (Datatypes.S (Z.to_nat (m - 2))) by lia.
  rewrite rev_range_snoc. cbn [backward].
  replace (1 + Z.of_nat (Z.to_nat (m - 2)))%Z with (m - 1)%Z by lia.
  assert (Estep : forall st0,
    backward_step r order exp_ solve Δt Sd cashflow
      ({[m := map (fun a => (a * discount r exp_ Δt)%num)
                  (Tensor.clamp_min Num.zero (Tensor.ssub K Sm))]}, st0) (m - 1)
    = Raise RuntimeError).
  { intros st0. unfold backward_step. cbv beta iota zeta.
    destruct (HS (m - 1)%Z) as (St & ESt & LSt); [lia|].
    rewrite (proj2 (getitem_Ok _ _ _) ESt). cbn [mbind result_bind].
    destruct (scale_total St) as [x Ex]; [intros ->; cbn in LSt; lia|].
    rewrite Ex. cbn [mbind result_bind].
    rewrite chebyshev_basis_low_degree by lia. cbn [mbind result_bind].
    replace (m - 1 + 1)%Z with m by lia.
    rewrite (proj2 (getitem_Ok _ m _) (lookup_singleton_eq _ _)). cbn [mbind result_bind].
    rewrite ridge_regression_order_nonpositive; [reflexivity | lia | |].
    - intros ->. apply scale_Ok in Ex. cbn in Ex. lia.
    - rewrite length_map, length_clamp_min, length_ssub.
      destruct (HS m) as (Sm' & ESm' & LSm); [lia|].
      apply scale_Ok in Ex. congruence. }
  rewrite Estep. reflexivity.
Qed.

End Forward.

(** ** Runs with one exercise date *)

Lemma sum_over_fin (k : nat) (g : nat -> Q) :
  (sum_over k (fun p => Fin (g p)) == Fin (qsum_over k g))%num.
Proof.
  induction k as [|k IH]; [reflexivity|].
  rewrite sum_over_S, IH. cbn. reflexivity.
Qed.

Lemma qsum_over_le (k : nat) (g h : nat -> Q) :
  (forall p, (p < k)%nat -> g p <= h p) -> qsum_over k g <= qsum_over k h.
Proof.
  induction k as [|k IH]; intros H; cbn; [apply Qle_refl|].
  apply Qplus_le_compat; [apply IH; auto with lia | apply H; lia].
Qed.

Lemma sum_over_one (f : nat -> num) : (sum_over 1 f == f 0%nat)%num.
Proof.
  rewrite sum_over_S. change (sum_over 0 f) with Num.zero. apply num_add_zero_l.
Qed.

Lemma qmax_zero_nonneg (a : Q) : 0 <= qmax a 0.
Proof. destruct (qmax_spec a 0) as [[-> H]|[-> H]]; [exact H | apply Qle_refl]. Qed.

Lemma qmax_zero_mono (a b : Q) : a <= b -> qmax a 0 <= qmax b 0.
Proof.
  intros H.
  destruct (qmax_spec a 0) as [[-> Ha]|[-> Ha]], (qmax_spec b 0) as [[-> Hb]|[-> Hb]]; lra.
Qed.

(** A non-negative finite entry passes the positivity mask unchanged. *)
Lemma positive_mask_nonneg (c : num) (a : Q) :
  (c == Fin a)%num -> 0 <= a ->
  (c * Num.of_bool (c >? Num.zero) == Fin a)%num.
Proof.
  intros Hc Ha.
  rewrite (num_gtb_proper _ _ Hc _ _ (num_eq_refl Num.zero)).
  transitivity (Fin a * Num.of_bool (Fin a >? Num.zero))%num.
  { apply num_mul_proper; [exact Hc | reflexivity]. }
  destruct (Fin a >? Num.zero)%num eqn:E.
  - apply mask_mul_true.
  - apply gtb_fin_false in E. rewrite mask_mul_false. cbn. lra.
Qed.

Lemma div_fin_positive (x : Q) (n : Z) :
  (1 <= n)%Z -> (Fin x / Num.of_Z n)%num = Fin (x / inject_Z n).
Proof.
  intros Hn. unfold Num.of_Z. cbn.
  assert (E : (inject_Z n ?= 0) = Gt).
  { apply Qgt_alt. unfold Qlt. cbn. lia. }
  now rewrite E.
Qed.

Section SingleDate.

Variables (Spot σ r : Q) (T : positive) (order n : Z)
  (exp_ sqrt_ : num -> num) (solve : matrix -> matrix -> result matrix)
  (draws : nat -> Q).

Hypothesis exp_nonneg : forall q, exists e, exp_ (Fin q) = Fin e /\ 0 <= e.
Hypothesis sqrt_finite :
  finite (sqrt_ (Fin (inject_Z (Z.pos T) / inject_Z 1))).

Local Abbreviation N := (Z.to_nat n).
Local Abbreviation run K :=
  (notebook (Fin Spot) (Fin σ) (Fin K) (Fin r) T order n 1 exp_ sqrt_ solve
            (fun i => Fin (draws i))).

Lemma exp_finite_of_nonneg : forall q, finite (exp_ (Fin q)).
Proof. intros q. destruct (exp_nonneg q) as (e & -> & _). reflexivity. Qed.

(** With one date the valuation returns. *)
Lemma valuation_single_date_total (K : num) (Δt : num) (Sd : gmap Z vec) :
  (0 <= n)%Z -> is_Some (Sd !! 1%Z) ->
  exists tb, valuation K (Fin r) order n 1 exp_ solve Δt Sd = Ok tb.
Proof.
  intros Hn [S1 ES1]. unfold valuation.
  change (t_span 1) with [1%Z]. cbn [comprehension tail rev app backward comprehension_values].
  unfold cashflow_at. rewrite (proj2 (getitem_Ok _ _ _) ES1). cbn [mbind result_bind].
  rewrite (proj2 (getitem_Ok _ 1%Z _) (lookup_insert_eq _ _ _)). cbn [mbind result_bind].
  unfold Tensor.zeros. destruct (n <? 0)%Z eqn:E; [apply Z.ltb_lt in E; lia|].
  cbn [mbind result_bind]. unfold payoff_at.
  rewrite (proj2 (getitem_Ok _ 1%Z _) (lookup_singleton_eq _ _)). cbn [mbind result_bind].
  rewrite (proj2 (getitem_Ok _ 1%Z _) (lookup_insert_eq _ _ _)). cbn [mbind result_bind].
  unfold Tensor.zeros. rewrite E. cbn [mbind result_bind].
  unfold Tensor.stack1, Tensor.same_length. cbn [forallb mbind result_bind].
  unfold price_of. change (range 0 1) with [0%Z]. cbn [map].
  unfold Tensor.stack0, Tensor.same_length. cbn [forallb mbind result_bind].
  eexists. reflexivity.
Qed.

Lemma single_date_total (K : Q) (s : nat) :
  (0 <= n)%Z -> exists tb, run K s = (Ok tb, (s + N)%nat).
Proof.
  intros Hn.
  destruct (notebook_simulated (Fin Spot) (Fin σ) (Fin K) (Fin r) T order n 1
              exp_ sqrt_ solve (fun i => Fin (draws i)) s) as (Sd & E & HS); [lia | lia |].
  destruct (valuation_single_date_total (Fin K)
              (Fin (inject_Z (Z.pos T) / inject_Z 1)) Sd Hn) as [tb Etb].
  { destruct (HS 1%Z) as (St & -> & _); [lia | eauto]. }
  exists tb. rewrite E, Etb. f_equal. lia.
Qed.

(** The price of a one-date run, as a rational. *)
Lemma single_date_price (K : Q) (s s' : nat) (tb : tables) :
  (1 <= n)%Z -> run K s = (Ok tb, s') ->
  exists (S1 : vec) (e : Q),
    tab_S tb !! 1%Z = Some S1 /\ finite_vec N S1 /\ 0 <= e /\
    exp_ ((Num.opp (Fin r) * Num.of_Z 0) * tab_dt tb)%num = Fin e /\
    (tab_price tb == Fin (one_date_price n K S1 e))%num.
Proof.
  intros Hn H.
  pose proof (notebook_finite _ _ _ _ _ _ _ _ _ _ _ _ exp_finite_of_nonneg sqrt_finite _ _ _ H)
    as (_ & HSfin & HCFfin & _).
  pose proof (candidate_payoff_entries _ _ _ _ _ _ _ _ _ _ _ _ exp_finite_of_nonneg sqrt_finite _ _ _ H)
    as Hrule.
  pose proof (notebook_price _ _ _ _ _ _ _ _ _ _ _ _ _ _ _ H)
    as (Lpay & Eprice).
  pose proof (notebook_candidates _ _ _ _ _ _ _ _ _ _ _ _ _ _ _ H) as (Lcand & _ & _).
  pose proof (notebook_shapes _ _ _ _ _ _ _ _ _ _ _ _ _ _ _ H)
    as (_ & _ & _ & EΔ & _ & _ & HCF & _ & HCm & _ & _ & (payoff & Lp & _ & Est) & Epay & _).
  destruct (HSfin 1%Z) as (S1 & ES1 & LS1 & FS1); [lia|].
  destruct (HCF 1%Z) as (S1' & ES1' & Ecf); [lia|].
  rewrite ES1 in ES1'. injection ES1' as <-.
  assert (Hden : exists e, exp_ ((Num.opp (Fin r) * Num.of_Z 0) * tab_dt tb)%num = Fin e /\ 0 <= e).
  { rewrite EΔ. cbn. apply exp_nonneg. }
  destruct Hden as (e & Ee & He).
  exists S1, e. repeat split; auto. unfold one_date_price.
  rewrite Eprice, <- div_fin_positive by exact Hn.
  apply num_div_proper; [|reflexivity].
  rewrite <- sum_over_fin. apply sum_over_ext. intros p Hp.
  change (Z.to_nat 1) with 1%nat. rewrite sum_over_one.
  change (Z.of_nat 0) with 0%Z. rewrite Ee.
  (* the selected payoff of path [p] *)
  set (a := qmax (K - Reference.to_Q (nth p S1 Num.zero)) 0).
  assert (Ha : 0 <= a) by apply qmax_zero_nonneg.
  assert (Ecand : (Tensor.entry (tab_candidates tb) p 0 == Fin a)%num).
  { destruct (Hrule 1%Z p) as (cv & cf & Ecv & Ecf' & Hent); [lia | exact Hp |].
    change (Z.to_nat (1 - 1)) with 0%nat in Hent. rewrite Hent.
    rewrite HCm in Ecv. injection Ecv as <-.
    rewrite Ecf in Ecf'. injection Ecf' as <-.
    rewrite nth_repeat_zero.
    unfold Tensor.clamp_min, Tensor.ssub.
    rewrite (nth_map_default _ _ Num.zero) by (rewrite length_map; lia).
    rewrite (nth_map_default _ _ Num.zero) by lia.
    assert (Fp : finite (nth p S1 Num.zero)).
    { rewrite List.Forall_forall in FS1. apply FS1, nth_In. lia. }
    apply finite_inv in Fp as [sp Esp]. rewrite Esp. cbn [Num.sub].
    unfold Num.zero at 2 4. rewrite max_fin.
    subst a. rewrite Esp. cbn [Reference.to_Q].
    destruct (Num.zero >? Fin (qmax (K - sp) 0))%num eqn:E; [|reflexivity].
    apply gtb_fin in E. pose proof (qmax_zero_nonneg (K - sp)). lra. }
  assert (Epayoff : (Tensor.entry (tab_payoff tb) p 0 == Fin a)%num).
  { rewrite Epay. apply stack1_Ok in Est as (_ & _ & Hrows & _).
    rewrite Lp in Hrows. change (Z.to_nat 1) with 1%nat in Hrows.
    rewrite (first_one_rectangular _ 1 Hrows).
    unfold Tensor.entry in *.
    set (f := fun row : vec => Tensor.vmul row _).
    change (@nil num) with (f []). rewrite map_nth.
    assert (Hrow : length (nth p (tab_candidates tb) []) = 1%nat).
    { rewrite List.Forall_forall in Hrows. apply Hrows, nth_In. lia. }
    destruct (nth p (tab_candidates tb) []) as [|c [|c' row]]; try discriminate.
    subst f. cbn. cbn in Ecand. now apply positive_mask_nonneg. }
  rewrite Epayoff. cbn. reflexivity.
Qed.

End SingleDate.

Lemma one_date_price_mono (n : Z) (K1 K2 : Q) (S1 : vec) (e : Q) :
  (1 <= n)%Z -> 0 <= e -> K1 <= K2 ->
  one_date_price n K1 S1 e <= one_date_price n K2 S1 e.
Proof.
  intros Hn He HK. unfold one_date_price, Qdiv.
  apply Qmult_le_compat_r.
  - apply qsum_over_le. intros p _. apply Qmult_le_compat_r; [|exact He].
    apply qmax_zero_mono. lra.
  - apply Qinv_le_0_compat. unfold Qle. cbn. lia.
Qed.

Section SingleDateMonotone.

Variables (Spot σ r : Q) (T : positive) (order n : Z)
  (exp_ sqrt_ : num -> num) (solve : matrix -> matrix -> result matrix)
  (draws : nat -> Q).

Local Abbreviation N := (Z.to_nat n).
Local Abbreviation run K :=
  (notebook (Fin Spot) (Fin σ) (Fin K) (Fin r) T order n 1 exp_ sqrt_ solve
            (fun i => Fin (draws i))).

(** Claim C9, as amended.  With a single exercise date ([m = 1], so no
    regression takes part), finite parameters, at least one path, a
    non-negative finite exponential and all else fixed, the draws
    included: the run returns a price for every strike, and the price
    is non-decreasing in the strike. *)
Theorem price_monotone_in_strike_one_date (K1 K2 : Q) (s : nat) :
  (forall q, exists e, exp_ (Fin q) = Fin e /\ 0 <= e) ->
  finite (sqrt_ (Fin (inject_Z (Z.pos T) / inject_Z 1))) ->
  (1 <= n)%Z -> K1 <= K2 ->
  exists tb1 tb2 p1 p2,
    run K1 s = (Ok tb1, (s + N)%nat) /\
    run K2 s = (Ok tb2, (s + N)%nat) /\
    (tab_price tb1 == Fin p1)%num /\
    (tab_price tb2 == Fin p2)%num /\
    p1 <= p2.
Proof.
  intros Hexp Hsqrt Hn HK.
  destruct (single_date_total Spot σ r T order n exp_ sqrt_ solve draws K1 s) as [tb1 E1]; [lia|].
  destruct (single_date_total Spot σ r T order n exp_ sqrt_ solve draws K2 s) as [tb2 E2]; [lia|].
  destruct (single_date_price _ _ _ _ _ _ _ _ _ _ Hexp Hsqrt _ _ _ _ Hn E1)
    as (S1 & e1 & ES1 & _ & He1 & Ee1 & P1).
  destruct (single_date_price _ _ _ _ _ _ _ _ _ _ Hexp Hsqrt _ _ _ _ Hn E2)
    as (S2 & e2 & ES2 & _ & He2 & Ee2 & P2).
  assert (ES : tab_S tb1 = tab_S tb2 /\ tab_dt tb1 = tab_dt tb2).
  { apply notebook_Ok in E1
      as (Δ1 & o1 & _ & _ & _ & T1 & O1 & Sim1 & _ & _ & _ & _ & _ & _ & _ & _ & _ & D1).
    apply notebook_Ok in E2
      as (Δ2 & o2 & _ & _ & _ & T2 & O2 & Sim2 & _ & _ & _ & _ & _ & _ & _ & _ & _ & D2).
    rewrite T1 in T2. injection T2 as <-. rewrite O1 in O2. injection O2 as <-.
    rewrite Sim1 in Sim2. injection Sim2 as ES. split; congruence. }
  destruct ES as [ES ED]. rewrite ES, ES2 in ES1. injection ES1 as <-.
  rewrite ED, Ee2 in Ee1. injection Ee1 as <-.
  exists tb1, tb2, (one_date_price n K1 S2 e2), (one_date_price n K2 S2 e2).
  repeat split; auto. now apply one_date_price_mono.
Qed.

End SingleDateMonotone.

(** ** The ridge regression *)

Lemma entry_tabulate (f : nat -> nat -> num) (a b i j : nat) :
  (i < a)%nat -> (j < b)%nat ->
  Tensor.entry (map (fun i => map (fun j => f i j) (seq 0 b)) (seq 0 a)) i j
  = f i j.
Proof.
  intros Hi Hj. unfold Tensor.entry.
  rewrite (nth_map_default _ _ 0%nat) by (now rewrite length_seq).
  rewrite seq_nth by exact Hi.
  rewrite (nth_map_default _ _ 0%nat) by (now rewrite length_seq).
  now rewrite seq_nth by exact Hj.
Qed.

Lemma width_tabulate (f : nat -> nat -> num) (a b : nat) :
  (0 < a)%nat ->
  Tensor.width (map (fun i => map (fun j => f i j) (seq 0 b)) (seq 0 a)) = b.
Proof.
  intros Ha. destruct a as [|a]; [lia|]. cbn [seq map Tensor.width].
  now rewrite length_map, length_seq.
Qed.

Lemma mscale_tabulate (s : num) (f : nat -> nat -> num) (a b : nat) :
  Tensor.mscale s (map (fun i => map (fun j => f i j) (seq 0 b)) (seq 0 a))
  = map (fun i => map (fun j => (s * f i j)%num) (seq 0 b)) (seq 0 a).
Proof.
  unfold Tensor.mscale, Tensor.smul. rewrite map_map. apply map_ext.
  intros i. now rewrite map_map.
Qed.

Lemma eye_Ok (k : Z) (I : matrix) :
  Tensor.eye k = Ok I ->
  (0 <= k)%Z /\
  I = map (fun i => map (fun j => Num.of_bool (Nat.eqb i j)) (seq 0 (Z.to_nat k)))
          (seq 0 (Z.to_nat k)).
Proof.
  unfold Tensor.eye. destruct (k <? 0)%Z eqn:E; [discriminate|].
  apply Z.ltb_ge in E. intros [= <-]. auto.
Qed.

Lemma matmul_shape (A B C : matrix) :
  Tensor.matmul A B = Ok C ->
  C = map (fun r => map (fun j => Tensor.dot r (Tensor.column B j))
                        (seq 0 (Tensor.width B))) A.
Proof.
  unfold Tensor.matmul. destruct (_ =? _)%nat; [|discriminate]. now intros [= <-].
Qed.

Lemma bentry_entry (X : matrix) (M i j : nat) :
  length X = M -> Tensor.width X = M -> (i < M)%nat -> (j < M)%nat ->
  Tensor.bentry X i j = Tensor.entry X i j.
Proof.
  intros L W Hi Hj. unfold Tensor.bentry. rewrite L, W.
  destruct (M =? 1)%nat eqn:E; [|reflexivity].
  apply Nat.eqb_eq in E. now replace i with 0%nat by lia; replace j with 0%nat by lia.
Qed.

Lemma all_finite_Forall (X : matrix) :
  Tensor.all_finite X = true <-> Forall (Forall finite) X.
Proof.
  unfold Tensor.all_finite. rewrite forallb_forall, List.Forall_forall.
  split; intros H r Hr.
  - apply List.Forall_forall. intros a Ha. specialize (H r Hr).
    rewrite forallb_forall in H. now apply H.
  - apply forallb_forall. intros a Ha. specialize (H r Hr).
    rewrite List.Forall_forall in H. now apply H.
Qed.

Lemma finite_nth (x : vec) (j : nat) : Forall finite x -> finite (nth j x Num.zero).
Proof.
  intros H. destruct (Nat.lt_ge_cases j (length x)) as [Hj|Hj].
  - rewrite List.Forall_forall in H. now apply H, nth_In.
  - now rewrite nth_overflow.
Qed.

Lemma finite_column (X : matrix) (j : nat) :
  Forall (Forall finite) X -> Forall finite (Tensor.column X j).
Proof.
  intros H. unfold Tensor.column.
  induction H as [|r X Hr HX IH]; cbn; constructor; auto. now apply finite_nth.
Qed.

Lemma finite_vsum (x : vec) : Forall finite x -> finite (Tensor.vsum x).
Proof.
  unfold Tensor.vsum. assert (G : forall a, finite a -> Forall finite x ->
                                   finite (fold_left Num.add x a)).
  { induction x as [|b x IH]; intros a Ha Hx; cbn; [exact Ha|].
    inversion Hx; subst. apply IH; auto. now apply finite_add. }
  apply G. reflexivity.
Qed.

Lemma finite_dot (x y : vec) :
  Forall finite x -> Forall finite y -> finite (Tensor.dot x y).
Proof.
  intros Hx Hy. apply finite_vsum. apply Forall_zip_with_same; auto.
  intros. now apply finite_mul.
Qed.

Lemma finite_transpose (X : matrix) :
  Forall (Forall finite) X -> Forall (Forall finite) (Tensor.transpose X).
Proof.
  intros H. unfold Tensor.transpose. apply List.Forall_forall. intros c Hc.
  apply in_map_iff in Hc as (j & <- & _). now apply finite_column.
Qed.

Lemma finite_matmul (A B C : matrix) :
  Forall (Forall finite) A -> Forall (Forall finite) B ->
  Tensor.matmul A B = Ok C -> Forall (Forall finite) C.
Proof.
  intros HA HB E. apply matmul_shape in E. subst C.
  apply List.Forall_forall. intros row Hrow.
  apply in_map_iff in Hrow as (r & <- & Hr).
  apply List.Forall_forall. intros a Ha.
  apply in_map_iff in Ha as (j & <- & _).
  apply finite_dot; [|now apply finite_column].
  rewrite List.Forall_forall in HA. now apply HA.
Qed.

Lemma finite_entry (X : matrix) (i j : nat) :
  Forall (Forall finite) X -> finite (Tensor.entry X i j).
Proof.
  intros H. unfold Tensor.entry. apply finite_nth.
  destruct (Nat.lt_ge_cases i (length X)) as [Hi|Hi].
  - rewrite List.Forall_forall in H. now apply H, nth_In.
  - rewrite nth_overflow by exact Hi. constructor.
Qed.

Lemma finite_madd (A B C : matrix) :
  Forall (Forall finite) A -> Forall (Forall finite) B ->
  Tensor.madd A B = Ok C -> Forall (Forall finite) C.
Proof.
  intros HA HB E. unfold Tensor.madd in E.
  destruct (Tensor.broadcast_dim _ _); [|discriminate].
  destruct (Tensor.broadcast_dim _ _); [|discriminate].
  injection E as <-.
  apply List.Forall_forall. intros row Hrow.
  apply in_map_iff in Hrow as (i & <- & _).
  apply List.Forall_forall. intros a Ha.
  apply in_map_iff in Ha as (j & <- & _).
  apply finite_add; unfold Tensor.bentry; now apply finite_entry.
Qed.

Lemma finite_scaled_eye (lambda : num) (k : Z) (I : matrix) :
  finite lambda -> Tensor.eye k = Ok I ->
  Forall (Forall finite) (Tensor.mscale lambda I).
Proof.
  intros Hl E. apply eye_Ok in E as [_ ->]. rewrite mscale_tabulate.
  apply List.Forall_forall. intros row Hrow.
  apply in_map_iff in Hrow as (i & <- & _).
  apply List.Forall_forall. intros a Ha.
  apply in_map_iff in Ha as (j & <- & _).
  apply finite_mul; [exact Hl | apply finite_of_bool].
Qed.

Lemma vec_eqb_eq (x y : vec) :
  Reference.vec_eqb x y = true -> Forall2 Num.eq x y.
Proof.
  unfold Reference.vec_eqb. rewrite andb_true_iff, Nat.eqb_eq.
  revert y. induction x as [|a x IH]; intros [|b y] [L H]; try discriminate.
  - constructor.
  - cbn in H. apply andb_true_iff in H as [Hab H]. constructor.
    + now apply num_eqb_eq.
    + apply IH. split; [now injection L | exact H].
Qed.

Lemma mat_eqb_eq (X Y : matrix) : Reference.mat_eqb X Y = true -> mat_eq X Y.
Proof.
  revert Y. induction X as [|x X IH]; intros [|y Y] H; try discriminate.
  - constructor.
  - cbn in H. apply andb_true_iff in H as [Hxy H]. constructor.
    + now apply vec_eqb_eq.
    + now apply IH.
Qed.

(** The reference solver meets the contract: on a system without
    special values, what it returns solves the system. *)
Lemma reference_solve_sound (B A X : matrix) :
  Tensor.all_finite A = true -> Tensor.all_finite B = true ->
  Reference.solve B A = Ok X ->
  exists AX, Tensor.matmul A X = Ok AX /\ mat_eq AX B.
Proof.
  intros HA HB. unfold Reference.solve. rewrite HA, HB. cbn [andb negb].
  destruct (negb _); [discriminate|].
  destruct (Reference.eliminate _ _) as [X'|]; [|discriminate].
  destruct (Tensor.matmul A (map (map Fin) X')) as [AX|e] eqn:E; [|discriminate].
  destruct (Reference.mat_eqb AX B) eqn:Eq; [|discriminate].
  intros [= <-]. exists AX. split; [exact E | now apply mat_eqb_eq].
Qed.

Section RidgeFit.

Variable solve : matrix -> matrix -> result matrix.

(** What the notebook relies on from the library's solver: on a system
    without special values, a returned [X] solves [A X = B]. *)
Hypothesis solve_sound : forall B A X,
  Tensor.all_finite A = true -> Tensor.all_finite B = true ->
  solve B A = Ok X ->
  exists AX, Tensor.matmul A X = Ok AX /\ mat_eq AX B.

(** When the design matrix has as many columns as the global [order],
    the fit is [X β] for a solution [β] of the ridge normal equations
    [(XᵗX + λ I) β = Xᵗ Y]. *)
Lemma ridge_regression_fits (order : Z) (X : matrix) (Y : vec)
      (lambda : num) (y : vec) :
  finite lambda -> Forall (Forall finite) X -> Forall finite Y ->
  Z.of_nat (Tensor.width X) = order ->
  ridge_regression order solve X Y lambda = Ok y ->
  exists β XtX XtY A Aβ Xβ,
    Tensor.matmul (Tensor.transpose X) (Tensor.as_column Y) = Ok XtY /\
    Tensor.matmul (Tensor.transpose X) X = Ok XtX /\
    length A = Tensor.width X /\
    (forall i j, (i < Tensor.width X)%nat -> (j < Tensor.width X)%nat ->
       Tensor.entry A i j =
       (Tensor.entry XtX i j + lambda * Num.of_bool (Nat.eqb i j))%num) /\
    Tensor.matmul A β = Ok Aβ /\ mat_eq Aβ XtY /\
    Tensor.matmul X β = Ok Xβ /\ y = Tensor.squeeze Xβ /\
    length y = length X.
Proof.
  intros Fl FX FY Hw H. pose proof (ridge_regression_length _ _ _ _ _ _ H) as Ly.
  unfold ridge_regression in H.
  apply bind_Ok in H as (I & EI & H).
  pose proof (finite_scaled_eye lambda _ _ Fl EI) as FI.
  apply eye_Ok in EI as [Ho ->].
  apply bind_Ok in H as (XtY & E1 & H).
  apply bind_Ok in H as (XtX & E2 & H).
  apply bind_Ok in H as (A & E3 & H).
  apply bind_Ok in H as (β & E4 & H).
  apply bind_Ok in H as (Xβ & E5 & H). injection H as <-.
  assert (FXtY : Forall (Forall finite) XtY).
  { apply (finite_matmul _ _ _ (finite_transpose _ FX)) in E1; [exact E1|].
    unfold Tensor.as_column. apply List.Forall_forall. intros row Hrow.
    apply in_map_iff in Hrow as (a & <- & Ha). constructor; [|constructor].
    rewrite List.Forall_forall in FY. now apply FY. }
  assert (FA : Forall (Forall finite) A).
  { apply (finite_madd _ _ _ (finite_matmul _ _ _ (finite_transpose _ FX) FX E2) FI E3). }
  destruct (solve_sound _ _ _ (proj2 (all_finite_Forall _) FA)
              (proj2 (all_finite_Forall _) FXtY) E4) as (Aβ & E6 & E7).
  exists β, XtX, XtY, A, Aβ, Xβ.
  replace (Z.to_nat order) with (Tensor.width X) in E3 by lia.
  pose proof (matmul_shape _ _ _ E2) as EXtX.
  unfold Tensor.transpose in EXtX.
  remember (Tensor.width X) as M eqn:EM.
  assert (LXtX : length XtX = M).
  { rewrite EXtX. now rewrite !length_map, length_seq. }
  assert (EA : A = map (fun i => map (fun j =>
                 (Tensor.bentry XtX i j
                  + Tensor.bentry (Tensor.mscale lambda
                      (map (fun i => map (fun j => Num.of_bool (Nat.eqb i j)) (seq 0 M))
                           (seq 0 M))) i j)%num) (seq 0 M)) (seq 0 M)
            /\ (0 < M -> Tensor.width XtX = M)%nat).
  { unfold Tensor.madd in E3. unfold Tensor.mscale in E3 at 1 2.
    rewrite !length_map, length_seq, LXtX in E3.
    destruct (Nat.eq_dec M 0%nat) as [E0|E0].
    - rewrite E0 in *. destruct XtX; [|discriminate].
      cbn in E3. injection E3 as <-. split; [reflexivity | lia].
    - assert (W1 : Tensor.width XtX = M).
      { rewrite EXtX. destruct M as [|M']; [lia|].
        cbn [seq map Tensor.width length]. now rewrite length_map, length_seq. }
      assert (W2 : Tensor.width (map (Tensor.smul lambda)
                 (map (fun i => map (fun j => Num.of_bool (Nat.eqb i j)) (seq 0 M))
                      (seq 0 M))) = M).
      { destruct M as [|M']; [lia|]. cbn [seq map Tensor.width].
        unfold Tensor.smul. cbn [map length]. now rewrite !length_map, length_seq. }
      rewrite W1, W2 in E3. unfold Tensor.broadcast_dim in E3.
      rewrite Nat.eqb_refl in E3. injection E3 as <-. split; [reflexivity | auto]. }
  destruct EA as [EA WXtX].
  repeat split; auto.
  - rewrite EA. now rewrite length_map, length_seq.
  - intros i j Hi Hj. rewrite EA. rewrite entry_tabulate by assumption.
    rewrite (bentry_entry XtX M) by (auto; apply WXtX; lia).
    f_equal. rewrite (bentry_entry _ M); auto.
    + rewrite mscale_tabulate. now apply entry_tabulate.
    + unfold Tensor.mscale. now rewrite !length_map, length_seq.
    + destruct M as [|M']; [lia|]. cbn [seq map Tensor.mscale Tensor.width].
      unfold Tensor.smul. cbn [map length]. now rewrite !length_map, length_seq.
Qed.

End RidgeFit.

Lemma length_transpose (X : matrix) :
  length (Tensor.transpose X) = Tensor.width X.
Proof. unfold Tensor.transpose. now rewrite length_map, length_seq. Qed.

Lemma width_transpose (X : matrix) :
  (0 < Tensor.width X)%nat -> Tensor.width (Tensor.transpose X) = length X.
Proof.
  intros H. unfold Tensor.transpose.
  destruct (Tensor.width X) as [|w]; [lia|]. cbn [seq map Tensor.width].
  unfold Tensor.column. apply length_map.
Qed.

(** The identity of [ridge_regression] has the size of the global
    [order]: a design matrix of two or more columns whose number is not
    [order] is refused on the shapes (unless [order] is 1, when the
    penalty is broadcast over the whole matrix). *)
Lemma ridge_regression_other_width (order : Z)
      (solve : matrix -> matrix -> result matrix)
      (X : matrix) (Y : vec) (lambda : num) :
  (2 <= Tensor.width X)%nat -> order <> 1%Z ->
  order <> Z.of_nat (Tensor.width X) ->
  ridge_regression order solve X Y lambda = Raise RuntimeError.
Proof.
  intros HM H1 Hne. unfold ridge_regression, Tensor.eye.
  destruct (order <? 0)%Z eqn:E; [reflexivity|]. apply Z.ltb_ge in E.
  cbn [mbind result_bind].
  destruct (Tensor.matmul (Tensor.transpose X) (Tensor.as_column Y))
    as [XtY|e] eqn:E1.
  2:{ unfold Tensor.matmul in E1. destruct (_ =? _)%nat; [discriminate|].
      now injection E1 as <-. }
  cbn [mbind result_bind].
  assert (E2 : exists XtX, Tensor.matmul (Tensor.transpose X) X = Ok XtX
                           /\ length XtX = Tensor.width X).
  { unfold Tensor.matmul. rewrite width_transpose by lia.
    rewrite Nat.eqb_refl. eexists. split; [reflexivity|].
    now rewrite length_map, length_transpose. }
  destruct E2 as (XtX & -> & L). cbn [mbind result_bind].
  unfold Tensor.madd, Tensor.mscale. rewrite !length_map, length_seq, L.
  unfold Tensor.broadcast_dim at 1.
  destruct (Nat.eqb_spec (Tensor.width X) (Z.to_nat order)) as [Eq|_]; [lia|].
  destruct (Nat.eqb_spec (Tensor.width X) 1) as [Eq|_]; [lia|].
  destruct (Nat.eqb_spec (Z.to_nat order) 1) as [Eq|_]; [lia|].
  reflexivity.
Qed.

(** ** The recurrence of the basis *)

Lemma fold_left_snoc {A B} (f : A -> B -> A) (l : list B) (b : B) (a : A) :
  fold_left f (l ++ [b]) a = f (fold_left f l a) b.
Proof. now rewrite fold_left_app. Qed.

(** The columns after [i] passes of the loop: there are [2 + i] of
    them, of the length of [x]; the first two are 1 and [x] and each
    later one follows the recurrence. *)
Lemma chebyshev_columns_steps (x : vec) (i : nat) :
  let B := fold_left (chebyshev_step x) (range 2 (2 + Z.of_nat i))
                     [Tensor.ones_like x; x] in
  length B = (2 + i)%nat /\
  Forall (fun c => length c = length x) B /\
  nth 0 B [] = Tensor.ones_like x /\
  nth 1 B [] = x /\
  forall j, (2 <= j < 2 + i)%nat ->
    nth j B [] =
    Tensor.vsub (Tensor.vmul (Tensor.smul (Fin 2) x) (nth (j - 1) B []))
                (nth (j - 2) B []).
Proof.
  induction i as [|i IH].
  - rewrite range_nil by lia. cbn [fold_left]. repeat split; auto; try lia.
    repeat constructor. apply length_map.
  - assert (E : (2 + Z.of_nat (Datatypes.S i) = 2 + Z.of_nat i + 1)%Z) by lia.
    rewrite E. clear E. rewrite range_snoc by lia. rewrite fold_left_snoc.
    cbv zeta in IH. destruct IH as (L & Hall & H0 & H1 & Hrec).
    set (B := fold_left (chebyshev_step x) (range 2 (2 + Z.of_nat i))
                [Tensor.ones_like x; x]) in *.
    unfold chebyshev_step at 1.
    replace (Z.to_nat (2 + Z.of_nat i - 1)) with (2 + i - 1)%nat by lia.
    replace (Z.to_nat (2 + Z.of_nat i - 2)) with (2 + i - 2)%nat by lia.
    cbv zeta. split; [rewrite length_app, L; cbn; lia|].
    split; [|split; [|split]].
    + apply Forall_app. split; [exact Hall|]. constructor; [|constructor].
      rewrite List.Forall_forall in Hall.
      rewrite length_vsub, length_vmul, length_smul.
      rewrite (Hall (nth (2 + i - 1) B [])) by (apply nth_In; lia).
      rewrite (Hall (nth (2 + i - 2) B [])) by (apply nth_In; lia). lia.
    + rewrite app_nth1 by lia. exact H0.
    + rewrite app_nth1 by lia. exact H1.
    + intros j Hj. destruct (decide (j = 2 + i)%nat) as [->|Hne].
      * rewrite app_nth2 by lia. rewrite L, Nat.sub_diag. cbn [nth].
        rewrite !app_nth1 by lia. reflexivity.
      * rewrite !app_nth1 by lia. apply Hrec. lia.
Qed.

(** For [k >= 2] the basis has [k] columns and follows the recurrence of
    the Chebyshev polynomials of the first kind. *)
Lemma chebyshev_basis_recurrence (x : vec) (k : Z) :
  (2 <= k)%Z ->
  exists X,
    chebyshev_basis x k = Ok X /\
    length X = length x /\
    Forall (fun row => length row = Z.to_nat k) X /\
    forall p, (p < length x)%nat ->
      Tensor.entry X p 0 = Num.one /\
      Tensor.entry X p 1 = nth p x Num.zero /\
      forall j, (2 <= j < Z.to_nat k)%nat ->
        Tensor.entry X p j =
        ((Fin 2 * nth p x Num.zero) * Tensor.entry X p (j - 1)
         - Tensor.entry X p (j - 2))%num.
Proof.
  intros Hk. unfold chebyshev_basis, chebyshev_columns.
  replace (range 2 k) with (range 2 (2 + Z.of_nat (Z.to_nat (k - 2))))
    by (f_equal; lia).
  destruct (chebyshev_columns_steps x (Z.to_nat (k - 2))) as (L & Hall & H0 & H1 & Hrec).
  set (B := fold_left (chebyshev_step x) (range 2 (2 + Z.of_nat (Z.to_nat (k - 2))))
              [Tensor.ones_like x; x]) in *.
  destruct (stack1_total B (length x)) as (X & EX & LX); [|exact Hall|].
  { intros E. rewrite E in L. cbn in L. lia. }
  exists X. split; [exact EX|]. split; [exact LX|].
  apply stack1_Ok in EX as (_ & _ & Hrows & Hent). split.
  - rewrite L in Hrows. replace (Z.to_nat k) with (2 + Z.to_nat (k - 2))%nat by lia.
    exact Hrows.
  - intros p Hp. rewrite !Hent, H0, H1. split; [now apply nth_ones_like|].
    split; [reflexivity|]. intros j Hj. rewrite !Hent, Hrec by lia.
    assert (Lc : forall j', (j' < 2 + Z.to_nat (k - 2))%nat -> length (nth j' B []) = length x).
    { intros j' Hj'. rewrite List.Forall_forall in Hall. apply Hall, nth_In. lia. }
    unfold Tensor.vsub, Tensor.vmul, Tensor.smul.
    rewrite (nth_zip_with _ _ _ Num.zero Num.zero)
      by (rewrite ?length_zip_with, ?length_map, ?Lc; lia).
    rewrite (nth_zip_with _ _ _ Num.zero Num.zero)
      by (rewrite ?length_map, ?Lc; lia).
    rewrite (nth_map_default _ _ Num.zero) by lia. reflexivity.
Qed.

(** ** The continuation value as a ridge fit *)

Lemma scale_scaled (St x : vec) (lo hi : num) :
  Tensor.vmin St = Ok lo -> Tensor.vmax St = Ok hi -> scale St = Ok x ->
  scaled lo hi St x.
Proof.
  intros Hlo Hhi H. unfold scale in H. rewrite Hlo, Hhi in H.
  cbn [mbind result_bind] in H. injection H as <-.
  split; [unfold Tensor.sadd, Tensor.smul; now rewrite !length_map|].
  intros p Hp. unfold Tensor.sadd, Tensor.smul.
  rewrite (nth_map_default _ _ Num.zero) by (now rewrite length_map).
  now rewrite (nth_map_default _ _ Num.zero) by exact Hp.
Qed.

Lemma scaled_finite (St x : vec) (lo hi : Q) :
  lo < hi -> Forall finite St -> scaled (Fin lo) (Fin hi) St x ->
  Forall finite x.
Proof.
  intros Hlt HSt [Hlen Hx]. apply List.Forall_forall. intros a Ha.
  apply (In_nth _ _ Num.zero) in Ha as (p & Hp & <-).
  rewrite Hx by lia.
  assert (E : (hi - lo ?= 0) = Gt) by (apply Qgt_alt; lra).
  cbn [Num.sub Num.div Num.add Num.mul]. rewrite E.
  apply finite_add; [|reflexivity].
  apply finite_mul; [reflexivity | now apply finite_nth].
Qed.

Lemma chebyshev_matrix_basis (x : vec) (k : Z) (X : matrix) :
  (2 <= k)%Z -> chebyshev_basis x k = Ok X ->
  chebyshev_matrix (Z.to_nat k) x X.
Proof.
  intros Hk E.
  destruct (chebyshev_basis_recurrence x k Hk) as (X' & E' & HL & HW & HE).
  rewrite E in E'. injection E' as <-. now split; [|split].
Qed.

(** The basis of a vector of finite entries has finite entries. *)
Lemma chebyshev_matrix_finite (k : nat) (x : vec) (X : matrix) :
  Forall finite x -> chebyshev_matrix k x X -> Forall (Forall finite) X.
Proof.
  intros Hx (HL & HW & HE).
  assert (Hent : forall p j, (p < length x)%nat -> (j < k)%nat ->
            finite (Tensor.entry X p j)).
  { intros p j Hp. destruct (HE p Hp) as (H0 & H1 & Hrec).
    induction j as [j IH] using lt_wf_ind. intros Hj.
    destruct j as [|[|j]].
    - rewrite H0. reflexivity.
    - rewrite H1. now apply finite_nth.
    - rewrite Hrec by lia. apply finite_sub; [apply finite_mul|].
      + apply finite_mul; [reflexivity | now apply finite_nth].
      + apply IH; lia.
      + apply IH; lia. }
  apply List.Forall_forall. intros row Hrow.
  apply (In_nth _ _ []) in Hrow as (p & Hp & <-).
  apply List.Forall_forall. intros a Ha.
  apply (In_nth _ _ Num.zero) in Ha as (j & Hj & <-).
  rewrite List.Forall_forall in HW.
  rewrite (HW (nth p X [])) in Hj by (apply nth_In; exact Hp).
  apply (Hent p j); [lia | exact Hj].
Qed.

Section RecursionClaim.

Variables (Spot σ K r : Q) (T : positive) (order n m : Z)
  (exp_ sqrt_ : num -> num) (solve : matrix -> matrix -> result matrix)
  (draws : nat -> Q).

Hypothesis exp_finite : forall q, finite (exp_ (Fin q)).
Hypothesis sqrt_finite :
  finite (sqrt_ (Fin (inject_Z (Z.pos T) / inject_Z m))).
Hypothesis solve_sound : forall B A X,
  Tensor.all_finite A = true -> Tensor.all_finite B = true ->
  solve B A = Ok X ->
  exists AX, Tensor.matmul A X = Ok AX /\ mat_eq AX B.
Hypothesis order_columns : (2 <= order)%Z.

Local Abbreviation N := (Z.to_nat n).
Local Abbreviation run :=
  (notebook (Fin Spot) (Fin σ) (Fin K) (Fin r) T order n m exp_ sqrt_ solve
            (fun i => Fin (draws i))).

(** Claim C3, as amended.  For a run that returned, with finite
    parameters and draws, a finite exponential, a finite square root of
    the time step, a polynomial order of at least 2 and a solver whose
    solutions solve the system: at the maturity [m] the continuation
    value is the zero vector and the value is the terminal cashflow
    times the discount factor [d = exp(-r * Δt)]; at every earlier date
    [t], for every path, the value at [t] is [d] times the cashflow
    when the cashflow is strictly greater than the continuation value,
    and [d] times the value at [t + 1] otherwise; and when the prices
    [S[t]] are not all equal, with minimum [lo] and maximum [hi], the
    continuation value at [t] is the ridge fit (penalty 100) of the
    value at [t + 1] on the matrix [X] of the [order] Chebyshev columns
    [1], [x], [2 x T_(j-1) - T_(j-2)] of the scaled prices
    [x = a * S[t] + b], [a = 2 / (hi - lo)],
    [b = (-0.5 * a) * (lo + hi)]. *)
Theorem backward_induction_recursion (s s' : nat) (tb : tables) :
  run s = (Ok tb, s') ->
  let d := exp_ (Num.opp (Fin r) * tab_dt tb)%num in
  tab_continuation_value tb !! m = Some (repeat Num.zero N) /\
  (exists cf_T,
     tab_cashflow tb !! m = Some cf_T /\
     tab_value tb !! m = Some (map (fun a => a * d)%num cf_T)) /\
  forall t, (1 <= t < m)%Z ->
    exists St v_next cv cf v,
      tab_S tb !! t = Some St /\
      tab_value tb !! (t + 1)%Z = Some v_next /\
      tab_continuation_value tb !! t = Some cv /\
      tab_cashflow tb !! t = Some cf /\
      tab_value tb !! t = Some v /\
      length v = N /\
      (forall p, (p < N)%nat ->
         (nth p v Num.zero ==
          d * (if (nth p cf Num.zero >? nth p cv Num.zero)%num
               then nth p cf Num.zero else nth p v_next Num.zero))%num) /\
      forall lo hi,
        Tensor.vmin St = Ok (Fin lo) -> Tensor.vmax St = Ok (Fin hi) ->
        lo < hi ->
        exists x X,
          scaled (Fin lo) (Fin hi) St x /\
          chebyshev_matrix (Z.to_nat order) x X /\
          ridge_fit (Fin 100) X v_next cv.
Proof.
  intros H d.
  pose proof (backward_recursion_values _ _ _ _ _ _ _ _ _ _ _ _
                exp_finite sqrt_finite _ _ _ H) as (H1 & H2 & H3).
  fold d in H1, H2, H3.
  split; [exact H1|]. split; [exact H2|].
  intros t Ht.
  destruct (H3 t Ht)
    as (St & x & X & v_next & cv & cf & v & R1 & R2 & R3 & R4 & R5 & R6 & R7
        & R8 & R9 & R10).
  exists St, v_next, cv, cf, v. repeat (split; [assumption|]).
  intros lo hi Hlo Hhi Hlt. exists x, X.
  pose proof (notebook_finite _ _ _ _ _ _ _ _ _ _ _ _ exp_finite sqrt_finite
                _ _ _ H) as (_ & HS & _ & HV).
  destruct (HS t) as (St' & ESt & _ & FSt); [lia|].
  rewrite R1 in ESt. injection ESt as <-.
  destruct (HV (t + 1)%Z) as (v' & Ev & _ & Fv); [lia|].
  rewrite R4 in Ev. injection Ev as <-.
  pose proof (scale_scaled _ _ _ _ Hlo Hhi R2) as Hx.
  pose proof (chebyshev_matrix_basis _ _ _ order_columns R3) as HX.
  split; [exact Hx|]. split; [exact HX|].
  pose proof (scaled_finite _ _ _ _ Hlt FSt Hx) as Fx.
  pose proof (chebyshev_matrix_finite _ _ _ Fx HX) as FX.
  assert (HW : Z.of_nat (Tensor.width X) = order).
  { destruct HX as (HL & HWr & _). destruct Hx as [Lx _].
    destruct St as [|a St]; [discriminate Hlo|].
    destruct X as [|row X]; [cbn in HL, Lx; lia|].
    apply Forall_cons in HWr as [Hrow _]. cbn [Tensor.width]. lia. }
  destruct (ridge_regression_fits solve solve_sound order X v_next (Fin 100) cv
              eq_refl FX Fv HW R5)
    as (β & XtX & XtY & A & Aβ & Xβ & E1 & E2 & E3 & E4 & E5 & E6 & E7 & E8 & _).
  exists β, XtX, XtY, A, Aβ, Xβ. repeat (split; [assumption|]). exact E8.
Qed.

End RecursionClaim.

(** ** The remaining claims, with concrete runs *)

Lemma exp_series_pos (k : nat) : forall (x term : Q) (deg : positive),
  0 <= x -> 0 < term -> 0 < Reference.exp_series k x term deg.
Proof.
  induction k as [|k IH]; intros x term deg Hx Ht;
    cbn [Reference.exp_series]; [exact Ht|].
  assert (H : 0 <= Reference.exp_series k x
                     (term * x / inject_Z (Z.pos deg)) (Pos.succ deg)).
  { destruct (Qlt_le_dec 0 x) as [Hpos|Hzero].
    - apply Qlt_le_weak, IH; [exact Hx|].
      apply Qlt_shift_div_l; [reflexivity|]. rewrite Qmult_0_l.
      apply Qmult_lt_0_compat; assumption.
    - assert (E : x == 0) by lra.
      clear IH. generalize (Pos.succ deg).
      assert (G : forall t d, t == 0 -> Reference.exp_series k x t d == 0).
      { induction k as [|k IHk]; intros t d Ht0;
          cbn [Reference.exp_series]; [exact Ht0|].
        rewrite IHk; [lra|]. rewrite Ht0. unfold Qdiv. ring. }
      intros d. rewrite G; [lra|]. rewrite E. unfold Qdiv. ring. }
  lra.
Qed.

Lemma reference_exp_nonneg (q : Q) :
  exists e, Reference.exp (Fin q) = Fin e /\ 0 <= e.
Proof.
  exists (Reference.exp_Q q). split; [reflexivity|]. unfold Reference.exp_Q.
  destruct (q ?= 0) eqn:E.
  - rewrite Qred_correct. apply Qlt_le_weak, exp_series_pos; [|reflexivity].
    apply Qeq_alt in E. lra.
  - apply Qinv_le_0_compat. rewrite Qred_correct.
    apply Qlt_le_weak, exp_series_pos; [|reflexivity].
    apply Qlt_alt in E. lra.
  - rewrite Qred_correct. apply Qlt_le_weak, exp_series_pos; [|reflexivity].
    apply Qgt_alt in E. lra.
Qed.

Lemma reference_exp_finite (q : Q) : finite (Reference.exp (Fin q)).
Proof. reflexivity. Qed.

(** The fit of [ridge_regression] with the reference solver. *)
Lemma reference_ridge_regression_fits (order : Z) (X : matrix) (Y : vec)
      (lambda : num) (y : vec) :
  finite lambda -> Forall (Forall finite) X -> Forall finite Y ->
  Z.of_nat (Tensor.width X) = order ->
  ridge_regression order Reference.solve X Y lambda = Ok y ->
  exists β XtX XtY A Aβ Xβ,
    Tensor.matmul (Tensor.transpose X) (Tensor.as_column Y) = Ok XtY /\
    Tensor.matmul (Tensor.transpose X) X = Ok XtX /\
    length A = Tensor.width X /\
    (forall i j, (i < Tensor.width X)%nat -> (j < Tensor.width X)%nat ->
       Tensor.entry A i j =
       (Tensor.entry XtX i j + lambda * Num.of_bool (Nat.eqb i j))%num) /\
    Tensor.matmul A β = Ok Aβ /\ mat_eq Aβ XtY /\
    Tensor.matmul X β = Ok Xβ /\ y = Tensor.squeeze Xβ /\
    length y = length X.
Proof. apply ridge_regression_fits. exact reference_solve_sound. Qed.

(** *** C1 *)

Lemma first_one_selects_first_positive_witness :
  Forall (fun row => length row = 4%nat) sample_payoffs /\
  length (first_one (map (map Fin) sample_payoffs)) = length sample_payoffs.
Proof.
  assert (H : Forall (fun row => length row = 4%nat) sample_payoffs)
    by (repeat constructor).
  split; [exact H|].
  exact (proj1 (first_one_selects_first_positive sample_payoffs 4 H)).
Defined.

(** With an infinite candidate after the first positive one the row
    [5, inf] becomes [5, NaN]: the mask multiplies the infinite entry
    by zero, and the entry that the claim calls zero is NaN. *)
Lemma first_one_infinite_entry :
  first_one [[Fin 5; PInf]] = [[Fin (5 * (1 * 1)); NaN]].
Proof. reflexivity. Qed.

(** *** C2 *)

(** Claim C2 (the code departs from it).  In [tie_run], at the first
    date the first path has the cashflow 1 and the continuation value
    1.  The recursion of the values, which compares
    [cashflow > continuation_value], continues at this tie: the value
    is the discounted value 51 of the second date.  The payoff line,
    which compares [continuation_value > cashflow], exercises at the
    same tie: the candidate payoff is the cashflow 1, not 0, and it is
    the payoff selected for the path, whose payoff of 51 at the second
    date is dropped. *)
Theorem payoff_exercises_at_tie :
  exists tb cf cv v v_next,
    tie_run = (Ok tb, 4%nat) /\
    tab_cashflow tb !! 1%Z = Some cf /\
    tab_continuation_value tb !! 1%Z = Some cv /\
    tab_value tb !! 1%Z = Some v /\
    tab_value tb !! 2%Z = Some v_next /\
    (nth 0 cf Num.zero == Fin 1)%num /\
    (nth 0 cv Num.zero == Fin 1)%num /\
    (nth 0 cf Num.zero >? nth 0 cv Num.zero)%num = false /\
    (nth 0 cv Num.zero >? nth 0 cf Num.zero)%num = false /\
    (nth 0 v Num.zero == tab_discount tb * nth 0 v_next Num.zero)%num /\
    (nth 0 v Num.zero == Fin 51)%num /\
    (Tensor.entry (tab_candidates tb) 0 0 == Fin 1)%num /\
    ~ (Tensor.entry (tab_candidates tb) 0 0 == Num.zero)%num /\
    (Tensor.entry (tab_payoff tb) 0 0 == Fin 1)%num /\
    (Tensor.entry (tab_payoff tb) 0 1 == Num.zero)%num.
Proof.
  exists (tables_of tie_run).
  exists (default [] (tab_cashflow (tables_of tie_run) !! 1%Z)).
  exists (default [] (tab_continuation_value (tables_of tie_run) !! 1%Z)).
  exists (default [] (tab_value (tables_of tie_run) !! 1%Z)).
  exists (default [] (tab_value (tables_of tie_run) !! 2%Z)).
  do 12 (split; [vm_compute; reflexivity|]).
  split; [vm_compute; discriminate|].
  split; vm_compute; reflexivity.
Qed.

(** What the payoff line computes.  After the backward pass of a run
    that returned (finite parameters and draws, a finite exponential
    and a finite square root of the time step), for every date [t] from
    1 to [m] and every path [p], the candidate payoff is 0 when the
    continuation value is strictly greater than the cashflow, and the
    cashflow otherwise. *)
Lemma candidate_payoff_rule (Spot σ K r : Q) (T : positive)
        (order n m : Z) (exp_ sqrt_ : num -> num)
        (solve : matrix -> matrix -> result matrix) (draws : nat -> Q)
        (s s' : nat) (tb : tables) :
  (forall q, finite (exp_ (Fin q))) ->
  finite (sqrt_ (Fin (inject_Z (Z.pos T) / inject_Z m))) ->
  notebook (Fin Spot) (Fin σ) (Fin K) (Fin r) T order n m exp_ sqrt_ solve
           (fun i => Fin (draws i)) s = (Ok tb, s') ->
  forall t p, (1 <= t <= m)%Z -> (p < Z.to_nat n)%nat ->
    exists cv cf,
      tab_continuation_value tb !! t = Some cv /\
      tab_cashflow tb !! t = Some cf /\
      (Tensor.entry (tab_candidates tb) p (Z.to_nat (t - 1)) ==
       if (nth p cv Num.zero >? nth p cf Num.zero)%num
       then Num.zero else nth p cf Num.zero)%num.
Proof.
  intros Hexp Hsqrt H. exact (candidate_payoff_entries _ _ _ _ _ _ _ _ _ _ _ _
                                Hexp Hsqrt _ _ _ H).
Qed.

Lemma candidate_payoff_rule_witness :
  (forall q, finite (Reference.exp (Fin q))) /\
  finite (Reference.sqrt (Fin (inject_Z 2 / inject_Z 2))) /\
  strike_run 33 = (Ok (tables_of (strike_run 33)), 4%nat) /\
  exists cv cf,
    tab_continuation_value (tables_of (strike_run 33)) !! 1%Z = Some cv /\
    tab_cashflow (tables_of (strike_run 33)) !! 1%Z = Some cf /\
    (Tensor.entry (tab_candidates (tables_of (strike_run 33))) 0
                  (Z.to_nat (1 - 1)) ==
     if (nth 0 cv Num.zero >? nth 0 cf Num.zero)%num
     then Num.zero else nth 0 cf Num.zero)%num.
Proof.
  assert (H : strike_run 33 = (Ok (tables_of (strike_run 33)), 4%nat))
    by (vm_compute; reflexivity).
  split; [exact reference_exp_finite|]. split; [reflexivity|].
  split; [exact H|].
  apply (candidate_payoff_rule 32 1 33 0 2 2 2 2 Reference.exp Reference.sqrt
           Reference.solve strike_draws 0%nat 4%nat (tables_of (strike_run 33))
           reference_exp_finite eq_refl H 1%Z 0%nat); [lia | simpl; lia].
Defined.

(** *** C3 *)

(** A fit of the regression with as many identity rows as the basis
    has columns is a ridge fit. *)
Lemma reference_ridge_fit (order : Z) (X : matrix) (Y y : vec) :
  Forall (Forall finite) X -> Forall finite Y ->
  Z.of_nat (Tensor.width X) = order ->
  ridge_regression order Reference.solve X Y (Fin 100) = Ok y ->
  ridge_fit (Fin 100) X Y y.
Proof.
  intros FX FY HW H.
  destruct (reference_ridge_regression_fits order X Y (Fin 100) y eq_refl
              FX FY HW H)
    as (β & XtX & XtY & A & Aβ & Xβ & E1 & E2 & E3 & E4 & E5 & E6 & E7 & E8 & _).
  exists β, XtX, XtY, A, Aβ, Xβ. repeat (split; [assumption|]). exact E8.
Qed.

(** Outside the hypotheses of the recursion.  With an infinite strike
    the cashflow of the first path at the first date is not greater
    than its continuation value, and yet the value is NaN, not the
    discounted value of the next date, which is infinite.  With the
    polynomial order 1 the continuation value of the first path at the
    first date is 9, where the ridge fit of the same value on the same
    basis is 3/17. *)
Lemma recursion_outside_hypotheses :
  (exists tb cf cv v v_next,
     infinite_strike_run = (Ok tb, 4%nat) /\
     tab_cashflow tb !! 1%Z = Some cf /\
     tab_continuation_value tb !! 1%Z = Some cv /\
     tab_value tb !! 1%Z = Some v /\
     tab_value tb !! 2%Z = Some v_next /\
     (nth 0 cf Num.zero >? nth 0 cv Num.zero)%num = false /\
     (tab_discount tb * nth 0 v_next Num.zero)%num = PInf /\
     nth 0 v Num.zero = NaN) /\
  (exists tb St x X v_next cv y,
     order_one_run = (Ok tb, 4%nat) /\
     tab_S tb !! 1%Z = Some St /\
     scale St = Ok x /\
     chebyshev_basis x 1 = Ok X /\
     tab_value tb !! 2%Z = Some v_next /\
     tab_continuation_value tb !! 1%Z = Some cv /\
     (nth 0 cv Num.zero == Fin 9)%num /\
     ridge_fit (Fin 100) X v_next y /\
     (nth 0 y Num.zero == Fin (3 # 17))%num).
Proof.
  split.
  - exists (tables_of infinite_strike_run).
    exists (default [] (tab_cashflow (tables_of infinite_strike_run) !! 1%Z)).
    exists (default []
              (tab_continuation_value (tables_of infinite_strike_run) !! 1%Z)).
    exists (default [] (tab_value (tables_of infinite_strike_run) !! 1%Z)).
    exists (default [] (tab_value (tables_of infinite_strike_run) !! 2%Z)).
    repeat (split; [vm_compute; reflexivity|]). vm_compute; reflexivity.
  - set (tb := tables_of order_one_run).
    set (St := default [] (tab_S tb !! 1%Z)).
    set (x := match scale St with Ok x => x | Raise _ => [] end).
    set (X := match chebyshev_basis x 1 with Ok X => X | Raise _ => [] end).
    set (v_next := default [] (tab_value tb !! 2%Z)).
    set (y := match ridge_regression 2 Reference.solve X v_next (Fin 100)
              with Ok y => y | Raise _ => [] end).
    exists tb, St, x, X, v_next.
    exists (default [] (tab_continuation_value tb !! 1%Z)), y.
    do 7 (split; [vm_compute; reflexivity|]).
    split; [|vm_compute; reflexivity].
    apply (reference_ridge_fit 2).
    + vm_compute. repeat constructor.
    + vm_compute. repeat constructor.
    + reflexivity.
    + vm_compute; reflexivity.
Qed.

Lemma backward_induction_recursion_witness :
  (forall q, finite (Reference.exp (Fin q))) /\
  finite (Reference.sqrt (Fin (inject_Z 2 / inject_Z 2))) /\
  (2 <= 2)%Z /\
  strike_run 33 = (Ok (tables_of (strike_run 33)), 4%nat) /\
  exists St v_next cv lo hi,
    tab_S (tables_of (strike_run 33)) !! 1%Z = Some St /\
    tab_value (tables_of (strike_run 33)) !! 2%Z = Some v_next /\
    tab_continuation_value (tables_of (strike_run 33)) !! 1%Z = Some cv /\
    Tensor.vmin St = Ok (Fin lo) /\ Tensor.vmax St = Ok (Fin hi) /\
    lo < hi /\
    exists x X,
      scaled (Fin lo) (Fin hi) St x /\
      chebyshev_matrix (Z.to_nat 2) x X /\
      ridge_fit (Fin 100) X v_next cv.
Proof.
  assert (H : strike_run 33 = (Ok (tables_of (strike_run 33)), 4%nat))
    by (vm_compute; reflexivity).
  assert (Ho : (2 <= 2)%Z) by lia.
  split; [exact reference_exp_finite|]. split; [reflexivity|].
  split; [exact Ho|]. split; [exact H|].
  destruct (proj2 (proj2
              (backward_induction_recursion 32 1 33 0 2 2 2 2 Reference.exp
                 Reference.sqrt Reference.solve strike_draws
                 reference_exp_finite eq_refl reference_solve_sound Ho
                 0%nat 4%nat (tables_of (strike_run 33)) H)) 1%Z ltac:(lia))
    as (St & v_next & cv & cf & v & R1 & R2 & R3 & _ & _ & _ & _ & R8).
  exists St, v_next, cv, (64 # 2), (128 # 2).
  split; [exact R1|]. split; [exact R2|]. split; [exact R3|].
  vm_compute in R1. injection R1 as <-.
  split; [reflexivity|]. split; [reflexivity|]. split; [reflexivity|].
  apply R8; reflexivity.
Defined.

(** *** C4 *)

(** Claim C4 (the code departs from it).  [ridge_regression] builds the
    identity from the global [order], not from the columns of its
    argument: with [order = 25], a design matrix of one row and two
    columns is refused with a shape error, whatever the solver. *)
Theorem ridge_regression_needs_order_columns
        (solve : matrix -> matrix -> result matrix) :
  ridge_regression 25 solve [[Fin 1; Fin 2]] [Fin 1] (Fin 100)
  = Raise RuntimeError.
Proof. reflexivity. Qed.

(** With [order = 1] the penalty is added to every entry of [XᵗX]: for
    the row (1, 2) and the target 1 the fit is 1, where the ridge
    normal equations with the 2 x 2 identity give 1/21. *)
Lemma ridge_regression_order_one_broadcasts :
  exists y,
    ridge_regression 1 Reference.solve [[Fin 1; Fin 2]] [Fin 1] (Fin 100)
      = Ok [y] /\ (y == Fin 1)%num /\
  exists y',
    ridge_regression 2 Reference.solve [[Fin 1; Fin 2]] [Fin 1] (Fin 100)
      = Ok [y'] /\ (y' == Fin (1 # 21))%num.
Proof.
  eexists. split; [vm_compute; reflexivity|]. split; [vm_compute; reflexivity|].
  eexists. split; [vm_compute; reflexivity|]. vm_compute; reflexivity.
Qed.

(** *** C5 *)

(** [scale] on the constant vector (3, 3): no error, two NaN. *)
Lemma scale_constant_returns_nan :
  scale [Fin 3; Fin 3] = Ok [NaN; NaN].
Proof. reflexivity. Qed.

(** *** C6 *)

(** Claim C6 (the code departs from it).  For the degree [M = 1] the
    basis has two columns, 1 and [x], not one. *)
Theorem chebyshev_basis_degree_one (x : vec) :
  chebyshev_basis x 1 = Ok (map (fun a => [Num.one; a]) x).
Proof. apply chebyshev_basis_low_degree. lia. Qed.

(** *** C7 *)

Lemma scale_affine_range_witness :
  Tensor.vmin (map Fin [1; 3; 2]) = Ok (Fin 1) /\
  Tensor.vmax (map Fin [1; 3; 2]) = Ok (Fin 3) /\
  1 < 3 /\
  scale (map Fin [1; 3; 2]) =
    Ok (map Fin
          (map (fun q => 2 / (3 - 1) * q + - (1 # 2) * (2 / (3 - 1)) * (1 + 3))
               [1; 3; 2])).
Proof.
  split; [reflexivity|]. split; [reflexivity|]. split; [reflexivity|].
  exact (proj1 (scale_affine_range [1; 3; 2] 1 3 eq_refl eq_refl eq_refl)).
Defined.

(** Without rounding, [Rounded.scale] is [scale]. *)
Lemma scale_without_rounding (x : vec) :
  Rounded.scale (fun a => a) x = scale x.
Proof. reflexivity. Qed.

(** In binary32 the scaled values are off by a unit in the last place
    already on (0.1, 0.2, 0.7), whose maximum is scaled to
    [1 + 2^-23]; and on (-3e38, 3e38) the range overflows and both
    values are scaled to zero. *)
Lemma scale_float32_rounds :
  Float32.scale (map Float32.rnd [Fin (1 # 10); Fin (2 # 10); Fin (7 # 10)])
  = Ok [Fin (-1); Fin (- (11184811 # 16777216)); Fin (8388609 # 8388608)] /\
  Float32.scale (map Float32.rnd [Fin (-3 * 10 ^ 38); Fin (3 * 10 ^ 38)])
  = Ok [Fin 0; Fin 0].
Proof. split; vm_compute; reflexivity. Qed.

(** Claim C7 (the code departs from it).  The tensors are binary32.
    [close_prices] are two binary32 numbers five units in the last
    place apart, near 1000.3; they are not equal, and [scale], with
    each of its operations rounded to binary32, sends the smaller one
    to -1.5 and the larger one to 0.5, not to -1 and 1: the products
    [a * x] are near 6.5 million, where binary32 numbers are 0.5
    apart. *)
Theorem scale_float32_leaves_range :
  map Float32.rnd close_prices = close_prices /\
  Tensor.vmin close_prices = Ok (Fin (16388915 # 16384)) /\
  Tensor.vmax close_prices = Ok (Fin (2048615 # 2048)) /\
  Float32.scale close_prices = Ok [Fin (- (3 # 2)); Fin (1 # 2)].
Proof. repeat split; vm_compute; reflexivity. Qed.

(** *** C8 *)



(** *** C9 *)

(** With the draws of [strike_run], the strike 32 gives the price 4 and
    the strike 33 the price 1/2: at the strike 33 the first path is
    exercised at the first date for a payoff of 1, at the strike 32 it
    is exercised at the second date for a payoff of 8. *)
Lemma price_not_monotone_in_strike :
  32 <= 33 /\
  exists tb1 tb2 s1 s2,
    strike_run 32 = (Ok tb1, s1) /\
    strike_run 33 = (Ok tb2, s2) /\
    (tab_price tb1 == Fin 4)%num /\
    (tab_price tb2 == Fin (1 # 2))%num /\
    (tab_price tb1 >? tab_price tb2)%num = true.
Proof.
  split; [discriminate|].
  exists (tables_of (strike_run 32)), (tables_of (strike_run 33)), 4%nat, 4%nat.
  split; [vm_compute; reflexivity|].
  split; [vm_compute; reflexivity|].
  split; [vm_compute; reflexivity|].
  split; [vm_compute; reflexivity|].
  vm_compute; reflexivity.
Qed.

Lemma price_monotone_in_strike_one_date_witness :
  (forall q, exists e, Reference.exp (Fin q) = Fin e /\ 0 <= e) /\
  finite (Reference.sqrt (Fin (inject_Z 2 / inject_Z 1))) /\
  (1 <= 2)%Z /\ 32 <= 33 /\
  exists tb1 tb2 p1 p2,
    notebook (Fin 32) (Fin 1) (Fin 32) (Fin 0) 2 2 2 1 Reference.exp
      Reference.sqrt Reference.solve (fun i => Fin (strike_draws i)) 0%nat
    = (Ok tb1, (0 + Z.to_nat 2)%nat) /\
    notebook (Fin 32) (Fin 1) (Fin 33) (Fin 0) 2 2 2 1 Reference.exp
      Reference.sqrt Reference.solve (fun i => Fin (strike_draws i)) 0%nat
    = (Ok tb2, (0 + Z.to_nat 2)%nat) /\
    (tab_price tb1 == Fin p1)%num /\
    (tab_price tb2 == Fin p2)%num /\
    p1 <= p2.
Proof.
  split; [exact reference_exp_nonneg|]. split; [reflexivity|].
  split; [lia|]. split; [discriminate|].
  apply (price_monotone_in_strike_one_date 32 1 0 2 2 2 Reference.exp
           Reference.sqrt Reference.solve strike_draws 32 33 0%nat
           reference_exp_nonneg eq_refl); [lia | discriminate].
Defined.


(** * Further properties *)

(** ** [where] *)

Lemma where_entry (cond : list bool) (x y : vec) (p : nat) :
  (p < length cond)%nat -> (p < length x)%nat -> (p < length y)%nat ->
  nth p (where_ cond x y) Num.zero =
  (Num.of_bool (nth p cond false) * nth p x Num.zero
   + (Num.one - Num.of_bool (nth p cond false)) * nth p y Num.zero)%num.
Proof.
  intros Hc Hx Hy. unfold where_, Tensor.vadd, Tensor.vmul, Tensor.ssub, Tensor.mask.
  rewrite (nth_zip_with _ _ _ Num.zero Num.zero)
    by (rewrite length_zip_with, ?length_map; lia).
  rewrite (nth_zip_with _ _ _ Num.zero Num.zero) by (rewrite ?length_map; lia).
  rewrite (nth_zip_with _ _ _ Num.zero Num.zero) by (rewrite ?length_map; lia).
  rewrite (nth_map_default _ _ Num.zero) by (rewrite length_map; lia).
  rewrite (nth_map_default _ _ false) by lia.
  reflexivity.
Qed.

(** Property X10. [where] is written as the sum [cond * x + (1 - cond) *
    y]. At a position where both entries are finite the result is the
    selected one; where the entry that is not selected is infinite or
    NaN, the result is NaN. *)
Theorem where_selects_or_leaks (cond : list bool) (x y : vec) (p : nat) :
  (p < length cond)%nat -> (p < length x)%nat -> (p < length y)%nat ->
  let c := nth p cond false in
  let a := nth p x Num.zero in
  let b := nth p y Num.zero in
  (finite a -> finite b ->
   (nth p (where_ cond x y) Num.zero == if c then a else b)%num) /\
  (~ finite (if c then b else a) -> nth p (where_ cond x y) Num.zero = NaN).
Proof.
  intros Hc Hx Hy c a b. rewrite where_entry by assumption.
  fold c a b. split.
  - intros Ha Hb. now apply where_entry_finite.
  - intros Hn. destruct c; simpl in *.
    + destruct b as [q| | |]; [exfalso; apply Hn; reflexivity| | |];
        destruct a; reflexivity.
    + destruct a as [q| | |]; [exfalso; apply Hn; reflexivity| | |];
        destruct b; reflexivity.
Qed.

Lemma where_selects_or_leaks_witness :
  (0 < length [true])%nat /\ (0 < length [Fin 1])%nat /\
  (0 < length [PInf])%nat /\
  nth 0 (where_ [true] [Fin 1] [PInf]) Num.zero = NaN.
Proof.
  split; [simpl; lia|]. split; [simpl; lia|]. split; [simpl; lia|].
  refine (proj2 (where_selects_or_leaks [true] [Fin 1] [PInf] 0 _ _ _) _);
    simpl; try lia.
  intros H. discriminate H.
Defined.

(** ** Chebyshev *)

Lemma chebyshev_basis_max (x : vec) (k : Z) :
  chebyshev_basis x k = chebyshev_basis x (Z.max k 2).
Proof.
  destruct (Z.le_gt_cases k 2) as [H|H].
  - rewrite (Z.max_r k 2) by lia.
    now rewrite !chebyshev_basis_low_degree by lia.
  - now rewrite (Z.max_l k 2) by lia.
Qed.

(** Property X12. For every degree [k], [chebyshev_basis] returns a
    matrix with one row for each entry of [x] and [max k 2] columns: the
    ones, [x] itself, and from the third column on the recurrence [2 x
    T_(j-1) - T_(j-2)]. *)
Theorem chebyshev_basis_columns (x : vec) (k : Z) :
  exists X,
    chebyshev_basis x k = Ok X /\
    length X = length x /\
    Forall (fun row => length row = Z.to_nat (Z.max k 2)) X /\
    forall p, (p < length x)%nat ->
      Tensor.entry X p 0 = Num.one /\
      Tensor.entry X p 1 = nth p x Num.zero /\
      forall j, (2 <= j < Z.to_nat k)%nat ->
        Tensor.entry X p j =
        ((Fin 2 * nth p x Num.zero) * Tensor.entry X p (j - 1)
         - Tensor.entry X p (j - 2))%num.
Proof.
  rewrite chebyshev_basis_max.
  destruct (chebyshev_basis_recurrence x (Z.max k 2) ltac:(lia))
    as (X & EX & HL & HW & HE).
  exists X. repeat split; auto; try (now apply HE).
  intros j Hj. apply HE; [assumption | lia].
Qed.

(** ** [ridge_regression] *)

(** Property X15. When the design matrix has [order] columns, a fit that
    [ridge_regression] returns is [X β] for the [β] that the solver gave
    for the system [(XᵗX + λ I) β = XᵗY], where [I] is the identity of
    size [order]; it has one entry for each row of [X]. *)
Theorem ridge_regression_solves_normal_equations
        (solve : matrix -> matrix -> result matrix)
        (order : Z) (X : matrix) (Y : vec) (lambda : num) (y : vec) :
  (forall B A Z,
     Tensor.all_finite A = true -> Tensor.all_finite B = true ->
     solve B A = Ok Z ->
     exists AZ, Tensor.matmul A Z = Ok AZ /\ mat_eq AZ B) ->
  finite lambda -> Forall (Forall finite) X -> Forall finite Y ->
  Z.of_nat (Tensor.width X) = order ->
  ridge_regression order solve X Y lambda = Ok y ->
  exists β XtX XtY A Aβ Xβ,
    Tensor.matmul (Tensor.transpose X) (Tensor.as_column Y) = Ok XtY /\
    Tensor.matmul (Tensor.transpose X) X = Ok XtX /\
    length A = Tensor.width X /\
    (forall i j, (i < Tensor.width X)%nat -> (j < Tensor.width X)%nat ->
       Tensor.entry A i j =
       (Tensor.entry XtX i j + lambda * Num.of_bool (Nat.eqb i j))%num) /\
    Tensor.matmul A β = Ok Aβ /\ mat_eq Aβ XtY /\
    Tensor.matmul X β = Ok Xβ /\ y = Tensor.squeeze Xβ /\
    length y = length X.
Proof. intros Hs. now apply ridge_regression_fits. Qed.

Lemma ridge_regression_solves_normal_equations_witness :
  finite (Fin 100) /\
  Forall (Forall finite) [[Fin 1; Fin 2]] /\
  Forall finite [Fin 1] /\
  Z.of_nat (Tensor.width [[Fin 1; Fin 2]]) = 2%Z /\
  ridge_regression 2 Reference.solve [[Fin 1; Fin 2]] [Fin 1] (Fin 100)
    = Ok [Fin (546317105250000 # 11472659210250000)] /\
  exists β Xβ,
    Tensor.matmul [[Fin 1; Fin 2]] β = Ok Xβ /\
    [Fin (546317105250000 # 11472659210250000)] = Tensor.squeeze Xβ.
Proof.
  assert (H1 : finite (Fin 100)) by reflexivity.
  assert (H2 : Forall (Forall finite) [[Fin 1; Fin 2]])
    by (repeat constructor).
  assert (H3 : Forall finite [Fin 1]) by (repeat constructor).
  assert (H4 : Z.of_nat (Tensor.width [[Fin 1; Fin 2]]) = 2%Z) by reflexivity.
  assert (H5 : ridge_regression 2 Reference.solve [[Fin 1; Fin 2]] [Fin 1]
                 (Fin 100) = Ok [Fin (546317105250000 # 11472659210250000)])
    by (vm_compute; reflexivity).
  repeat (split; [assumption|]).
  destruct (ridge_regression_solves_normal_equations Reference.solve 2
              [[Fin 1; Fin 2]] [Fin 1] (Fin 100) _
              reference_solve_sound H1 H2 H3 H4 H5)
    as (β & _ & _ & _ & _ & Xβ & _ & _ & _ & _ & _ & _ & E1 & E2 & _).
  exists β, Xβ. split; [exact E1 | exact E2].
Defined.

(** Property X16. A design matrix with two columns or more is refused
    with a shape error when the number of its columns is not [order] and
    [order] is not 1, whatever the solver, the target and the penalty. *)
Theorem ridge_regression_rejects_other_widths (order : Z)
        (solve : matrix -> matrix -> result matrix)
        (X : matrix) (Y : vec) (lambda : num) :
  (2 <= Tensor.width X)%nat -> order <> 1%Z ->
  order <> Z.of_nat (Tensor.width X) ->
  ridge_regression order solve X Y lambda = Raise RuntimeError.
Proof. apply ridge_regression_other_width. Qed.

Lemma ridge_regression_rejects_other_widths_witness :
  (2 <= Tensor.width [[Fin 1; Fin 2; Fin 3]])%nat /\ 2%Z <> 1%Z /\
  2%Z <> Z.of_nat (Tensor.width [[Fin 1; Fin 2; Fin 3]]) /\
  ridge_regression 2 Reference.solve [[Fin 1; Fin 2; Fin 3]] [Fin 1] (Fin 100)
  = Raise RuntimeError.
Proof.
  assert (H1 : (2 <= Tensor.width [[Fin 1; Fin 2; Fin 3]])%nat) by (simpl; lia).
  assert (H2 : 2%Z <> 1%Z) by lia.
  assert (H3 : 2%Z <> Z.of_nat (Tensor.width [[Fin 1; Fin 2; Fin 3]]))
    by (simpl; lia).
  repeat (split; [assumption|]).
  exact (ridge_regression_rejects_other_widths 2 Reference.solve
           [[Fin 1; Fin 2; Fin 3]] [Fin 1] (Fin 100) H1 H2 H3).
Defined.

(** ** The simulated prices *)

Section Paths.

Local Open Scope num_scope.

Variables (n : Z) (Δt r σ : num) (sqrt_ : num -> num) (draws : nat -> num).

Local Abbreviation N := (Z.to_nat n).

(** One step of the scheme for a price [a] and a draw [z], in the
    order of the operations of [advance]. *)
Local Abbreviation euler a z :=
  ((a + (r * a) * Δt) + (σ * a) * (sqrt_ Δt * z)).

(** One step of [advance]: the path [p] uses the draw [s + p]. *)
Lemma advance_entries (prev : vec) (s : nat) :
  (0 <= n)%Z -> length prev = N ->
  exists v,
    advance n Δt r σ sqrt_ draws prev s = (Ok v, (s + N)%nat) /\
    length v = N /\
    forall p, (p < N)%nat ->
      nth p v Num.zero = euler (nth p prev Num.zero) (draws (s + p)%nat).
Proof.
  intros Hn Hlen. unfold advance, mbind, M_bind, randn.
  destruct (n <? 0)%Z eqn:E; [lia|]. eexists. split; [reflexivity|].
  split; [vec_length; lia|].
  intros p Hp.
  unfold Tensor.vadd, Tensor.vmul, Tensor.smul.
  rewrite (nth_zip_with _ _ _ Num.zero Num.zero)
    by (rewrite ?length_zip_with, ?length_map, ?length_seq; lia).
  rewrite (nth_zip_with _ _ _ Num.zero Num.zero)
    by (rewrite ?length_zip_with, ?length_map, ?length_seq; lia).
  rewrite (nth_zip_with _ _ _ Num.zero Num.zero)
    by (rewrite ?length_zip_with, ?length_map, ?length_seq; lia).
  rewrite !(nth_map_default _ _ Num.zero)
    by (rewrite ?length_map, ?length_seq; lia).
  rewrite (nth_map_default _ _ 0%nat) by (rewrite ?length_seq; lia).
  rewrite seq_nth by lia. reflexivity.
Qed.

(** The simulation loop over the dates [t0 + 1, ..., t0 + k]: it keeps
    the earlier dates, and the price of the path [p] at the date
    [t0 + j + 1] is one step from its price at [t0 + j], with the draw
    [s + j * n + p]. *)
Lemma simulate_steps (k : nat) :
  forall (t0 : Z) (Sd : gmap Z vec) (s : nat) (v0 : vec),
  (0 <= n)%Z -> Sd !! t0 = Some v0 -> length v0 = N ->
  exists Sd',
    simulate σ r n sqrt_ draws Δt (range (t0 + 1) (t0 + 1 + Z.of_nat k)) Sd s
      = (Ok Sd', (s + k * N)%nat) /\
    (forall t, (t <= t0)%Z -> Sd' !! t = Sd !! t) /\
    forall j, (j < k)%nat ->
      exists prev St,
        Sd' !! (t0 + Z.of_nat j)%Z = Some prev /\
        Sd' !! (t0 + Z.of_nat j + 1)%Z = Some St /\
        length St = N /\
        forall p, (p < N)%nat ->
          nth p St Num.zero =
          euler (nth p prev Num.zero) (draws (s + j * N + p)%nat).
Proof.
  induction k as [|k IH]; intros t0 Sd s v0 Hn Hv0 Hlen.
  - rewrite range_nil by lia. exists Sd. cbn [simulate]. split; [|split].
    + unfold mret, M_ret. f_equal. lia.
    + auto.
    + intros j Hj. lia.
  - rewrite range_cons by lia. cbn [simulate].
    replace (t0 + 1 - 1)%Z with t0 by lia.
    unfold mbind at 1, M_bind at 1, lift, getitem. rewrite Hv0.
    unfold mbind at 1, M_bind at 1.
    destruct (advance_entries v0 s Hn Hlen) as (v & Ev & Lv & Hv).
    rewrite Ev.
    destruct (IH (t0 + 1)%Z (<[(t0 + 1)%Z := v]> Sd) (s + N)%nat v Hn)
      as (Sd' & ESd & Hkeep & Hnew); auto.
    { apply lookup_insert_eq. }
    exists Sd'.
    replace (t0 + 1 + Z.of_nat (Datatypes.S k))%Z
      with (t0 + 1 + 1 + Z.of_nat k)%Z by lia.
    rewrite ESd. split; [f_equal; lia|]. split.
    + intros t Ht. rewrite Hkeep by lia. apply lookup_insert_ne. lia.
    + intros [|j] Hj.
      * exists v0, v.
        replace (t0 + Z.of_nat 0)%Z with t0 by lia.
        rewrite !Hkeep by lia.
        rewrite lookup_insert_ne by lia. rewrite lookup_insert_eq.
        repeat split; auto. intros p Hp. rewrite (Hv p Hp).
        replace (s + 0 * N + p)%nat with (s + p)%nat by lia. reflexivity.
      * destruct (Hnew j ltac:(lia)) as (prev & St & E1 & E2 & LSt & HSt).
        exists prev, St.
        replace (t0 + Z.of_nat (Datatypes.S j))%Z
          with (t0 + 1 + Z.of_nat j)%Z by lia.
        repeat split; auto. intros p Hp. rewrite (HSt p Hp).
        replace (s + N + j * N + p)%nat
          with (s + Datatypes.S j * N + p)%nat by lia.
        reflexivity.
Qed.

End Paths.

(** Property X6.  In a run that returned, [n] draws were made for each
    of the [m] dates; every path starts at [Spot * 1], and the price
    of the path [p] at the date [t] is one step of the scheme
    [S + r * S * Δt + σ * S * (sqrt(Δt) * Z)] from its price at the date
    before, each operation in the order of the code, where [Z] is the
    draw number [(t - 1) * n + p] of the run. *)
Theorem simulated_prices_follow_the_scheme (Spot σ K r : num) (T : positive)
        (order n m : Z) (exp_ sqrt_ : num -> num)
        (solve : matrix -> matrix -> result matrix) (draws : nat -> num)
        (s s' : nat) (tb : tables) :
  notebook Spot σ K r T order n m exp_ sqrt_ solve draws s = (Ok tb, s') ->
  s' = (s + Z.to_nat m * Z.to_nat n)%nat /\
  (exists S0,
     tab_S tb !! 0%Z = Some S0 /\
     forall p, (p < Z.to_nat n)%nat ->
       nth p S0 Num.zero = (Spot * Num.one)%num) /\
  forall t, (1 <= t <= m)%Z ->
    exists prev St,
      tab_S tb !! (t - 1)%Z = Some prev /\
      tab_S tb !! t = Some St /\
      length St = Z.to_nat n /\
      forall p, (p < Z.to_nat n)%nat ->
        nth p St Num.zero =
        ((nth p prev Num.zero + (r * nth p prev Num.zero) * tab_dt tb)
         + (σ * nth p prev Num.zero)
           * (sqrt_ (tab_dt tb)
              * draws (s + Z.to_nat (t - 1) * Z.to_nat n + p)%nat))%num.
Proof.
  intros Hrun.
  destruct (notebook_shapes _ _ _ _ _ _ _ _ _ _ _ _ _ _ _ Hrun)
    as (Hm & Hn & Hs' & EΔt & _).
  destruct (notebook_Ok _ _ _ _ _ _ _ _ _ _ _ _ _ _ _ Hrun)
    as (Δt & one_n & _ & _ & _ & EΔ & E1 & Esim & _).
  apply time_step_Ok in EΔ as [_ ->]. apply ones_Ok in E1 as [_ ->].
  split; [exact Hs'|].
  rewrite t_span_range in Esim. rewrite EΔt.
  destruct (simulate_steps n (Fin (inject_Z (Z.pos T) / inject_Z m)) r σ
              sqrt_ draws (Z.to_nat m) 0
              {[ 0%Z := Tensor.smul Spot (repeat Num.one (Z.to_nat n)) ]}
              s (Tensor.smul Spot (repeat Num.one (Z.to_nat n))) Hn)
    as (Sd' & ESd & Hkeep & Hsteps).
  - apply lookup_singleton_eq.
  - vec_length. reflexivity.
  - rewrite ESd in Esim. injection Esim as <- _. split.
    + eexists. split.
      * rewrite Hkeep by lia. apply lookup_singleton_eq.
      * intros p Hp. unfold Tensor.smul.
        rewrite (nth_map_default _ _ Num.zero) by (rewrite repeat_length; lia).
        f_equal. clear -Hp. revert p Hp.
        induction (Z.to_nat n) as [|k IH]; intros [|p] Hp; cbn; try lia; auto.
        apply IH. lia.
    + intros t Ht.
      destruct (Hsteps (Z.to_nat (t - 1)) ltac:(lia))
        as (prev & St & E1 & E2 & LSt & HSt).
      replace (0 + Z.of_nat (Z.to_nat (t - 1)))%Z with (t - 1)%Z in E1, E2
        by lia.
      replace (t - 1 + 1)%Z with t in E2 by lia.
      exists prev, St. repeat split; auto.
Qed.

Lemma simulated_prices_follow_the_scheme_witness :
  strike_run 33 = (Ok (tables_of (strike_run 33)), 4%nat) /\
  4%nat = (0 + Z.to_nat 2 * Z.to_nat 2)%nat.
Proof.
  assert (H : strike_run 33 = (Ok (tables_of (strike_run 33)), 4%nat))
    by (vm_compute; reflexivity).
  split; [exact H|].
  exact (proj1 (simulated_prices_follow_the_scheme (Fin 32) (Fin 1) (Fin 33)
                  (Fin 0) 2 2 2 2 Reference.exp Reference.sqrt
                  Reference.solve (fun i => Fin (strike_draws i)) 0 4
                  (tables_of (strike_run 33)) H)).
Defined.

(** ** The price out of the money *)

Lemma finite_matrix_Fin (X : matrix) :
  Forall (Forall finite) X -> X = map (map Fin) (map (map Reference.to_Q) X).
Proof.
  induction 1 as [|row X Hrow _ IH]; [reflexivity|].
  cbn [map]. f_equal; [|exact IH].
  clear IH. induction Hrow as [|a row Ha _ IH]; [reflexivity|].
  cbn [map]. f_equal; [|exact IH].
  apply finite_inv in Ha as [q ->]. reflexivity.
Qed.

Lemma entry_Fin (x : list (list Q)) (p i : nat) :
  Tensor.entry (map (map Fin) x) p i = Fin (qentry x p i).
Proof.
  unfold Tensor.entry, qentry.
  change (@nil num) with (map Fin []). rewrite map_nth.
  change Num.zero with (Fin 0). now rewrite map_nth.
Qed.

Lemma qsum_over_zero (k : nat) (g : nat -> Q) :
  (forall i, (i < k)%nat -> g i == 0) -> qsum_over k g == 0.
Proof.
  induction k as [|k IH]; intros H; cbn [qsum_over]; [reflexivity|].
  rewrite IH by (intros; apply H; lia). rewrite (H k) by lia. ring.
Qed.

Section PriceTerms.

Variables (Spot σ K r : Q) (T : positive) (order n m : Z)
  (exp_ sqrt_ : num -> num) (solve : matrix -> matrix -> result matrix)
  (draws : nat -> Q).

Hypothesis exp_nonneg : forall q, exists e, exp_ (Fin q) = Fin e /\ 0 <= e.
Hypothesis sqrt_finite :
  finite (sqrt_ (Fin (inject_Z (Z.pos T) / inject_Z m))).

Local Abbreviation N := (Z.to_nat n).
Local Abbreviation run :=
  (notebook (Fin Spot) (Fin σ) (Fin K) (Fin r) T order n m exp_ sqrt_ solve
            (fun i => Fin (draws i))).

Lemma exp_finite_nonneg : forall q, finite (exp_ (Fin q)).
Proof. intros q. destruct (exp_nonneg q) as (e & -> & _). reflexivity. Qed.

(** The terms of the price of a run: the selected payoff [c p i] of
    the path [p] at the date [i + 1] is zero or the cashflow
    [max(K - S, 0)] there, at most one of them per path is not zero, and
    the price is the mean over the paths of their sum, each discounted
    by the factor [e i]. *)
Lemma notebook_price_terms (s s' : nat) (tb : tables) :
  (1 <= n)%Z -> run s = (Ok tb, s') ->
  exists (c : nat -> nat -> Q) (e : nat -> Q),
    (forall i,
       exp_ ((Num.opp (Fin r) * Num.of_Z (Z.of_nat i)) * tab_dt tb)%num
       = Fin (e i) /\ 0 <= e i) /\
    (forall p i, (p < N)%nat -> (i < Z.to_nat m)%nat ->
       exists St sp,
         tab_S tb !! (Z.of_nat i + 1)%Z = Some St /\
         nth p St Num.zero = Fin sp /\
         (c p i == 0 \/ c p i == qmax (K - sp) 0)) /\
    (forall p i i', (p < N)%nat -> (i < i')%nat -> 0 < c p i -> c p i' == 0) /\
    (tab_price tb ==
     Fin (qsum_over N (fun p =>
            qsum_over (Z.to_nat m) (fun i => c p i * e i))
          / inject_Z n)%Q)%num.
Proof.
  intros Hn H.
  pose proof (notebook_finite _ _ _ _ _ _ _ _ _ _ _ _ exp_finite_nonneg sqrt_finite _ _ _ H)
    as (_ & HSfin & HCFfin & _).
  pose proof (candidate_payoff_entries _ _ _ _ _ _ _ _ _ _ _ _ exp_finite_nonneg sqrt_finite _ _ _ H)
    as Hrule.
  pose proof (notebook_price _ _ _ _ _ _ _ _ _ _ _ _ _ _ _ H)
    as (Lpay & Eprice).
  pose proof (notebook_candidates _ _ _ _ _ _ _ _ _ _ _ _ _ _ _ H)
    as (Lcand & _ & _).
  pose proof (notebook_shapes _ _ _ _ _ _ _ _ _ _ _ _ _ _ _ H)
    as (Hm & _ & _ & EΔ & _ & _ & HCF & _ & _ & _ & _
        & (payoff & Lp & _ & Est) & Epay & _).
  apply stack1_Ok in Est as (_ & _ & Hrows & _). rewrite Lp in Hrows.
  (* the candidates are finite *)
  assert (Hcand : forall p i, (p < N)%nat -> (i < Z.to_nat m)%nat ->
    exists St sp,
      tab_S tb !! (Z.of_nat i + 1)%Z = Some St /\
      nth p St Num.zero = Fin sp /\
      ((Tensor.entry (tab_candidates tb) p i == Fin 0)%num \/
       (Tensor.entry (tab_candidates tb) p i == Fin (qmax (K - sp) 0)%Q)%num)).
  { intros p i Hp Hi.
    destruct (Hrule (Z.of_nat i + 1)%Z p) as (cv & cf & _ & Ecf & Hent);
      [lia | exact Hp |].
    replace (Z.to_nat (Z.of_nat i + 1 - 1)) with i in Hent by lia.
    destruct (HCF (Z.of_nat i + 1)%Z) as (St & ESt & Ecf'); [lia|].
    rewrite Ecf in Ecf'. injection Ecf' as ->.
    destruct (HSfin (Z.of_nat i + 1)%Z) as (St' & ESt' & LSt & FSt); [lia|].
    rewrite ESt in ESt'. injection ESt' as <-.
    assert (Fp : finite (nth p St Num.zero)).
    { rewrite List.Forall_forall in FSt. apply FSt, nth_In. lia. }
    apply finite_inv in Fp as [sp Esp].
    exists St, sp. split; [exact ESt|]. split; [exact Esp|].
    unfold Tensor.clamp_min, Tensor.ssub in Hent.
    rewrite (nth_map_default _ _ Num.zero) in Hent by (rewrite length_map; lia).
    rewrite (nth_map_default _ _ Num.zero) in Hent by lia.
    rewrite Esp in Hent. cbn [Num.sub] in Hent.
    unfold Num.zero at 2 4 in Hent. rewrite max_fin in Hent.
    destruct (_ >? _)%num in Hent; [left | right]; exact Hent. }
  assert (Hfin : Forall (Forall finite) (tab_candidates tb)).
  { apply List.Forall_forall. intros row Hrow.
    apply List.Forall_forall. intros a Ha.
    apply (In_nth _ _ []) in Hrow as (p & Hp & <-).
    assert (Lrow : length (nth p (tab_candidates tb) []) = Z.to_nat m).
    { rewrite List.Forall_forall in Hrows. apply Hrows, nth_In. exact Hp. }
    apply (In_nth _ _ Num.zero) in Ha as (i & Hi & <-).
    destruct (Hcand p i) as (St & sp & _ & _ & [E|E]); [lia | lia | |];
      unfold Tensor.entry in E;
      destruct (nth i (nth p (tab_candidates tb) []) Num.zero);
      try contradiction; reflexivity. }
  apply finite_matrix_Fin in Hfin.
  set (x := map (map Reference.to_Q) (tab_candidates tb)) in *.
  assert (Hx : Forall (fun row => length row = Z.to_nat m) x).
  { subst x. apply Forall_map.
    eapply Forall_impl; [exact Hrows|]. cbn. intros row <-.
    now rewrite length_map. }
  set (c := fun p i =>
              if first_positive (nth p x []) i then qentry x p i else 0).
  assert (Hpay : forall p i,
    (Tensor.entry (tab_payoff tb) p i == Fin (c p i))%num).
  { intros p i. rewrite Epay, Hfin.
    rewrite (first_one_entry x (Z.to_nat m) p i Hx). subst c. cbn beta.
    destruct (first_positive (nth p x []) i); cbn; ring. }
  assert (He : forall i, exists ei,
    exp_ ((Num.opp (Fin r) * Num.of_Z (Z.of_nat i)) * tab_dt tb)%num
      = Fin ei /\ 0 <= ei).
  { intros i. rewrite EΔ. cbn. apply exp_nonneg. }
  exists c, (fun i => Reference.to_Q
    (exp_ ((Num.opp (Fin r) * Num.of_Z (Z.of_nat i)) * tab_dt tb)%num)).
  split; [|split; [|split]].
  - intros i. destruct (He i) as (ei & E & Hei). rewrite E. now split.
  - intros p i Hp Hi. destruct (Hcand p i Hp Hi) as (St & sp & ESt & Esp & Hc).
    exists St, sp. split; [exact ESt|]. split; [exact Esp|].
    rewrite Hfin, entry_Fin in Hc. subst c. cbn beta.
    destruct (first_positive (nth p x []) i); [|left; reflexivity].
    destruct Hc as [Hc|Hc]; [left | right]; exact Hc.
  - intros p i i' Hp Hii' Hpos. subst c. cbn beta in *.
    destruct (first_positive (nth p x []) i) eqn:E1; [|lra].
    destruct (first_positive (nth p x []) i') eqn:E2; [|reflexivity].
    apply first_positive_spec in E1 as [H1 _].
    apply first_positive_spec in E2 as [_ H2].
    specialize (H2 i Hii'). lra.
  - rewrite Eprice, <- div_fin_positive by exact Hn.
    apply num_div_proper; [|reflexivity].
    rewrite <- sum_over_fin. apply sum_over_ext. intros p Hp.
    rewrite <- sum_over_fin. apply sum_over_ext. intros i Hi.
    rewrite Hpay. destruct (He i) as (ei & E & _). rewrite E.
    cbn. reflexivity.
Qed.

End PriceTerms.

Lemma qmax_zero_nonpos (a : Q) : a <= 0 -> qmax a 0 == 0.
Proof.
  intros H. unfold qmax. destruct (0 ?= a) eqn:E; try reflexivity.
  - apply Qeq_alt in E. now symmetry.
  - apply Qlt_alt in E. lra.
Qed.

(** Property X9. When no simulated price is below the strike, the price
    of the put is zero. *)
Theorem price_is_zero_out_of_the_money (Spot σ K r : Q) (T : positive)
        (order n m : Z) (exp_ sqrt_ : num -> num)
        (solve : matrix -> matrix -> result matrix) (draws : nat -> Q)
        (s s' : nat) (tb : tables) :
  (forall q, exists e, exp_ (Fin q) = Fin e /\ 0 <= e) ->
  finite (sqrt_ (Fin (inject_Z (Z.pos T) / inject_Z m))) ->
  (1 <= n)%Z ->
  notebook (Fin Spot) (Fin σ) (Fin K) (Fin r) T order n m exp_ sqrt_ solve
           (fun i => Fin (draws i)) s = (Ok tb, s') ->
  (forall t St p sp, (1 <= t <= m)%Z -> tab_S tb !! t = Some St ->
     (p < Z.to_nat n)%nat -> nth p St Num.zero = Fin sp -> K <= sp) ->
  (tab_price tb == Num.zero)%num.
Proof.
  intros Hexp Hsqrt Hn H HS.
  destruct (notebook_price_terms _ _ _ _ _ _ _ _ _ _ _ _ Hexp Hsqrt _ _ _ Hn H)
    as (c & e & He & Hc & _ & Eprice).
  rewrite Eprice. cbn [Num.eq Num.zero].
  rewrite qsum_over_zero; [unfold Qdiv; ring|].
  intros p Hp. apply qsum_over_zero. intros i Hi.
  destruct (Hc p i Hp Hi) as (St & sp & ESt & Esp & [E|E]); rewrite E.
  - ring.
  - rewrite qmax_zero_nonpos; [ring|].
    specialize (HS (Z.of_nat i + 1)%Z _ _ _ ltac:(lia) ESt Hp Esp). lra.
Qed.

(** ** The time labels *)

Lemma rint_Z (x : Q) (k : Z) : x == inject_Z k -> Labelled.rint x = k.
Proof.
  intros E. unfold Labelled.rint.
  rewrite (Qfloor_comp _ _ E), Qfloor_Z.
  assert (H : (x - inject_Z k ?= 1 # 2) = Lt).
  { apply Qlt_alt. assert (E0 : x - inject_Z k == 0) by (rewrite E; ring).
    rewrite E0. reflexivity. }
  now rewrite H.
Qed.

Lemma label_inj (d : Z) : d <> 0%Z -> Inj eq eq (label d).
Proof. intros Hd t1 t2 H. unfold label in H. nia. Qed.

Lemma inject_Z_nonzero (m : Z) : m <> 0%Z -> ~ inject_Z m == 0.
Proof. intros H. change 0 with (inject_Z 0). now rewrite inject_Z_injective. Qed.

Section Coherent.

Variables (T : positive) (m d : Z).

Hypothesis Hm : (1 <= m)%Z.
Hypothesis Hd : (Z.pos T * 1000000 = m * d)%Z.

Local Abbreviation dt := (inject_Z (Z.pos T) / inject_Z m).

Lemma step_positive : (1 <= d)%Z.
Proof. nia. Qed.

Lemma step_millionths : dt * 1000000 == inject_Z d.
Proof.
  assert (Hm' : ~ inject_Z m == 0) by (apply inject_Z_nonzero; lia).
  assert (E : inject_Z (Z.pos T) * 1000000 == inject_Z m * inject_Z d).
  { change 1000000 with (inject_Z 1000000).
    rewrite <- !inject_Z_mult. now rewrite Hd. }
  apply (Qmult_inj_r _ _ (inject_Z m) Hm').
  transitivity (inject_Z (Z.pos T) * 1000000); [field; exact Hm'|].
  transitivity (inject_Z m * inject_Z d); [exact E | ring].
Qed.

Lemma round6_previous (t : Z) :
  Labelled.round6 (Labelled.time_of (label d t) - dt) = label d (t - 1).
Proof.
  unfold Labelled.round6. apply rint_Z.
  unfold Labelled.time_of, label.
  replace (t - 1)%Z with (t + -1)%Z by lia.
  rewrite !inject_Z_mult, inject_Z_plus.
  pose proof step_millionths as E.
  transitivity (inject_Z t * inject_Z d - dt * 1000000);
    [field; apply inject_Z_nonzero; lia|].
  rewrite E. change (inject_Z (-1)) with (-1). ring.
Qed.

Lemma round6_next (t : Z) :
  Labelled.round6 (Labelled.time_of (label d t) + dt) = label d (t + 1).
Proof.
  unfold Labelled.round6. apply rint_Z.
  unfold Labelled.time_of, label.
  rewrite !inject_Z_mult, inject_Z_plus.
  pose proof step_millionths as E.
  transitivity (inject_Z t * inject_Z d + dt * 1000000);
    [field; apply inject_Z_nonzero; lia|].
  rewrite E. change (inject_Z 1) with 1. ring.
Qed.

Lemma key_T_label : Labelled.key_T T = label d m.
Proof. unfold Labelled.key_T, label. lia. Qed.

Lemma t_span_labels : Labelled.t_span T dt = map (label d) (t_span m).
Proof.
  unfold Labelled.t_span, Labelled.arange, t_span, range.
  assert (Hm' : ~ inject_Z m == 0) by (apply inject_Z_nonzero; lia).
  assert (HT : ~ inject_Z (Z.pos T) == 0).
  { change 0 with (inject_Z 0). rewrite inject_Z_injective. lia. }
  assert (E : (inject_Z (Z.pos T) + dt - dt) / dt == inject_Z m).
  { field. split; assumption. }
  rewrite (Qceiling_comp _ _ E), Qceiling_Z.
  replace (m + 1 - 1)%Z with m by lia.
  rewrite !map_map. apply map_ext. intros i.
  unfold Labelled.round6. apply rint_Z. unfold label.
  rewrite inject_Z_mult, inject_Z_plus.
  pose proof step_millionths as E1.
  transitivity ((1 + inject_Z (Z.of_nat i)) * (dt * 1000000)); [ring|].
  rewrite E1. change (inject_Z 1) with 1. ring.
Qed.

End Coherent.

(** ** The labelled cell against the cell keyed by date indices *)

Lemma setitem_fresh (k : Z) (v : vec) (d : list (Z * vec)) :
  ~ In k (map fst d) -> Labelled.setitem k v d = d ++ [(k, v)].
Proof.
  induction d as [|[k' v'] d IH]; intros H; [reflexivity|].
  cbn [Labelled.setitem]. destruct (k =? k')%Z eqn:E.
  - apply Z.eqb_eq in E. subst. exfalso. apply H. now left.
  - cbn [app]. f_equal. apply IH. intros Hin. apply H. now right.
Qed.

(** A comprehension over keys without repetition lists its values in
    the order of the keys. *)
Lemma comprehension_items_values (f f' : Z -> result vec) (g : Z -> Z) :
  (forall t, f' (g t) = f t) -> Inj eq eq g ->
  forall (ts : list Z) (acc : list (Z * vec)),
  NoDup ts -> (forall t, In t ts -> ~ In (g t) (map fst acc)) ->
  result_map Labelled.values (Labelled.comprehension_items f' (map g ts) acc)
  = result_map (app (Labelled.values acc)) (comprehension_values f ts).
Proof.
  intros Hf Hg. induction ts as [|t ts IH]; intros acc Hnd Hacc.
  - cbn. now rewrite app_nil_r.
  - cbn [map Labelled.comprehension_items comprehension_values].
    rewrite Hf. destruct (f t) as [v|e]; [|reflexivity].
    cbn [mbind result_bind].
    rewrite setitem_fresh by (apply Hacc; now left).
    apply NoDup_cons in Hnd as [Hnotin Hnd].
    rewrite list_elem_of_In in Hnotin.
    rewrite IH.
    + destruct (comprehension_values f ts) as [vs|e]; [|reflexivity].
      cbn. unfold Labelled.values. rewrite map_app. cbn.
      now rewrite <- app_assoc.
    + exact Hnd.
    + intros t' Ht'. rewrite map_app, in_app_iff. cbn.
      intros [H|[H|[]]].
      * apply (Hacc t'); [now right | exact H].
      * apply Hg in H. subst. contradiction.
Qed.

Lemma tail_map {A B} (f : A -> B) (l : list A) :
  tail (map f l) = map f (tail l).
Proof. now destruct l. Qed.

Lemma NoDup_range (a b : Z) : NoDup (range a b).
Proof.
  unfold range. apply NoDup_fmap_2; [|apply NoDup_seq].
  intros i j H. lia.
Qed.

Section Refinement.

Variables (Spot σ K r : num) (T : positive) (order n m d : Z)
  (exp_ sqrt_ : num -> num) (solve : matrix -> matrix -> result matrix)
  (draws : nat -> num).

Hypothesis Hm : (1 <= m)%Z.
Hypothesis Hd : (Z.pos T * 1000000 = m * d)%Z.

Local Abbreviation dt := (inject_Z (Z.pos T) / inject_Z m).
Local Abbreviation lab := (label d).

#[local] Instance lab_inj : Inj eq eq lab.
Proof. apply label_inj. pose proof (step_positive T m d Hm Hd). lia. Qed.

Lemma getitem_kmap (D : gmap Z vec) (t : Z) :
  getitem (kmap lab D) (lab t) = getitem D t.
Proof. unfold getitem. rewrite (lookup_kmap lab). reflexivity. Qed.

Lemma insert_kmap (D : gmap Z vec) (t : Z) (v : vec) :
  <[lab t := v]> (kmap lab D : gmap Z vec) = kmap lab (<[t := v]> D).
Proof. symmetry. apply (kmap_insert lab). Qed.

Lemma simulate_relabel (ts : list Z) :
  forall (Sd : gmap Z vec) (s : nat),
  Labelled.simulate σ r n sqrt_ draws dt (map lab ts) (kmap lab Sd) s =
  (result_map (kmap lab) (fst (simulate σ r n sqrt_ draws (Fin dt) ts Sd s)),
   snd (simulate σ r n sqrt_ draws (Fin dt) ts Sd s)).
Proof.
  induction ts as [|t ts IH]; intros Sd s; [reflexivity|].
  cbn [map Labelled.simulate simulate].
  rewrite (round6_previous T m d Hm Hd).
  unfold mbind at 1 3 5, M_bind at 1 3 5, lift.
  rewrite getitem_kmap.
  destruct (getitem Sd (t - 1)) as [prev|e]; [|reflexivity].
  unfold mbind at 1 2 3, M_bind at 1 2 3.
  destruct (advance n (Fin dt) r σ sqrt_ draws prev s) as [[St|e] s1];
    [|reflexivity].
  rewrite insert_kmap. apply IH.
Qed.

Lemma comprehension_relabel (f f' : Z -> result vec) :
  (forall t, f' (lab t) = f t) ->
  forall (ts : list Z) (D : gmap Z vec),
  comprehension f' (map lab ts) (kmap lab D)
  = result_map (kmap lab) (comprehension f ts D).
Proof.
  intros Hf. induction ts as [|t ts IH]; intros D; [reflexivity|].
  cbn [map comprehension]. rewrite Hf.
  destruct (f t) as [v|e]; [|reflexivity].
  cbn [mbind result_bind]. rewrite insert_kmap. apply IH.
Qed.

Lemma cashflow_at_relabel (Sd : gmap Z vec) (t : Z) :
  cashflow_at K (kmap lab Sd) (lab t) = cashflow_at K Sd t.
Proof. unfold cashflow_at. now rewrite getitem_kmap. Qed.

Lemma payoff_at_relabel (cf cv : gmap Z vec) (t : Z) :
  payoff_at n (kmap lab cf) (kmap lab cv) (lab t) = payoff_at n cf cv t.
Proof. unfold payoff_at. now rewrite !getitem_kmap. Qed.

Lemma backward_step_relabel (Sd cf : gmap Z vec)
      (st : gmap Z vec * gmap Z vec) (t : Z) :
  Labelled.backward_step r order exp_ solve dt (kmap lab Sd) (kmap lab cf)
    (relabel_pair d st) (lab t)
  = result_map (relabel_pair d)
      (backward_step r order exp_ solve (Fin dt) Sd cf st t).
Proof.
  destruct st as [v c]. unfold relabel_pair, fst, snd.
  unfold Labelled.backward_step, backward_step.
  rewrite (round6_next T m d Hm Hd), !getitem_kmap.
  destruct (getitem Sd t) as [St|e]; [|reflexivity]. cbn [mbind result_bind].
  destruct (scale St) as [x|e]; [|reflexivity]. cbn [mbind result_bind].
  destruct (chebyshev_basis x order) as [basis|e]; [|reflexivity].
  cbn [mbind result_bind].
  destruct (getitem v (t + 1)) as [v_next|e]; [|reflexivity].
  cbn [mbind result_bind].
  destruct (ridge_regression order solve basis v_next (Fin 100)) as [cv|e];
    [|reflexivity].
  cbn [mbind result_bind].
  destruct (getitem cf t) as [cft|e]; [|reflexivity]. cbn [mbind result_bind].
  rewrite !insert_kmap, getitem_kmap.
  destruct (getitem (<[t:=cv]> c) t) as [cvt|e]; [|reflexivity].
  cbn [mbind result_bind result_map fst snd]. now rewrite insert_kmap.
Qed.

Lemma backward_relabel (Sd cf : gmap Z vec) (ts : list Z) :
  forall st : gmap Z vec * gmap Z vec,
  Labelled.backward r order exp_ solve dt (kmap lab Sd) (kmap lab cf)
    (map lab ts) (relabel_pair d st)
  = result_map (relabel_pair d)
      (backward r order exp_ solve (Fin dt) Sd cf ts st).
Proof.
  induction ts as [|t ts IH]; intros st; [reflexivity|].
  cbn [map Labelled.backward backward]. rewrite backward_step_relabel.
  destruct (backward_step r order exp_ solve (Fin dt) Sd cf st t) as [st'|e];
    [|reflexivity].
  cbn [mbind result_bind result_map]. apply IH.
Qed.

Lemma valuation_relabel (Sd : gmap Z vec) :
  Labelled.valuation K r T order n m exp_ solve dt (kmap lab Sd)
  = result_map (relabel d) (valuation K r order n m exp_ solve (Fin dt) Sd).
Proof.
  unfold Labelled.valuation, valuation.
  rewrite (t_span_labels T m d Hm Hd), (key_T_label T m d Hd).
  rewrite <- (kmap_empty lab) at 1.
  rewrite (comprehension_relabel (cashflow_at K Sd))
    by apply cashflow_at_relabel.
  destruct (comprehension (cashflow_at K Sd) (t_span m) ∅) as [cf|e];
    [|reflexivity].
  cbn [mbind result_bind result_map]. rewrite getitem_kmap.
  destruct (getitem cf m) as [cf_T|e]; [|reflexivity].
  cbn [mbind result_bind].
  destruct (Tensor.zeros n) as [z|e]; [|reflexivity].
  cbn [mbind result_bind].
  rewrite <- map_rev, tail_map.
  rewrite <- !(kmap_singleton lab).
  change (kmap lab {[m := map (fun a => (a * discount r exp_ (Fin dt))%num) cf_T]},
          kmap lab {[m := z]})
    with (relabel_pair d
            ({[m := map (fun a => (a * discount r exp_ (Fin dt))%num) cf_T]},
             {[m := z]})).
  rewrite backward_relabel.
  destruct (backward r order exp_ solve (Fin dt) Sd cf (tail (rev (t_span m)))
              _) as [[v c]|e]; [|reflexivity].
  cbn [mbind result_bind result_map relabel_pair fst snd].
  pose proof (comprehension_items_values
                (payoff_at n cf c) (payoff_at n (kmap lab cf) (kmap lab c)) lab
                (payoff_at_relabel cf c) lab_inj (t_span m) []
                (NoDup_range _ _) ltac:(intros t _ [])) as Hitems.
  cbn [Labelled.values map app] in Hitems.
  destruct (Labelled.comprehension_items _ _ []) as [items|e];
    destruct (comprehension_values _ _) as [vs|e']; cbn in Hitems;
    try discriminate; [|injection Hitems as ->; reflexivity].
  injection Hitems as Hitems. cbn [mbind result_bind].
  rewrite Hitems.
  destruct (Tensor.stack1 vs) as [cand|e]; [|reflexivity].
  cbn [mbind result_bind].
  destruct (price_of r n m exp_ (Fin dt) (first_one cand)) as [price|e];
    reflexivity.
Qed.

Lemma notebook_relabel (s : nat) :
  Labelled.notebook Spot σ K r T order n m exp_ sqrt_ solve draws s
  = relabel_run d (notebook Spot σ K r T order n m exp_ sqrt_ solve draws s).
Proof.
  unfold Labelled.notebook, notebook, Labelled.time_step, time_step.
  destruct (m =? 0)%Z eqn:E; [apply Z.eqb_eq in E; lia|].
  unfold Labelled.main_cell, main_cell, mbind, M_bind, lift.
  destruct (Tensor.ones n) as [one_n|e]; [|reflexivity].
  rewrite (t_span_labels T m d Hm Hd).
  assert (E0 : forall v : vec,
             ({[0%Z := v]} : gmap Z vec) = kmap lab {[0%Z := v]})
    by (intros; now rewrite kmap_singleton).
  rewrite E0, simulate_relabel.
  destruct (simulate σ r n sqrt_ draws (Fin dt) (t_span m) _ s)
    as [[Sd|e] s1]; [|reflexivity].
  cbn [fst snd result_map]. unfold relabel_run. cbn [fst snd].
  now rewrite valuation_relabel.
Qed.

End Refinement.

(** ** The cell with binary64 labels against the cell keyed by date
    indices *)

Lemma labels_fit_inv (T : positive) (m : Z) :
  Float64.labels_fit T m = true ->
  let d := Float64.step T m in
  let dt := Float64.fl (inject_Z (Z.pos T) / inject_Z m) in
  (1 <= m)%Z /\ (Z.pos T * 1000000 = m * d)%Z /\
  Float64.t_span T dt = map (label d) (t_span m) /\
  (forall t, (1 <= t <= m)%Z ->
     Float64.round6 (Float64.fl (Float64.time_of (label d t) - dt))
     = label d (t - 1)) /\
  (forall t, (1 <= t < m)%Z ->
     Float64.round6 (Float64.fl (Float64.time_of (label d t) + dt))
     = label d (t + 1)).
Proof.
  intros H d dt. unfold Float64.labels_fit in H. fold d dt in H.
  repeat (apply andb_prop in H as [H ?]).
  split; [lia|]. split; [lia|]. split; [|split].
  - match goal with Hs : bool_decide _ = true |- _ =>
      apply bool_decide_eq_true in Hs; exact Hs end.
  - intros t Ht.
    match goal with Hp : forallb _ (range 1 (m + 1)) = true |- _ =>
      rewrite forallb_forall in Hp; specialize (Hp t) end.
    apply Z.eqb_eq. match goal with Hp : _ -> _ |- _ => apply Hp end.
    apply in_range. lia.
  - intros t Ht.
    match goal with Hp : forallb _ (range 1 m) = true |- _ =>
      rewrite forallb_forall in Hp; specialize (Hp t) end.
    apply Z.eqb_eq. match goal with Hp : _ -> _ |- _ => apply Hp end.
    apply in_range. lia.
Qed.

Section Float64Refinement.

Variables (Spot σ K r : num) (T : positive) (order n m : Z)
  (exp_ sqrt_ : num -> num) (solve : matrix -> matrix -> result matrix)
  (draws : nat -> num).

Hypothesis Hfit : Float64.labels_fit T m = true.

Local Abbreviation d := (Float64.step T m).
Local Abbreviation dt := (Float64.fl (inject_Z (Z.pos T) / inject_Z m)).
Local Abbreviation lab := (label d).

Lemma fit_steps : (1 <= m)%Z.
Proof. now destruct (labels_fit_inv T m Hfit) as (H & _). Qed.

Lemma fit_step : (Z.pos T * 1000000 = m * d)%Z.
Proof. now destruct (labels_fit_inv T m Hfit) as (_ & H & _). Qed.

#[local] Instance lab64_inj : Inj eq eq lab.
Proof.
  apply label_inj. pose proof fit_steps. pose proof fit_step. nia.
Qed.

Lemma getitem_kmap64 (D : gmap Z vec) (t : Z) :
  getitem (kmap lab D) (lab t) = getitem D t.
Proof. unfold getitem. rewrite (lookup_kmap lab). reflexivity. Qed.

Lemma insert_kmap64 (D : gmap Z vec) (t : Z) (v : vec) :
  <[lab t := v]> (kmap lab D : gmap Z vec) = kmap lab (<[t := v]> D).
Proof. symmetry. apply (kmap_insert lab). Qed.

Lemma simulate_relabel64 (ts : list Z) :
  (forall t, In t ts -> (1 <= t <= m)%Z) ->
  forall (Sd : gmap Z vec) (s : nat),
  Float64.simulate σ r n sqrt_ draws dt (map lab ts) (kmap lab Sd) s =
  (result_map (kmap lab) (fst (simulate σ r n sqrt_ draws (Fin dt) ts Sd s)),
   snd (simulate σ r n sqrt_ draws (Fin dt) ts Sd s)).
Proof.
  destruct (labels_fit_inv T m Hfit) as (_ & _ & _ & Hprev & _).
  induction ts as [|t ts IH]; intros Hts Sd s; [reflexivity|].
  cbn [map Float64.simulate simulate].
  rewrite (Hprev t) by (apply Hts; now left).
  unfold mbind at 1 3 5, M_bind at 1 3 5, lift.
  rewrite getitem_kmap64.
  destruct (getitem Sd (t - 1)) as [prev|e]; [|reflexivity].
  unfold mbind at 1 2 3, M_bind at 1 2 3.
  destruct (advance n (Fin dt) r σ sqrt_ draws prev s) as [[St|e] s1];
    [|reflexivity].
  rewrite insert_kmap64. apply IH. intros t' Ht'. apply Hts. now right.
Qed.

Lemma comprehension_relabel64 (f f' : Z -> result vec) :
  (forall t, f' (lab t) = f t) ->
  forall (ts : list Z) (D : gmap Z vec),
  comprehension f' (map lab ts) (kmap lab D)
  = result_map (kmap lab) (comprehension f ts D).
Proof.
  intros Hf. induction ts as [|t ts IH]; intros D; [reflexivity|].
  cbn [map comprehension]. rewrite Hf.
  destruct (f t) as [v|e]; [|reflexivity].
  cbn [mbind result_bind]. rewrite insert_kmap64. apply IH.
Qed.

Lemma cashflow_at_relabel64 (Sd : gmap Z vec) (t : Z) :
  cashflow_at K (kmap lab Sd) (lab t) = cashflow_at K Sd t.
Proof. unfold cashflow_at. now rewrite getitem_kmap64. Qed.

Lemma payoff_at_relabel64 (cf cv : gmap Z vec) (t : Z) :
  payoff_at n (kmap lab cf) (kmap lab cv) (lab t) = payoff_at n cf cv t.
Proof. unfold payoff_at. now rewrite !getitem_kmap64. Qed.

Lemma backward_step_relabel64 (Sd cf : gmap Z vec)
      (st : gmap Z vec * gmap Z vec) (t : Z) :
  (1 <= t < m)%Z ->
  Float64.backward_step r order exp_ solve dt (kmap lab Sd) (kmap lab cf)
    (relabel_pair d st) (lab t)
  = result_map (relabel_pair d)
      (backward_step r order exp_ solve (Fin dt) Sd cf st t).
Proof.
  intros Ht.
  destruct (labels_fit_inv T m Hfit) as (_ & _ & _ & _ & Hnext).
  destruct st as [v c]. unfold relabel_pair, fst, snd.
  unfold Float64.backward_step, backward_step.
  rewrite (Hnext t Ht), !getitem_kmap64.
  destruct (getitem Sd t) as [St|e]; [|reflexivity]. cbn [mbind result_bind].
  destruct (scale St) as [x|e]; [|reflexivity]. cbn [mbind result_bind].
  destruct (chebyshev_basis x order) as [basis|e]; [|reflexivity].
  cbn [mbind result_bind].
  destruct (getitem v (t + 1)) as [v_next|e]; [|reflexivity].
  cbn [mbind result_bind].
  destruct (ridge_regression order solve basis v_next (Fin 100)) as [cv|e];
    [|reflexivity].
  cbn [mbind result_bind].
  destruct (getitem cf t) as [cft|e]; [|reflexivity]. cbn [mbind result_bind].
  rewrite !insert_kmap64, getitem_kmap64.
  destruct (getitem (<[t:=cv]> c) t) as [cvt|e]; [|reflexivity].
  cbn [mbind result_bind result_map fst snd]. now rewrite insert_kmap64.
Qed.

Lemma backward_relabel64 (Sd cf : gmap Z vec) (ts : list Z) :
  (forall t, In t ts -> (1 <= t < m)%Z) ->
  forall st : gmap Z vec * gmap Z vec,
  Float64.backward r order exp_ solve dt (kmap lab Sd) (kmap lab cf)
    (map lab ts) (relabel_pair d st)
  = result_map (relabel_pair d)
      (backward r order exp_ solve (Fin dt) Sd cf ts st).
Proof.
  induction ts as [|t ts IH]; intros Hts st; [reflexivity|].
  cbn [map Float64.backward backward].
  rewrite backward_step_relabel64 by (apply Hts; now left).
  destruct (backward_step r order exp_ solve (Fin dt) Sd cf st t) as [st'|e];
    [|reflexivity].
  cbn [mbind result_bind result_map]. apply IH.
  intros t' Ht'. apply Hts. now right.
Qed.

Lemma valuation_relabel64 (Sd : gmap Z vec) :
  Float64.valuation K r T order n m exp_ solve dt (kmap lab Sd)
  = result_map (relabel d) (valuation K r order n m exp_ solve (Fin dt) Sd).
Proof.
  destruct (labels_fit_inv T m Hfit) as (Hm & Hd & Hspan & _).
  unfold Float64.valuation, valuation.
  rewrite Hspan.
  replace (Float64.key_T T) with (lab m)
    by (unfold Float64.key_T, label; lia).
  rewrite <- (kmap_empty lab) at 1.
  rewrite (comprehension_relabel64 (cashflow_at K Sd))
    by apply cashflow_at_relabel64.
  destruct (comprehension (cashflow_at K Sd) (t_span m) ∅) as [cf|e];
    [|reflexivity].
  cbn [mbind result_bind result_map]. rewrite getitem_kmap64.
  destruct (getitem cf m) as [cf_T|e]; [|reflexivity].
  cbn [mbind result_bind].
  destruct (Tensor.zeros n) as [z|e]; [|reflexivity].
  cbn [mbind result_bind].
  rewrite <- map_rev, tail_map.
  rewrite <- !(kmap_singleton lab).
  change (kmap lab {[m := map (fun a => (a * discount r exp_ (Fin dt))%num) cf_T]},
          kmap lab {[m := z]})
    with (relabel_pair d
            ({[m := map (fun a => (a * discount r exp_ (Fin dt))%num) cf_T]},
             {[m := z]})).
  rewrite backward_relabel64.
  2:{ intros t Ht. rewrite tail_rev_t_span in Ht by exact Hm.
      apply in_rev, in_range in Ht. lia. }
  destruct (backward r order exp_ solve (Fin dt) Sd cf (tail (rev (t_span m)))
              _) as [[v c]|e]; [|reflexivity].
  cbn [mbind result_bind result_map relabel_pair fst snd].
  pose proof (comprehension_items_values
                (payoff_at n cf c) (payoff_at n (kmap lab cf) (kmap lab c)) lab
                (payoff_at_relabel64 cf c) lab64_inj (t_span m) []
                (NoDup_range _ _) ltac:(intros t _ [])) as Hitems.
  cbn [Labelled.values map app] in Hitems.
  destruct (Labelled.comprehension_items _ _ []) as [items|e];
    destruct (comprehension_values _ _) as [vs|e']; cbn in Hitems;
    try discriminate; [|injection Hitems as ->; reflexivity].
  injection Hitems as Hitems. cbn [mbind result_bind].
  rewrite Hitems.
  destruct (Tensor.stack1 vs) as [cand|e]; [|reflexivity].
  cbn [mbind result_bind].
  destruct (price_of r n m exp_ (Fin dt) (first_one cand)) as [price|e];
    reflexivity.
Qed.

(** When the labels fit, the cell with binary64 labels is the cell
    keyed by date indices, run with the rounded time step and
    relabelled. *)
Lemma notebook_relabel64 (s : nat) :
  Float64.notebook Spot σ K r T order n m exp_ sqrt_ solve draws s
  = relabel_run d
      (main_cell Spot σ K r order n m exp_ sqrt_ solve draws (Fin dt) s).
Proof.
  destruct (labels_fit_inv T m Hfit) as (Hm & Hd & Hspan & _).
  unfold Float64.notebook, Float64.time_step.
  destruct (m =? 0)%Z eqn:E; [apply Z.eqb_eq in E; lia|].
  unfold Float64.main_cell, main_cell, mbind, M_bind, lift.
  destruct (Tensor.ones n) as [one_n|e]; [|reflexivity].
  rewrite Hspan.
  assert (E0 : forall v : vec,
             ({[0%Z := v]} : gmap Z vec) = kmap lab {[0%Z := v]})
    by (intros; now rewrite kmap_singleton).
  rewrite E0, simulate_relabel64 by (intros t Ht; now apply in_t_span in Ht).
  destruct (simulate σ r n sqrt_ draws (Fin dt) (t_span m) _ s)
    as [[Sd|e] s1]; [|reflexivity].
  cbn [fst snd result_map]. unfold relabel_run. cbn [fst snd].
  now rewrite valuation_relabel64.
Qed.

End Float64Refinement.

(** ** Labels that do not fit the time step *)





Section Drift.

(** [D] is the time step in millionths: more than one, and neither an
    integer nor a half-integer. *)
Variable D : Q.

Hypothesis D_large : 1 < D.
Hypothesis D_odd : forall k, ~ 2 * D == inject_Z k.

(** The label of the date [i] and the label computed for the date
    before it. *)
Local Abbreviation L i := (Labelled.rint (inject_Z (Z.of_nat i) * D)).
Local Abbreviation P i := (Labelled.rint (inject_Z (L i) - D)).










End Drift.

Section Incoherent.

Variables (Spot σ K r : num) (T : positive) (order n m : Z)
  (exp_ sqrt_ : num -> num) (solve : matrix -> matrix -> result matrix)
  (draws : nat -> num).

Local Abbreviation previous dt t :=
  (Labelled.round6 (Labelled.time_of t - dt)).



Hypothesis Hn : (0 <= n)%Z.
Hypothesis Hm : (1 <= m <= Z.pos T * 1000000)%Z.
Hypothesis Hfit : ((Z.pos T * 2000000) mod m <> 0)%Z.

Local Abbreviation dt := (inject_Z (Z.pos T) / inject_Z m).
Local Abbreviation D := (dt * 1000000).









End Incoherent.


(** ** Runs that return *)






Section Total.

Variables (K r : num) (order n m : Z) (exp_ : num -> num)
  (solve : matrix -> matrix -> result matrix) (Δt : num).

Hypothesis solve_shape :
  forall B A β, solve B A = Ok β -> length β = length B.
Hypothesis Ho : (1 <= order)%Z.
Hypothesis Hn : (1 <= n)%Z.

Local Abbreviation N := (Z.to_nat n).





End Total.

(** ** Runs without a path, and with a negative number of steps *)

Section NoPath.

Variables (Spot σ K r : num) (T : positive) (order m : Z)
  (exp_ sqrt_ : num -> num) (solve : matrix -> matrix -> result matrix)
  (draws : nat -> num).

(** Without a path and with one date, the valuation returns the price
    [0 / 0]. *)
Lemma valuation_no_path_one_date (Δt : num) (Sd : gmap Z vec) :
  Sd !! 1%Z = Some [] ->
  exists tb, valuation K r order 0 1 exp_ solve Δt Sd = Ok tb /\
             tab_price tb = NaN.
Proof.
  intros ES1. unfold valuation.
  change (t_span 1) with [1%Z].
  cbn [comprehension tail rev app backward comprehension_values].
  unfold cashflow_at. rewrite (proj2 (getitem_Ok _ _ _) ES1).
  cbn [mbind result_bind].
  rewrite (proj2 (getitem_Ok _ 1%Z _) (lookup_insert_eq _ _ _)).
  cbn [mbind result_bind]. unfold payoff_at.
  cbn [Tensor.zeros Z.ltb Z.compare Z.to_nat repeat mbind result_bind].
  rewrite (proj2 (getitem_Ok _ 1%Z _) (lookup_singleton_eq _ _)).
  cbn [mbind result_bind].
  rewrite (proj2 (getitem_Ok _ 1%Z _) (lookup_insert_eq _ _ _)).
  cbn [mbind result_bind].
  eexists. split; [reflexivity|]. reflexivity.
Qed.

(** Without a path and with two dates or more, the valuation fails at
    the first scaling: an empty tensor has no minimum. *)
Lemma valuation_no_path (Δt : num) (Sd : gmap Z vec) :
  (2 <= m)%Z ->
  (forall t, (0 <= t <= m)%Z -> Sd !! t = Some []) ->
  valuation K r order 0 m exp_ solve Δt Sd = Raise RuntimeError.
Proof.
  intros Hm HS. unfold valuation.
  destruct (comprehension_total (cashflow_at K Sd) (t_span m))
    with (d := (∅ : gmap Z vec)) as [cashflow Ecf].
  { intros t Ht. apply in_t_span in Ht.
    unfold cashflow_at, getitem. rewrite HS by lia. cbn. eauto. }
  rewrite Ecf. cbn [mbind result_bind].
  destruct (comprehension_Ok _ _ _ _ Ecf) as [Hin _].
  destruct (Hin m) as (cf_T & _ & Ecfm); [apply in_t_span; lia|].
  rewrite (proj2 (getitem_Ok _ _ _) Ecfm).
  cbn [Tensor.zeros Z.ltb Z.compare mbind result_bind].
  rewrite tail_rev_t_span by lia.
  replace (Z.to_nat (m - 1)) with (Datatypes.S (Z.to_nat (m - 2))) by lia.
  rewrite rev_range_snoc. cbn [backward].
  unfold backward_step at 1. cbv beta iota zeta.
  rewrite (proj2 (getitem_Ok _ _ _)
             (HS (1 + Z.of_nat (Z.to_nat (m - 2)))%Z ltac:(lia))).
  reflexivity.
Qed.

Lemma notebook_no_path (s : nat) :
  (1 <= m)%Z ->
  exists Sd,
    notebook Spot σ K r T order 0 m exp_ sqrt_ solve draws s =
    (valuation K r order 0 m exp_ solve
       (Fin (inject_Z (Z.pos T) / inject_Z m)) Sd, s) /\
    forall t, (0 <= t <= m)%Z -> Sd !! t = Some [].
Proof.
  intros Hm.
  destruct (notebook_simulated Spot σ K r T order 0 m exp_ sqrt_ solve draws s)
    as (Sd & E & HS); [lia | lia |].
  exists Sd. split.
  - rewrite E. f_equal. cbn. lia.
  - intros t Ht. destruct (HS t Ht) as (St & ESt & LSt).
    destruct St; [exact ESt | discriminate].
Qed.

End NoPath.

(** A negative number of time steps leaves the dates empty, and the
    labelled cell stops at [cashflow[T]]. *)
Lemma negative_steps_KeyError (Spot σ K r : num) (T : positive)
      (order n m : Z) (exp_ sqrt_ : num -> num)
      (solve : matrix -> matrix -> result matrix) (draws : nat -> num)
      (s : nat) :
  (0 <= n)%Z -> (m < 0)%Z ->
  Labelled.notebook Spot σ K r T order n m exp_ sqrt_ solve draws s
  = (Raise KeyError, s).
Proof.
  intros Hn Hm. unfold Labelled.notebook, Labelled.time_step.
  destruct (m =? 0)%Z eqn:E; [apply Z.eqb_eq in E; lia|].
  unfold Labelled.main_cell, mbind, M_bind, lift, Tensor.ones.
  destruct (n <? 0)%Z eqn:E'; [apply Z.ltb_lt in E'; lia|].
  assert (Hspan : Labelled.t_span T (inject_Z (Z.pos T) / inject_Z m) = []).
  { unfold Labelled.t_span, Labelled.arange.
    assert (Hm' : ~ inject_Z m == 0).
    { change 0 with (inject_Z 0). rewrite inject_Z_injective. lia. }
    assert (HT : ~ inject_Z (Z.pos T) == 0).
    { change 0 with (inject_Z 0). rewrite inject_Z_injective. lia. }
    assert (Eq : (inject_Z (Z.pos T) + inject_Z (Z.pos T) / inject_Z m
                  - inject_Z (Z.pos T) / inject_Z m)
                 / (inject_Z (Z.pos T) / inject_Z m) == inject_Z m).
    { field. split; assumption. }
    rewrite (Qceiling_comp _ _ Eq), Qceiling_Z.
    replace (Z.to_nat m) with 0%nat by lia. reflexivity. }
  rewrite Hspan. cbn [Labelled.simulate]. unfold mret, M_ret.
  unfold Labelled.valuation. rewrite Hspan. reflexivity.
Qed.

(** ** [first_one] twice *)

Lemma first_one_finite_rows (x : list (list Q)) (K : nat) :
  Forall (fun row => length row = K) x ->
  Forall (fun row => length row = K) (first_one (map (map Fin) x)) /\
  Forall (Forall finite) (first_one (map (map Fin) x)).
Proof.
  intros Hx.
  rewrite (first_one_rectangular _ K)
    by (apply Forall_map; eapply Forall_impl; [exact Hx|];
        cbn; intros row <-; apply length_map).
  rewrite map_map. split.
  - apply Forall_map. eapply Forall_impl; [exact Hx|]. cbn. intros row <-.
    rewrite length_vmul, length_mask, length_selected, !length_map. lia.
  - apply Forall_map. apply List.Forall_forall. intros row _. cbn.
    unfold Tensor.vmul, Tensor.mask.
    generalize (selected true (map (fun a => (a >? Num.zero)%num) (map Fin row))).
    induction row as [|q row IH]; intros [|b bs]; cbn; constructor.
    + destruct b; reflexivity.
    + apply IH.
Qed.

(** Property X17. Applying [first_one] to its own result changes
    nothing. *)
Theorem first_one_is_idempotent (x : list (list Q)) (K : nat) :
  Forall (fun row => length row = K) x ->
  let y := first_one (map (map Fin) x) in
  length (first_one y) = length y /\
  forall i j, (Tensor.entry (first_one y) i j == Tensor.entry y i j)%num.
Proof.
  intros Hx y. split; [apply first_one_length|].
  destruct (first_one_finite_rows x K Hx) as [Hrows Hfin]. fold y in Hrows, Hfin.
  apply finite_matrix_Fin in Hfin.
  set (yq := map (map Reference.to_Q) y) in *.
  assert (Hyq : Forall (fun row => length row = K) yq).
  { subst yq. apply Forall_map. eapply Forall_impl; [exact Hrows|].
    cbn. intros row <-. apply length_map. }
  assert (Ey : forall i j,
            qentry yq i j ==
            qentry x i j * (if first_positive (nth i x []) j then 1 else 0)).
  { intros i j.
    pose proof (first_one_entry x K i j Hx) as E. fold y in E.
    rewrite Hfin, entry_Fin in E.
    destruct (first_positive (nth i x []) j); cbn in E; exact E. }
  intros i j. rewrite Hfin at 1.
  rewrite (first_one_entry yq K i j Hyq). rewrite Hfin, entry_Fin.
  destruct (first_positive (nth i yq []) j) eqn:Fy; cbn; [ring|].
  rewrite (Ey i j).
  destruct (first_positive (nth i x []) j) eqn:Fx; [|ring].
  exfalso. apply first_positive_spec in Fx as [Hpos Hbefore].
  assert (Fy' : first_positive (nth i yq []) j = true); [|congruence].
  apply first_positive_spec. split.
  - change (nth j (nth i yq []) 0) with (qentry yq i j). rewrite (Ey i j).
    assert (F : first_positive (nth i x []) j = true)
      by (apply first_positive_spec; now split).
    rewrite F. unfold qentry. lra.
  - intros j' Hj'. change (nth j' (nth i yq []) 0) with (qentry yq i j').
    rewrite (Ey i j').
    destruct (first_positive (nth i x []) j') eqn:F'; [|lra].
    apply first_positive_spec in F' as [Hpos' _].
    specialize (Hbefore j' Hj'). lra.
Qed.

Lemma first_one_is_idempotent_witness :
  Forall (fun row => length row = 4%nat) sample_payoffs /\
  length (first_one (first_one (map (map Fin) sample_payoffs)))
  = length (first_one (map (map Fin) sample_payoffs)).
Proof.
  assert (H : Forall (fun row => length row = 4%nat) sample_payoffs)
    by (repeat constructor).
  split; [exact H|].
  exact (proj1 (first_one_is_idempotent sample_payoffs 4 H)).
Defined.

(** ** The cells with time labels: statements *)

(** Property X2.  When the labels fit the dates, which is a
    computation in binary64 on [T] and [m], every lookup of a
    neighbouring date finds it, and the run of the cell keyed by the
    rounded times is the run of the cell keyed by the indices of the
    dates, with the rounded time step and relabelled: the same tables
    or the same error, and the same number of draws. *)
Theorem float64_run_is_indexed_run (Spot σ K r : num) (T : positive)
        (order n m : Z) (exp_ sqrt_ : num -> num)
        (solve : matrix -> matrix -> result matrix) (draws : nat -> num)
        (s : nat) :
  Float64.labels_fit T m = true ->
  Float64.notebook Spot σ K r T order n m exp_ sqrt_ solve draws s
  = relabel_run (Float64.step T m)
      (main_cell Spot σ K r order n m exp_ sqrt_ solve draws
         (Fin (Float64.fl (inject_Z (Z.pos T) / inject_Z m))) s).
Proof. intros Hfit. now apply notebook_relabel64. Qed.

Lemma float64_run_is_indexed_run_witness :
  Float64.labels_fit 1 10 = true /\
  float64_run 1 2 10
  = relabel_run (Float64.step 1 10)
      (main_cell (Fin 32) (Fin 1) (Fin 33) (Fin 0) 2 2 10
         Reference.exp Reference.sqrt Reference.solve
         (fun i => Fin (strike_draws i))
         (Fin (Float64.fl (inject_Z (Z.pos 1) / inject_Z 10))) 0%nat).
Proof.
  assert (H : Float64.labels_fit 1 10 = true) by (vm_compute; reflexivity).
  split; [exact H|].
  exact (float64_run_is_indexed_run (Fin 32) (Fin 1) (Fin 33) (Fin 0) 1 2 2 10
           Reference.exp Reference.sqrt Reference.solve
           (fun i => Fin (strike_draws i)) 0%nat H).
Defined.

(** The labels do not always fit when the time step is a whole number
    of millionths: for [T = 9] and [m = 125] the length of
    [np.arange] is the ceiling of a quotient that is rounded to just
    above 125, and [t_span] has 126 labels. *)
Lemma labels_of_nine_years :
  Float64.step 9 125 = 72000%Z /\
  (Z.pos 9 * 1000000 = 125 * 72000)%Z /\
  length (Float64.t_span 9 (Float64.fl (inject_Z (Z.pos 9) / inject_Z 125)))
  = 126%nat /\
  Float64.labels_fit 9 125 = false.
Proof. repeat split; vm_compute; reflexivity. Qed.


(** Property X5. A negative number of time steps: the dates are empty,
    no price is simulated and the run stops at [cashflow[T]] with a
    [KeyError]. *)
Theorem negative_steps_raise_KeyError (Spot σ K r : num) (T : positive)
        (order n m : Z) (exp_ sqrt_ : num -> num)
        (solve : matrix -> matrix -> result matrix) (draws : nat -> num)
        (s : nat) :
  (0 <= n)%Z -> (m < 0)%Z ->
  Labelled.notebook Spot σ K r T order n m exp_ sqrt_ solve draws s
  = (Raise KeyError, s).
Proof. apply negative_steps_KeyError. Qed.

Lemma negative_steps_raise_KeyError_witness :
  (0 <= 2)%Z /\ (-1 < 0)%Z /\ labelled_run (-1) = (Raise KeyError, 0%nat).
Proof.
  assert (H1 : (0 <= 2)%Z) by lia.
  assert (H2 : (-1 < 0)%Z) by lia.
  split; [exact H1|]. split; [exact H2|].
  exact (negative_steps_raise_KeyError (Fin 32) (Fin 1) (Fin 33) (Fin 0) 1 2 2
           (-1) Reference.exp Reference.sqrt Reference.solve
           (fun i => Fin (strike_draws i)) 0%nat H1 H2).
Defined.

(** Property X4. Without a path ([n = 0]) and with labels that fit the
    time step: with one date the run returns the price [0 / 0], which is
    NaN; with two dates or more it stops at the first scaling, because
    an empty tensor has no minimum, having drawn nothing. *)
Theorem run_without_paths (Spot σ K r : num) (T : positive)
        (order m d : Z) (exp_ sqrt_ : num -> num)
        (solve : matrix -> matrix -> result matrix) (draws : nat -> num)
        (s : nat) :
  (1 <= m)%Z -> (Z.pos T * 1000000 = m * d)%Z ->
  (m = 1%Z ->
   exists tb,
     Labelled.notebook Spot σ K r T order 0 m exp_ sqrt_ solve draws s
     = (Ok tb, s) /\ tab_price tb = NaN) /\
  ((2 <= m)%Z ->
   Labelled.notebook Spot σ K r T order 0 m exp_ sqrt_ solve draws s
   = (Raise RuntimeError, s)).
Proof.
  intros Hm Hd.
  rewrite (notebook_relabel Spot σ K r T order 0 m d exp_ sqrt_ solve draws
             Hm Hd s).
  destruct (notebook_no_path Spot σ K r T order m exp_ sqrt_ solve draws s Hm)
    as (Sd & -> & HS).
  split.
  - intros ->.
    destruct (valuation_no_path_one_date K r order exp_ solve
                (Fin (inject_Z (Z.pos T) / inject_Z 1)) Sd
                (HS 1%Z ltac:(lia))) as (tb & -> & Eprice).
    exists (relabel d tb). split; [reflexivity | exact Eprice].
  - intros Hm2. now rewrite valuation_no_path.
Qed.

Lemma run_without_paths_witness :
  (1 <= 2)%Z /\ (Z.pos 1 * 1000000 = 2 * 500000)%Z /\ (2 <= 2)%Z /\
  Labelled.notebook (Fin 32) (Fin 1) (Fin 33) (Fin 0) 1 2 0 2
    Reference.exp Reference.sqrt Reference.solve
    (fun i => Fin (strike_draws i)) 0%nat
  = (Raise RuntimeError, 0%nat).
Proof.
  assert (H1 : (1 <= 2)%Z) by lia.
  assert (H2 : (Z.pos 1 * 1000000 = 2 * 500000)%Z) by reflexivity.
  assert (H3 : (2 <= 2)%Z) by lia.
  split; [exact H1|]. split; [exact H2|]. split; [exact H3|].
  exact (proj2 (run_without_paths (Fin 32) (Fin 1) (Fin 33) (Fin 0) 1 2 2
                  500000 Reference.exp Reference.sqrt Reference.solve
                  (fun i => Fin (strike_draws i)) 0%nat H1 H2) H3).
Defined.




(** ** Invalid parameters *)

(** The polynomial order 0 is not rejected: with one date the run
    returns its tables and a price, after two draws; with two dates it
    fails only at the first regression, after four draws. *)
Lemma nonpositive_order_is_not_rejected :
  (exists tb, float64_run 2 0 1 = (Ok tb, 2%nat)) /\
  float64_run 2 0 2 = (Raise RuntimeError, 4%nat).
Proof.
  split; [exists (tables_of (float64_run 2 0 1))|]; vm_compute; reflexivity.
Qed.

(** Claim C10, as amended.  The notebook validates no parameter and has
    no configuration error; an invalid parameter is met by the first
    operation that cannot work with it.  A zero number of time steps
    raises [ZeroDivisionError] and a negative number of paths raises
    the tensor library's [RuntimeError], both before any draw.  A
    non-positive polynomial order (with at least one path, two dates
    and labels that fit the dates) is not rejected before the
    simulation: the run consumes all [m * n] draws and raises
    [RuntimeError] at the first regression. *)
Theorem invalid_parameters_fail_where_first_used (Spot σ K r : num)
        (T : positive) (order n m : Z) (exp_ sqrt_ : num -> num)
        (solve : matrix -> matrix -> result matrix) (draws : nat -> num)
        (s : nat) :
  (m = 0%Z ->
   Float64.notebook Spot σ K r T order n m exp_ sqrt_ solve draws s
   = (Raise ZeroDivisionError, s)) /\
  (m <> 0%Z -> (n < 0)%Z ->
   Float64.notebook Spot σ K r T order n m exp_ sqrt_ solve draws s
   = (Raise RuntimeError, s)) /\
  ((order <= 0)%Z -> (1 <= n)%Z -> (2 <= m)%Z ->
   Float64.labels_fit T m = true ->
   Float64.notebook Spot σ K r T order n m exp_ sqrt_ solve draws s
   = (Raise RuntimeError, (s + Z.to_nat m * Z.to_nat n)%nat)).
Proof.
  split; [|split].
  - intros ->. reflexivity.
  - intros Hm Hn. unfold Float64.notebook, Float64.time_step.
    destruct (m =? 0)%Z eqn:E; [apply Z.eqb_eq in E; contradiction|].
    unfold mbind at 1, M_bind at 1, lift at 1.
    unfold Float64.main_cell, Tensor.ones.
    destruct (n <? 0)%Z eqn:E'; [reflexivity | apply Z.ltb_ge in E'; lia].
  - intros Ho Hn Hm Hfit.
    rewrite (notebook_relabel64 Spot σ K r T order n m exp_ sqrt_ solve draws
               Hfit s).
    destruct (main_cell_simulated Spot σ K r order n m exp_ sqrt_ solve draws
                (Fin (Float64.fl (inject_Z (Z.pos T) / inject_Z m))) s)
      as (Sd & -> & HS); [lia | lia |].
    now rewrite valuation_order_nonpositive.
Qed.

Lemma invalid_parameters_fail_where_first_used_witness :
  (0 <= 0)%Z /\ (1 <= 2)%Z /\ (2 <= 2)%Z /\ Float64.labels_fit 2 2 = true /\
  float64_run 2 0 2
  = (Raise RuntimeError, (0 + Z.to_nat 2 * Z.to_nat 2)%nat).
Proof.
  assert (H : Float64.labels_fit 2 2 = true) by (vm_compute; reflexivity).
  split; [lia|]. split; [lia|]. split; [lia|]. split; [exact H|].
  apply (proj2 (proj2 (invalid_parameters_fail_where_first_used (Fin 32) (Fin 1)
           (Fin 33) (Fin 0) 2 0 2 2 Reference.exp Reference.sqrt Reference.solve
           (fun i => Fin (strike_draws i)) 0%nat))); [lia | lia | lia | exact H].
Defined.

(** ** Witnesses on [strike_run] *)

Lemma strike_run_prices (t : Z) (St : vec) (p : nat) (sp : Q) :
  (1 <= t <= 2)%Z -> tab_S (tables_of (strike_run 16)) !! t = Some St ->
  (p < Z.to_nat 2)%nat -> nth p St Num.zero = Fin sp -> 24 <= sp.
Proof.
  intros Ht ESt Hp Esp.
  assert (Hcases : t = 1%Z \/ t = 2%Z) by lia.
  destruct Hcases as [-> | ->];
    vm_compute in ESt; injection ESt as <-;
    (destruct p as [|[|p]]; [| |simpl in Hp; lia]);
    cbn in Esp; injection Esp as <-; vm_compute; discriminate.
Qed.

Lemma price_is_zero_out_of_the_money_witness :
  (forall q, exists e, Reference.exp (Fin q) = Fin e /\ 0 <= e) /\
  finite (Reference.sqrt (Fin (inject_Z (Z.pos 2) / inject_Z 2))) /\
  (1 <= 2)%Z /\
  strike_run 16 = (Ok (tables_of (strike_run 16)), 4%nat) /\
  (tab_price (tables_of (strike_run 16)) == Num.zero)%num.
Proof.
  assert (H1 : finite (Reference.sqrt (Fin (inject_Z (Z.pos 2) / inject_Z 2))))
    by (vm_compute; reflexivity).
  assert (H2 : (1 <= 2)%Z) by lia.
  assert (H3 : strike_run 16 = (Ok (tables_of (strike_run 16)), 4%nat))
    by (vm_compute; reflexivity).
  assert (H5 : forall t St p sp, (1 <= t <= 2)%Z ->
             tab_S (tables_of (strike_run 16)) !! t = Some St ->
             (p < Z.to_nat 2)%nat -> nth p St Num.zero = Fin sp -> 16 <= sp).
  { intros t St p sp Ht ESt Hp Esp.
    apply Qle_trans with 24; [vm_compute; discriminate|].
    exact (strike_run_prices t St p sp Ht ESt Hp Esp). }
  split; [exact reference_exp_nonneg|]. split; [exact H1|].
  split; [exact H2|]. split; [exact H3|].
  exact (price_is_zero_out_of_the_money 32 1 16 0 2 2 2 2 Reference.exp
           Reference.sqrt Reference.solve strike_draws 0 4
           (tables_of (strike_run 16))
           reference_exp_nonneg H1 H2 H3 H5).
Defined.
